(** * Chapter 05 (Memory): the ingestion pipeline of [ingest.py] and the
      data models of [models.py], embedded in Rocq.

    Python values are modelled as follows.
    - [str] is a list of Unicode code points ([N]); [len] is its length as
      a Python [int] ([Z]).
    - [int] is [Z].
    - [dict] with string keys is a [gmap str value]; [{**a, **b}] is the
      union in which [b] wins.
    - a function that may raise returns an [outcome]; the [while] loop of
      [_split_by_character] takes a bound on its number of iterations and
      returns [None] when the bound is reached before the loop exits.
    - [uuid.uuid4()] and [datetime.now()] read a [World]; a call whose
      exception is caught by its caller returns a [completion], which
      keeps the world that the failed call left.
    - [float] is the binary64 float of Rocq.
    - a path is the record of what the code reads of it ([PdfFile],
      [File], [Directory]); [str.lower] is a parameter. *)

From stdpp Require Import base gmap list sorting strings.
From Stdlib Require Import ZArith Lia Floats.

Open Scope Z_scope.

(** ** Python strings *)

Definition str := list N.

(** A literal: the code points of an ASCII string. *)
Definition py (s : string) : str :=
  map Ascii.N_of_ascii (String.list_ascii_of_string s).

Definition len {A} (l : list A) : Z := Z.of_nat (length l).

Definition CR : N := 13%N.
Definition LF : N := 10%N.
Definition TAB : N := 9%N.
Definition SP : N := 32%N.

(** [c.isspace()]: the code points that [str.strip()] removes. *)
Definition is_space (c : N) : bool :=
  ((9 <=? c) && (c <=? 13) || (28 <=? c) && (c <=? 32)
   || (c =? 133) || (c =? 160) || (c =? 5760)
   || (8192 <=? c) && (c <=? 8202)
   || (c =? 8232) || (c =? 8233) || (c =? 8239) || (c =? 8287)
   || (c =? 12288))%N.

Fixpoint lstrip (s : str) : str :=
  match s with
  | [] => []
  | c :: s' => if is_space c then lstrip s' else s
  end.

Fixpoint rstrip (s : str) : str :=
  match s with
  | [] => []
  | c :: s' =>
      match rstrip s' with
      | [] => if is_space c then [] else [c]
      | r => c :: r
      end
  end.

(** [s.strip()] *)
Definition strip (s : str) : str := rstrip (lstrip s).

(** Truthiness of a string: [bool(s)]. *)
Definition truthy (s : str) : bool :=
  match s with [] => false | _ => true end.

Fixpoint starts_with (pat s : str) : bool :=
  match pat, s with
  | [], _ => true
  | _ :: _, [] => false
  | p :: pat', c :: s' => (p =? c)%N && starts_with pat' s'
  end.

(** [pat in s] *)
Fixpoint contains (pat s : str) : bool :=
  starts_with pat s ||
  match s with
  | [] => false
  | _ :: s' => contains pat s'
  end.

(** [s.split(sep)] for a non-empty [sep]: the occurrences of [sep] are
    taken from left to right and do not overlap.  [skip] counts the
    characters of a matched separator that are still to be passed. *)
Fixpoint split_from (sep : str) (skip : nat) (s : str) : list str :=
  match s with
  | [] => [[]]
  | c :: s' =>
      match skip with
      | S k => split_from sep k s'
      | O =>
          if starts_with sep s
          then [] :: split_from sep (length sep - 1) s'
          else match split_from sep 0 s' with
               | p :: ps => (c :: p) :: ps
               | [] => [[c]]
               end
      end
  end.

Definition split (sep s : str) : list str := split_from sep 0 s.

(** [sep.join(pieces)] *)
Fixpoint join (sep : str) (pieces : list str) : str :=
  match pieces with
  | [] => []
  | [p] => p
  | p :: ps => p ++ sep ++ join sep ps
  end.

(** Python slice indices: a negative index counts from the end, and
    both ends are clamped to the string. *)
Definition clamp_index (n i : Z) : Z :=
  if i <? 0 then Z.max 0 (n + i) else Z.min i n.

(** [s[lo:hi]] *)
Definition slice (s : str) (lo hi : Z) : str :=
  let a := clamp_index (len s) lo in
  let b := clamp_index (len s) hi in
  take (Z.to_nat (b - a)) (drop (Z.to_nat a) s).

(** [s[lo:]] *)
Definition slice_from (s : str) (lo : Z) : str :=
  drop (Z.to_nat (clamp_index (len s) lo)) s.

(** ** [RecursiveCharacterTextSplitter] *)

Definition DEFAULT_SEPARATORS : list str :=
  [ [LF; LF]; [LF]; py ". "; py "? "; py "! "; py "; "; py ", "; py " "; [] ].

Record RecursiveCharacterTextSplitter := {
  chunk_size : Z;
  chunk_overlap : Z;
  separators : list str
}.

(** What a call can do besides returning: raise an exception (the only
    one raised by the modelled code is the [ValidationError] of pydantic),
    or not return at all. *)
Inductive exn := ValidationError.

Inductive outcome (A : Type) :=
| Returns (a : A)
| Raises (e : exn)
| Diverges.
Arguments Returns {A} a.
Arguments Raises {A} e.
Arguments Diverges {A}.

(** [__init__]: the three assignments; [separators or DEFAULT_SEPARATORS]
    takes the default for [None] and for the empty list. *)
Definition init (chunk_size chunk_overlap : Z) (separators : option (list str))
  : outcome RecursiveCharacterTextSplitter :=
  Returns {| chunk_size := chunk_size;
             chunk_overlap := chunk_overlap;
             separators := match separators with
                           | Some ((_ :: _) as l) => l
                           | _ => DEFAULT_SEPARATORS
                           end |}.

(** [[text.strip()] if text.strip() else []] *)
Definition stripped_or_nothing (text : str) : list str :=
  if truthy (strip text) then [strip text] else [].

Section Splitter.

Variable self : RecursiveCharacterTextSplitter.

(** *** [_split_by_character] *)

Record window_state := { start : Z; chunks : list str }.

(** The loop test [start < len(text)]. *)
Definition window_continues (text : str) (st : window_state) : bool :=
  start st <? len text.

(** One execution of the loop body. *)
Definition window_step (text : str) (st : window_state) : window_state :=
  let end_ := Z.min (start st + chunk_size self) (len text) in
  {| start := end_ - chunk_overlap self;
     chunks := chunks st ++ [strip (slice text (start st) end_)] |}.

(** The [while] loop, run for at most [fuel] iterations. *)
Fixpoint window_loop (fuel : nat) (text : str) (st : window_state)
  : option window_state :=
  if window_continues text st then
    match fuel with
    | O => None
    | S fuel' => window_loop fuel' text (window_step text st)
    end
  else Some st.

Definition _split_by_character (fuel : nat) (text : str) : option (list str) :=
  match window_loop fuel text {| start := 0; chunks := [] |} with
  | Some st => Some (List.filter truthy (chunks st))
  | None => None
  end.

(** *** [_apply_overlap] *)

(** [prev_chunk[-overlap:] if len(prev_chunk) > overlap else prev_chunk] *)
Definition overlap_text (prev_chunk : str) : str :=
  if len prev_chunk >? chunk_overlap self
  then slice_from prev_chunk (- chunk_overlap self)
  else prev_chunk.

(** The body of the [for] loop: what is appended for [chunks[i]]. *)
Definition stitch (prev_chunk curr_chunk : str) : str :=
  if len (overlap_text prev_chunk) + len curr_chunk <=? chunk_size self
  then overlap_text prev_chunk ++ [SP] ++ curr_chunk
  else curr_chunk.

(** [for i in range(1, len(chunks))], with [prev = chunks[i - 1]]. *)
Fixpoint stitch_from (prev_chunk : str) (rest : list str) : list str :=
  match rest with
  | [] => []
  | curr_chunk :: rest' => stitch prev_chunk curr_chunk :: stitch_from curr_chunk rest'
  end.

Definition _apply_overlap (chunks : list str) : list str :=
  if (len chunks <=? 1) || (chunk_overlap self <=? 0) then chunks
  else match chunks with
       | [] => []
       | first :: rest => first :: stitch_from first rest
       end.

(** *** [_split_text_recursive] *)

(** The loop [for split in splits] that merges small splits; [recurse] is
    the recursive call on [separators[i + 1:]]. *)
Fixpoint merge_splits (recurse : str -> option (list str)) (separator : str)
    (splits : list str) (chunks : list str) (current_chunk : str)
  : option (list str * str) :=
  match splits with
  | [] => Some (chunks, current_chunk)
  | split :: splits' =>
      let test_chunk :=
        current_chunk ++ (if truthy current_chunk then separator else []) ++ split in
      if len test_chunk <=? chunk_size self then
        merge_splits recurse separator splits' chunks test_chunk
      else
        let chunks1 :=
          if truthy current_chunk then chunks ++ [strip current_chunk] else chunks in
        if len split >? chunk_size self then
          match recurse split with
          | None => None
          | Some sub_chunks =>
              merge_splits recurse separator splits' (chunks1 ++ sub_chunks) []
          end
        else merge_splits recurse separator splits' chunks1 split
  end.

(** The part of the loop body run for a separator that occurs in the
    text: split, merge, flush the last buffer, apply the overlap. *)
Definition split_on (recurse : str -> option (list str)) (separator text : str)
  : option (list str) :=
  match merge_splits recurse separator (split separator text) [] [] with
  | None => None
  | Some (chunks, current_chunk) =>
      Some (_apply_overlap
              (if truthy (strip current_chunk)
               then chunks ++ [strip current_chunk] else chunks))
  end.

(** [for i, separator in enumerate(separators)], entered when the text is
    longer than [chunk_size]; falling off the end of the list returns the
    stripped text. *)
Fixpoint try_separators (fuel : nat) (separators : list str) (text : str)
  : option (list str) :=
  match separators with
  | [] => Some (stripped_or_nothing text)
  | separator :: rest =>
      if negb (truthy separator) then _split_by_character fuel text
      else if contains separator text then
        split_on
          (fun split =>
             if len split <=? chunk_size self
             then Some (stripped_or_nothing split)
             else try_separators fuel rest split)
          separator text
      else try_separators fuel rest text
  end.

Definition _split_text_recursive (fuel : nat) (text : str) (separators : list str)
  : option (list str) :=
  if len text <=? chunk_size self then Some (stripped_or_nothing text)
  else try_separators fuel separators text.

Definition split_text (fuel : nat) (text : str) : option (list str) :=
  _split_text_recursive fuel text (separators self).

End Splitter.

Definition mk (cs co : Z) (seps : list str) : RecursiveCharacterTextSplitter :=
  {| chunk_size := cs; chunk_overlap := co; separators := seps |}.

(** ** [IngestionPipeline._clean_text] *)

(** [re.sub(r'\r\n', '\n', text)] *)
Fixpoint sub_crlf (text : str) : str :=
  match text with
  | c :: ((d :: rest) as tail) =>
      if (c =? CR)%N && (d =? LF)%N then LF :: sub_crlf rest
      else c :: sub_crlf tail
  | _ => text
  end.

(** [re.sub(r'\t', '    ', text)] *)
Definition sub_tab (text : str) : str :=
  flat_map (fun c => if (c =? TAB)%N then [SP; SP; SP; SP] else [c]) text.

(** [re.sub(r' +', ' ', text)]: every maximal run of spaces becomes one
    space; [in_run] tells that the previous character was a space of the
    run being replaced. *)
Fixpoint sub_spaces_from (in_run : bool) (text : str) : str :=
  match text with
  | [] => []
  | c :: rest =>
      if (c =? SP)%N
      then if in_run then sub_spaces_from true rest
           else SP :: sub_spaces_from true rest
      else c :: sub_spaces_from false rest
  end.

Definition sub_spaces (text : str) : str := sub_spaces_from false text.

(** [re.sub(r'\n{3,}', '\n\n', text)]: every maximal run of three or more
    newlines becomes two; [run] counts the newlines already kept from the
    current run. *)
Fixpoint sub_newlines_from (run : nat) (text : str) : str :=
  match text with
  | [] => []
  | c :: rest =>
      if (c =? LF)%N
      then if (run <? 2)%nat then LF :: sub_newlines_from (S run) rest
           else sub_newlines_from run rest
      else c :: sub_newlines_from 0 rest
  end.

Definition sub_newlines (text : str) : str := sub_newlines_from 0 text.

Definition _clean_text (text : str) : str :=
  strip (sub_newlines (sub_spaces (sub_tab (sub_crlf text)))).

(** ** [models.py] *)

(** An instant, as returned by [datetime.now()]. *)
Definition datetime := Z.

(** The values stored in [extra] and in the serialized metadata. *)
Inductive value :=
| VNone
| VBool (b : bool)
| VInt (z : Z)
| VStr (s : str).

Record DocumentMetadata := {
  source : str;
  chunk_index : Z;
  total_chunks : Z;
  created_at : datetime;
  page_number : option Z;
  extra : gmap str value
}.

Record Document := {
  id : str;
  content : str;
  metadata : DocumentMetadata
}.

Global Instance outcome_ret : MRet outcome := fun A a => Returns a.
Global Instance outcome_bind : MBind outcome := fun A B f o =>
  match o with
  | Returns a => f a
  | Raises e => Raises e
  | Diverges => Diverges
  end.
Global Instance outcome_fmap : FMap outcome := fun A B f o =>
  match o with
  | Returns a => Returns (f a)
  | Raises e => Raises e
  | Diverges => Diverges
  end.

(** The sources of fresh values: the [n]-th call of [uuid.uuid4()] and of
    [datetime.now()] return [uuid4_values n] and [now_values n]. *)
Record World := {
  uuid4_values : nat -> str;
  now_values : nat -> datetime;
  uuid4_calls : nat;
  now_calls : nat
}.

(** [generate_id()]: [str(uuid.uuid4())] *)
Definition generate_id (w : World) : str * World :=
  (uuid4_values w (uuid4_calls w),
   {| uuid4_values := uuid4_values w; now_values := now_values w;
      uuid4_calls := S (uuid4_calls w); now_calls := now_calls w |}).

(** [datetime.now()] *)
Definition datetime_now (w : World) : datetime * World :=
  (now_values w (now_calls w),
   {| uuid4_values := uuid4_values w; now_values := now_values w;
      uuid4_calls := uuid4_calls w; now_calls := S (now_calls w) |}).

(** [DocumentMetadata(...)], with the validation of the field
    constraints [ge=0], [ge=1] and [ge=1]. *)
Definition new_DocumentMetadata (source : str) (chunk_index total_chunks : Z)
    (created_at : datetime) (page_number : option Z) (extra : gmap str value)
  : outcome DocumentMetadata :=
  if (0 <=? chunk_index) && (1 <=? total_chunks)
     && match page_number with Some n => 1 <=? n | None => true end
  then Returns {| source := source; chunk_index := chunk_index;
                  total_chunks := total_chunks; created_at := created_at;
                  page_number := page_number; extra := extra |}
  else Raises ValidationError.

(** [Document(content=..., metadata=...)]: [min_length=1] on the content,
    and the identifier from [generate_id]. *)
Definition new_Document (content : str) (metadata : DocumentMetadata) (w : World)
  : outcome (Document * World) :=
  if 1 <=? len content then
    let '(i, w') := generate_id w in
    Returns ({| id := i; content := content; metadata := metadata |}, w')
  else Raises ValidationError.

(** [x or d] for an optional integer. *)
Definition int_or (x : option Z) (d : Z) : Z :=
  match x with
  | Some n => if n =? 0 then d else n
  | None => d
  end.

(** [{**d, **e}]: the entries of [e] win. *)
Definition dict_update (d e : gmap str value) : gmap str value := e ∪ d.

(** The dictionary returned by [to_chroma_format]. *)
Record ChromaFormat := {
  chroma_id : str;
  chroma_document : str;
  chroma_metadata : gmap str value
}.

Section Chroma.

(** [datetime.isoformat] *)
Variable isoformat : datetime -> str.

Definition to_chroma_format (self : Document) : ChromaFormat :=
  {| chroma_id := id self;
     chroma_document := content self;
     chroma_metadata :=
       dict_update
         {[ py "source" := VStr (source (metadata self));
            py "chunk_index" := VInt (chunk_index (metadata self));
            py "total_chunks" := VInt (total_chunks (metadata self));
            py "created_at" := VStr (isoformat (created_at (metadata self)));
            py "page_number" := VInt (int_or (page_number (metadata self)) 0) ]}
         (extra (metadata self)) |}.

End Chroma.

(** ** [SearchResult] *)

Module Search.

Record SearchResult := {
  content : str;
  score : float;
  source : str;
  metadata : gmap str value
}.

End Search.

(** [min(a, b)] and [max(a, b)] of two floats: the second argument is
    returned when it compares less (greater) than the first, which a NaN
    never does. *)
Definition py_min (a b : float) : float := if PrimFloat.ltb b a then b else a.
Definition py_max (a b : float) : float := if PrimFloat.ltb a b then b else a.

(** [SearchResult(content=..., score=..., source=..., metadata=...)],
    with the validation of [ge=0.0] and [le=1.0] on the score and of the
    type of [source]. *)
Definition new_SearchResult (content : str) (score : float) (source : value)
    (metadata : gmap str value) : outcome Search.SearchResult :=
  if PrimFloat.leb 0 score && PrimFloat.leb score 1 then
    match source with
    | VStr s => Returns {| Search.content := content; Search.score := score;
                           Search.source := s; Search.metadata := metadata |}
    | _ => Raises ValidationError
    end
  else Raises ValidationError.

(** [SearchResult.from_chroma_result] *)
Definition from_chroma_result (document : str) (distance : float)
    (metadata : gmap str value) : outcome Search.SearchResult :=
  let score :=
    py_max 0 (py_min 1 (PrimFloat.sub 1 (PrimFloat.div distance 2))) in
  new_SearchResult document score
    (default (VStr (py "unknown")) (metadata !! py "source")) metadata.

(** ** [IngestionPipeline] *)

(** The part of [settings] that the pipeline reads. *)
Record Settings := { CHUNK_SIZE : Z; CHUNK_OVERLAP : Z }.

Record IngestionPipeline := {
  pipeline_chunk_size : Z;
  pipeline_chunk_overlap : Z;
  splitter : RecursiveCharacterTextSplitter
}.

(** [IngestionPipeline.__init__] *)
Definition pipeline_init (settings : Settings) (chunk_size chunk_overlap : option Z)
  : outcome IngestionPipeline :=
  let cs := int_or chunk_size (CHUNK_SIZE settings) in
  let co := int_or chunk_overlap (CHUNK_OVERLAP settings) in
  s ← init cs co None;
  mret {| pipeline_chunk_size := cs; pipeline_chunk_overlap := co; splitter := s |}.

(** [extra_metadata or {}] *)
Definition dict_or_empty (d : option (gmap str value)) : gmap str value :=
  default ∅ d.

(** A split that uses up its iteration bound has not returned. *)
Definition run_split (r : option (list str)) : outcome (list str) :=
  match r with Some chunks => Returns chunks | None => Diverges end.

Section Ingest.

Variable self : IngestionPipeline.
Variable fuel : nat.

(** The loop [for i, chunk in enumerate(chunks)] of [ingest_text]. *)
Fixpoint text_documents (source : str) (extra_metadata : option (gmap str value))
    (total_chunks : Z) (i : Z) (chunks : list str) (w : World)
  : outcome (list Document * World) :=
  match chunks with
  | [] => Returns ([], w)
  | chunk :: rest =>
      let '(t, w1) := datetime_now w in
      metadata ← new_DocumentMetadata source i total_chunks t None
                   (dict_or_empty extra_metadata);
      '(doc, w2) ← new_Document chunk metadata w1;
      '(documents, w3) ← text_documents source extra_metadata total_chunks (i + 1) rest w2;
      Returns (doc :: documents, w3)
  end.

Definition ingest_text (text source : str) (extra_metadata : option (gmap str value))
    (w : World) : outcome (list Document * World) :=
  let text := _clean_text text in
  if negb (truthy text) then Returns ([], w)
  else
    chunks ← run_split (split_text (splitter self) fuel text);
    match chunks with
    | [] => Returns ([], w)
    | _ => text_documents source extra_metadata (len chunks) 0 chunks w
    end.

(** What [ingest_pdf] reads from the file: its name, its size and, for
    every page of the reader, the result of [page.extract_text()]. *)
Record PdfFile := {
  pdf_name : str;
  pdf_size : Z;
  pdf_pages : list (option str)
}.

(** [enumerate(l)], counting from [i]. *)
Fixpoint enumerate_from {A} (i : Z) (l : list A) : list (Z * A) :=
  match l with
  | [] => []
  | x :: l' => (i, x) :: enumerate_from (i + 1) l'
  end.

(** The first pass over the pages, [page_num] counting from 1: the
    entries [(chunk, page_num, chunk_idx)] of [all_chunks]. *)
Fixpoint collect_chunks (page_num : Z) (pages : list (option str))
  : outcome (list (str * Z * Z)) :=
  match pages with
  | [] => Returns []
  | page :: rest =>
      let page_text := default [] page in
      if negb (truthy (strip page_text)) then collect_chunks (page_num + 1) rest
      else
        chunks ← run_split (split_text (splitter self) fuel (_clean_text page_text));
        more ← collect_chunks (page_num + 1) rest;
        Returns (map (fun '(chunk_idx, chunk) => (chunk, page_num, chunk_idx))
                     (enumerate_from 0 chunks) ++ more)
  end.

(** The loop that creates the documents of a PDF. *)
Fixpoint pdf_documents (file : PdfFile) (extra_metadata : option (gmap str value))
    (total_chunks : Z) (i : Z) (all_chunks : list (str * Z * Z)) (w : World)
  : outcome (list Document * World) :=
  match all_chunks with
  | [] => Returns ([], w)
  | (chunk_text, page_num, page_chunk_idx) :: rest =>
      let '(t, w1) := datetime_now w in
      metadata ← new_DocumentMetadata (pdf_name file) i total_chunks t (Some page_num)
                   (dict_update
                      {[ py "filename" := VStr (pdf_name file);
                         py "extension" := VStr (py ".pdf");
                         py "file_size_bytes" := VInt (pdf_size file);
                         py "total_pages" := VInt (len (pdf_pages file));
                         py "page_chunk_index" := VInt page_chunk_idx ]}
                      (dict_or_empty extra_metadata));
      '(doc, w2) ← new_Document chunk_text metadata w1;
      '(documents, w3) ← pdf_documents file extra_metadata total_chunks (i + 1) rest w2;
      Returns (doc :: documents, w3)
  end.

Definition ingest_pdf (file : PdfFile) (extra_metadata : option (gmap str value))
    (w : World) : outcome (list Document * World) :=
  all_chunks ← collect_chunks 1 (pdf_pages file);
  match all_chunks with
  | [] => Returns ([], w)
  | _ => pdf_documents file extra_metadata (len all_chunks) 0 all_chunks w
  end.

End Ingest.

(** An ingestion call, and its execution. *)
Inductive ingestion_call :=
| IngestText (text source : str) (extra_metadata : option (gmap str value))
| IngestPdf (file : PdfFile) (extra_metadata : option (gmap str value)).

Definition run_ingestion (self : IngestionPipeline) (fuel : nat)
    (call : ingestion_call) (w : World) : outcome (list Document * World) :=
  match call with
  | IngestText text source extra_metadata =>
      ingest_text self fuel text source extra_metadata w
  | IngestPdf file extra_metadata => ingest_pdf self fuel file extra_metadata w
  end.

(** [start, start + 1, ...], [n] numbers. *)
Fixpoint zseq (start : Z) (n : nat) : list Z :=
  match n with
  | O => []
  | S n' => start :: zseq (start + 1) n'
  end.

(** The indices are [0 .. N-1] in order, and every document carries the
    total [N]. *)
Definition dense_indices (documents : list Document) : Prop :=
  map (fun d => chunk_index (metadata d)) documents = zseq 0 (length documents)
  /\ Forall (fun d => total_chunks (metadata d) = len documents) documents.

(** The page-local ordinal of every element of a sequence of page
    numbers: how many earlier elements are on the same page; [seen] holds
    the pages of the elements before the sequence. *)
Fixpoint ordinals_from (seen pages : list (option Z)) : list Z :=
  match pages with
  | [] => []
  | p :: rest =>
      len (filter (fun q => q = p) seen) :: ordinals_from (seen ++ [p]) rest
  end.

Definition page_local_ordinals (documents : list Document) : list Z :=
  ordinals_from [] (map (fun d => page_number (metadata d)) documents).

(** What a document holds apart from its fresh identifier and its
    creation time. *)
Definition document_view (d : Document)
  : str * str * Z * Z * option Z * gmap str value :=
  (content d, source (metadata d), chunk_index (metadata d),
   total_chunks (metadata d), page_number (metadata d), extra (metadata d)).

(** The documents of a call, or how it failed, without the world. *)
Definition documents_of (o : outcome (list Document * World)) : outcome (list Document) :=
  fst <$> o.

Definition world_a : World :=
  {| uuid4_values := fun n => py "1b4e28ba-2fa1-4d3b-a3f5-0f5c1f0c7a11";
     now_values := fun n => 1000 + Z.of_nat n;
     uuid4_calls := 0; now_calls := 0 |}.

Definition world_b : World :=
  {| uuid4_values := fun n => py "9c858901-8a57-4791-81fe-4c455b099bc9";
     now_values := fun n => 2000 + Z.of_nat n;
     uuid4_calls := 0; now_calls := 0 |}.

Definition small_pipeline : IngestionPipeline :=
  {| pipeline_chunk_size := 5; pipeline_chunk_overlap := 0;
     splitter := mk 5 0 DEFAULT_SEPARATORS |}.

Definition two_pages : PdfFile :=
  {| pdf_name := py "notes.pdf"; pdf_size := 2048;
     pdf_pages := [Some (py "aaaaaa"); None; Some (py "bb")] |}.

(** ** [ingest_file] and [ingest_directory] *)

(** The exceptions that [ingest.py] raises itself, those that
    [Path.glob] raises for a pattern it does not accept ([ValueError] for
    an empty pattern, [NotImplementedError] for one that is not
    relative), and the validation error of pydantic. *)
Inductive file_exn :=
| FileNotFoundError
| ValueError
| NotImplementedError
| Invalid (e : exn).

(** How a call ends, with the world it leaves behind: the loop of
    [ingest_directory] catches the exception of a file and goes on in
    that world. *)
Inductive completion (A : Type) :=
| Done (a : A) (w : World)
| Failed (e : file_exn) (w : World)
| Hangs.
Arguments Done {A} a w.
Arguments Failed {A} e w.
Arguments Hangs {A}.

Definition and_then {A B} (r : completion A) (k : A -> World -> completion B)
  : completion B :=
  match r with
  | Done a w => k a w
  | Failed e w => Failed e w
  | Hangs => Hangs
  end.

(** A computation that does not touch the world, run in [w]. *)
Definition validated {A} (o : outcome A) (w : World) : completion A :=
  match o with
  | Returns a => Done a w
  | Raises e => Failed (Invalid e) w
  | Diverges => Hangs
  end.

(** [Document(content=..., metadata=...)], with the world it leaves:
    pydantic fills the missing first field [id] from its default factory
    before it validates [content], so [uuid.uuid4()] has been called when
    the validation fails. *)
Definition new_Document_in (content : str) (metadata : DocumentMetadata) (w : World)
  : completion Document :=
  let '(i, w') := generate_id w in
  if 1 <=? len content
  then Done {| id := i; content := content; metadata := metadata |} w'
  else Failed (Invalid ValidationError) w'.

Section IngestFiles.

Variable self : IngestionPipeline.
Variable fuel : nat.

(** The loop of [ingest_text], as [text_documents]. *)
Fixpoint text_documents_in (source : str) (extra_metadata : option (gmap str value))
    (total_chunks : Z) (i : Z) (chunks : list str) (w : World)
  : completion (list Document) :=
  match chunks with
  | [] => Done [] w
  | chunk :: rest =>
      let '(t, w1) := datetime_now w in
      and_then (validated (new_DocumentMetadata source i total_chunks t None
                             (dict_or_empty extra_metadata)) w1)
        (fun metadata w1 =>
      and_then (new_Document_in chunk metadata w1)
        (fun doc w2 =>
      and_then (text_documents_in source extra_metadata total_chunks (i + 1) rest w2)
        (fun documents w3 => Done (doc :: documents) w3)))
  end.

Definition ingest_text_in (text source : str) (extra_metadata : option (gmap str value))
    (w : World) : completion (list Document) :=
  let text := _clean_text text in
  if negb (truthy text) then Done [] w
  else
    and_then (validated (run_split (split_text (splitter self) fuel text)) w)
      (fun chunks w =>
         match chunks with
         | [] => Done [] w
         | _ => text_documents_in source extra_metadata (len chunks) 0 chunks w
         end).

(** The second loop of [ingest_pdf], as [pdf_documents]. *)
Fixpoint pdf_documents_in (file : PdfFile) (extra_metadata : option (gmap str value))
    (total_chunks : Z) (i : Z) (all_chunks : list (str * Z * Z)) (w : World)
  : completion (list Document) :=
  match all_chunks with
  | [] => Done [] w
  | (chunk_text, page_num, page_chunk_idx) :: rest =>
      let '(t, w1) := datetime_now w in
      and_then (validated
                  (new_DocumentMetadata (pdf_name file) i total_chunks t (Some page_num)
                     (dict_update
                        {[ py "filename" := VStr (pdf_name file);
                           py "extension" := VStr (py ".pdf");
                           py "file_size_bytes" := VInt (pdf_size file);
                           py "total_pages" := VInt (len (pdf_pages file));
                           py "page_chunk_index" := VInt page_chunk_idx ]}
                        (dict_or_empty extra_metadata))) w1)
        (fun metadata w1 =>
      and_then (new_Document_in chunk_text metadata w1)
        (fun doc w2 =>
      and_then (pdf_documents_in file extra_metadata total_chunks (i + 1) rest w2)
        (fun documents w3 => Done (doc :: documents) w3)))
  end.

Definition ingest_pdf_in (file : PdfFile) (extra_metadata : option (gmap str value))
    (w : World) : completion (list Document) :=
  and_then (validated (collect_chunks self fuel 1 (pdf_pages file)) w)
    (fun all_chunks w =>
       match all_chunks with
       | [] => Done [] w
       | _ => pdf_documents_in file extra_metadata (len all_chunks) 0 all_chunks w
       end).

(** What the pipeline reads of a path: [file_path.name],
    [file_path.suffix], [exists()], [is_file()], [stat().st_size], the
    result of [read_text] with either encoding ([None] for a
    [UnicodeDecodeError]), and the pages that [PdfReader] finds. *)
Record File := {
  file_name : str;
  file_suffix : str;
  file_exists : bool;
  file_is_file : bool;
  file_size : Z;
  file_utf8 : option str;
  file_latin1 : str;
  file_pages : list (option str)
}.

Definition SUPPORTED_EXTENSIONS : list str :=
  [py ".txt"; py ".md"; py ".py"; py ".json"; py ".csv"; py ".pdf"].

(** [str.lower] *)
Variable lower : str -> str.

(** [file_path.suffix.lower() in self.SUPPORTED_EXTENSIONS] *)
Definition supported (f : File) : bool :=
  bool_decide (lower (file_suffix f) ∈ SUPPORTED_EXTENSIONS).

(** [read_text(encoding="utf-8")], and [latin-1] after a
    [UnicodeDecodeError]. *)
Definition read_text (f : File) : str :=
  match file_utf8 f with
  | Some text => text
  | None => file_latin1 f
  end.

Definition ingest_file (f : File) (extra_metadata : option (gmap str value))
    (w : World) : completion (list Document) :=
  if negb (file_exists f) then Failed FileNotFoundError w
  else if negb (supported f) then Failed ValueError w
  else if bool_decide (lower (file_suffix f) = py ".pdf") then
    ingest_pdf_in {| pdf_name := file_name f; pdf_size := file_size f;
                     pdf_pages := file_pages f |} extra_metadata w
  else
    let text := read_text f in
    let file_metadata :=
      dict_update
        {[ py "filename" := VStr (file_name f);
           py "extension" := VStr (file_suffix f);
           py "file_size_bytes" := VInt (file_size f) ]}
        (dict_or_empty extra_metadata) in
    ingest_text_in text (file_name f) (Some file_metadata) w.

(** What [ingest_directory] reads of a path: [str(dir_path)],
    [exists()], [is_dir()], and what [glob(pattern)] and [rglob(pattern)]
    do: the paths they return, or the exception they raise for the
    pattern. *)
Record Directory := {
  dir_str : str;
  dir_exists : bool;
  dir_is_dir : bool;
  dir_glob : str -> file_exn + list File;
  dir_rglob : str -> file_exn + list File
}.

(** The loop [for file_path in glob_method(pattern)]: the pairs yielded,
    in order.  A file whose processing raises is skipped (after the
    warning is printed); the loop goes on in the world that the failed
    call left. *)
Fixpoint directory_yields (dir : Directory) (extra_metadata : option (gmap str value))
    (files : list File) (w : World)
  : completion (list (str * list Document)) :=
  match files with
  | [] => Done [] w
  | f :: rest =>
      if file_is_file f && supported f then
        match ingest_file f
                (Some (dict_update {[ py "directory" := VStr (dir_str dir) ]}
                         (dict_or_empty extra_metadata))) w with
        | Done documents w1 =>
            and_then (directory_yields dir extra_metadata rest w1)
              (fun yields w2 => Done ((file_name f, documents) :: yields) w2)
        | Failed _ w1 => directory_yields dir extra_metadata rest w1
        | Hangs => Hangs
        end
      else directory_yields dir extra_metadata rest w
  end.

(** [ingest_directory], as the sequence of the values that the generator
    yields when it is run to its end.  The call [glob_method(pattern)] is
    outside the [try]: an exception that it raises ends the generator. *)
Definition ingest_directory (dir : Directory) (pattern : str) (recursive : bool)
    (extra_metadata : option (gmap str value)) (w : World)
  : completion (list (str * list Document)) :=
  if negb (dir_exists dir) then Failed FileNotFoundError w
  else if negb (dir_is_dir dir) then Failed ValueError w
  else
    let glob_method := if recursive then dir_rglob dir else dir_glob dir in
    match glob_method pattern with
    | inl e => Failed e w
    | inr files => directory_yields dir extra_metadata files w
    end.

End IngestFiles.

(** [str.lower], on the letters A to Z. *)
Definition ascii_lower (s : str) : str :=
  map (fun c => if (65 <=? c)%N && (c <=? 90)%N then (c + 32)%N else c) s.

(** ** Notions used in the statements *)

Definition blank (s : str) : Prop := Forall (fun c => is_space c = true) s.

Definition ceil_div (a b : Z) : Z := (a + b - 1) / b.

(** [frag] occurs in [text] as a contiguous piece. *)
Definition substring (frag text : str) : Prop :=
  exists l r, text = l ++ frag ++ r.

(** The hierarchy is exhausted without fallback on a piece of the text:
    the hierarchy has no empty-string marker, and [c] is the stripped form
    of a fragment of [text] that is longer than [size] and in which no
    separator of the hierarchy occurs. *)
Definition hierarchy_exhausted (seps : list str) (size : Z) (text c : str) : Prop :=
  ~ In [] seps /\
  exists frag,
    substring frag text /\ size < len frag /\
    (forall sep, In sep seps -> contains sep frag = false) /\
    c = strip frag.

Definition chunk_ok (self : RecursiveCharacterTextSplitter)
    (text c : str) : Prop :=
  len c <= chunk_size self
  \/ hierarchy_exhausted (separators self) (chunk_size self) text c.

(** What splitting drops between two chunks: whitespace characters and
    whole separators of the hierarchy, in any number and order. *)
Inductive dropped (seps : list str) : str -> Prop :=
| dropped_nothing : dropped seps []
| dropped_space c rest :
    is_space c = true -> dropped seps rest -> dropped seps (c :: rest)
| dropped_separator sep rest :
    In sep seps -> dropped seps rest -> dropped seps (sep ++ rest).

(** [interleaved gap_ok text chunks]: the chunks occur in [text] in order
    and without overlap, and the gaps before, between and after them are
    [gap_ok]. *)
Inductive interleaved (gap_ok : str -> Prop) : str -> list str -> Prop :=
| interleaved_end gap :
    gap_ok gap -> interleaved gap_ok gap []
| interleaved_chunk gap c rest chunks :
    gap_ok gap -> interleaved gap_ok rest chunks ->
    interleaved gap_ok (gap ++ c ++ rest) (c :: chunks).

(** The text that lies after the pieces already merged: every remaining
    piece preceded by the separator. *)
Definition remaining (separator : str) (splits : list str) : str :=
  concat (map (app separator) splits).

Section MergeFirst.

Variable self : RecursiveCharacterTextSplitter.

(** The splitting and merging of [split_on], without the overlap pass. *)
Definition merge_on (recurse : str -> option (list str)) (separator text : str)
  : option (list str) :=
  match merge_splits self recurse separator (split separator text) [] [] with
  | None => None
  | Some (chunks, current_chunk) =>
      Some (if truthy (strip current_chunk)
            then chunks ++ [strip current_chunk] else chunks)
  end.

(** The recursion of [try_separators], without the overlap pass at any
    level. *)
Fixpoint merge_separators (fuel : nat) (separators : list str) (text : str)
  : option (list str) :=
  match separators with
  | [] => Some (stripped_or_nothing text)
  | separator :: rest =>
      if negb (truthy separator) then _split_by_character self fuel text
      else if contains separator text then
        merge_on
          (fun split =>
             if len split <=? chunk_size self
             then Some (stripped_or_nothing split)
             else merge_separators fuel rest split)
          separator text
      else merge_separators fuel rest text
  end.

(** Follows the words of the specification: all recursive splitting and
    greedy merging is completed with no overlap, then the
    overlap-stitching pass is applied exactly once, to the final merged
    sequence. *)
Definition split_then_stitch_once (fuel : nat) (text : str) : option (list str) :=
  option_map (_apply_overlap self)
    (if len text <=? chunk_size self then Some (stripped_or_nothing text)
     else merge_separators fuel (separators self) text).

(** No piece of the split at the first separator found is longer than
    [chunk_size]: the loop over the hierarchy returns without recursing. *)
Fixpoint nothing_recursed (separators : list str) (text : str) : bool :=
  match separators with
  | [] => true
  | separator :: rest =>
      if negb (truthy separator) then true
      else if contains separator text
           then forallb (fun piece => len piece <=? chunk_size self)
                        (split separator text)
           else nothing_recursed rest text
  end.

End MergeFirst.

(** Follows the words of the specification: the chunk is prefixed only
    if the prefixed result, overlap text plus space plus chunk, does not
    exceed [chunk_size]. *)
Definition stitch_counting_space (self : RecursiveCharacterTextSplitter)
    (prev_chunk curr_chunk : str) : str :=
  if len (overlap_text self prev_chunk) + 1 + len curr_chunk <=? chunk_size self
  then overlap_text self prev_chunk ++ [SP] ++ curr_chunk
  else curr_chunk.

Definition head_is (x : N) (s : str) : bool :=
  match s with c :: _ => (x =? c)%N | [] => false end.

Definition views_of (o : outcome (list Document * World))
  : outcome (list (str * str * Z * Z * option Z * gmap str value)) :=
  map document_view <$> documents_of o.

(** The documents hold the next values of [uuid.uuid4()] and of
    [datetime.now()] of [w], one of each per document and in order, and
    [w'] is [w] after these calls. *)
Definition fresh_values_drawn (w : World) (documents : list Document) (w' : World)
  : Prop :=
  map id documents
  = map (uuid4_values w) (seq (uuid4_calls w) (length documents))
  /\ map (fun d => created_at (metadata d)) documents
     = map (now_values w) (seq (now_calls w) (length documents))
  /\ uuid4_values w' = uuid4_values w
  /\ now_values w' = now_values w
  /\ uuid4_calls w' = (uuid4_calls w + length documents)%nat
  /\ now_calls w' = (now_calls w + length documents)%nat.

(** A world whose [uuid.uuid4()] never returns a value twice. *)
Definition world_c : World :=
  {| uuid4_values := fun n => py "doc-" ++ [N.of_nat n];
     now_values := fun n => 3000 + Z.of_nat n;
     uuid4_calls := 0; now_calls := 0 |}.

(** The [extra_metadata] argument of a call. *)
Definition call_extra_metadata (call : ingestion_call) : option (gmap str value) :=
  match call with
  | IngestText _ _ extra_metadata => extra_metadata
  | IngestPdf _ extra_metadata => extra_metadata
  end.

(** The chunks of one page of a PDF: none for a page without text, else
    those of the cleaned page text. *)
Definition chunks_of_page (self : IngestionPipeline) (fuel : nat) (page : option str)
  : list str :=
  if truthy (strip (default [] page))
  then default [] (split_text (splitter self) fuel (_clean_text (default [] page)))
  else [].

(** No character of [run] occurs in a separator of the hierarchy. *)
Definition separator_free (seps : list str) (run : str) : Prop :=
  forall sep c, In sep seps -> In c run -> ~ In c sep.

(** [separator_free], as a test. *)
Definition separator_freeb (seps : list str) (run : str) : bool :=
  forallb (fun sep => forallb (fun c => negb (existsb (N.eqb c) sep)) run) seps.

(** The texts that a call cleans and splits: the text given, or what
    [page.extract_text() or ""] is for every page. *)
Definition call_texts (call : ingestion_call) : list str :=
  match call with
  | IngestText text _ _ => [text]
  | IngestPdf file _ => map (default []) (pdf_pages file)
  end.

(** The longest chunk that merging and stitching can produce:
    [chunk_size], and one more character, the joining space, when there
    is overlap. *)
Definition stitched_bound (self : RecursiveCharacterTextSplitter) : Z :=
  chunk_size self + (if chunk_overlap self <=? 0 then 0 else 1).

(** A call that keeps the world when it raises ends as the call that
    drops it. *)
Definition agrees {A} (r : completion A) (o : outcome (A * World)) : Prop :=
  match r, o with
  | Done a w, Returns (a', w') => a = a' /\ w = w'
  | Failed (Invalid e) _, Raises e' => e = e'
  | Hangs, Diverges => True
  | _, _ => False
  end.


(** The metadata that [ingest_directory] passes to [ingest_file]. *)
Definition directory_metadata (dir : Directory)
    (extra_metadata : option (gmap str value)) : option (gmap str value) :=
  Some (dict_update {[ py "directory" := VStr (dir_str dir) ]}
          (dict_or_empty extra_metadata)).


Definition notes_txt : File :=
  {| file_name := py "notes.txt"; file_suffix := py ".txt";
     file_exists := true; file_is_file := true; file_size := 9;
     file_utf8 := Some (py "aaaa bbbb"); file_latin1 := py "aaaa bbbb";
     file_pages := [] |}.

Definition broken_md : File :=
  {| file_name := py "broken.md"; file_suffix := py ".md";
     file_exists := true; file_is_file := true; file_size := 21;
     file_utf8 := Some (py "aaaaaaaa" ++ [LF; LF; SP; LF; LF] ++ py "bbbbbbbb");
     file_latin1 := py "aaaaaaaa" ++ [LF; LF; SP; LF; LF] ++ py "bbbbbbbb";
     file_pages := [] |}.

Definition image_png : File :=
  {| file_name := py "image.png"; file_suffix := py ".png";
     file_exists := true; file_is_file := true; file_size := 512;
     file_utf8 := None; file_latin1 := []; file_pages := [] |}.

Definition scan_pdf : File :=
  {| file_name := py "SCAN.PDF"; file_suffix := py ".PDF";
     file_exists := true; file_is_file := true; file_size := 2048;
     file_utf8 := None; file_latin1 := [];
     file_pages := [Some (py "aaaaaa"); None; Some (py "bb")] |}.

Definition docs_dir : Directory :=
  {| dir_str := py "docs"; dir_exists := true; dir_is_dir := true;
     dir_glob := fun pattern =>
       match pattern with
       | [] => inl ValueError
       | _ => inr [notes_txt; broken_md; image_png; scan_pdf]
       end;
     dir_rglob := fun pattern =>
       match pattern with
       | [] => inl ValueError
       | _ => inr [notes_txt; broken_md; image_png; scan_pdf]
       end |}.

Definition sample_document : Document :=
  {| id := py "1b4e28ba"; content := py "text";
     metadata := {| source := py "notes.txt"; chunk_index := 0;
                    total_chunks := 1; created_at := 1000;
                    page_number := None;
                    extra := {[ py "lang" := VStr (py "en") ]} |} |}.

Ltac key_ne := let H := fresh in intros H; vm_compute in H; discriminate H.

(** * Properties *)

(** ** Facts about the string primitives *)

Lemma len_nonneg {A} (l : list A) : 0 <= len l.
Proof. unfold len. lia. Qed.

Lemma len_app {A} (l1 l2 : list A) : len (l1 ++ l2) = len l1 + len l2.
Proof. unfold len. rewrite length_app. lia. Qed.

Lemma truthy_false (s : str) : truthy s = false <-> s = [].
Proof. destruct s; simpl; split; congruence. Qed.

Lemma truthy_true (s : str) : truthy s = true <-> s <> [].
Proof. destruct s; simpl; split; congruence. Qed.

Lemma lstrip_decomp (s : str) : exists l, s = l ++ lstrip s /\ blank l.
Proof.
  induction s as [|c s IH]; simpl.
  - exists []. split; [reflexivity | constructor].
  - destruct (is_space c) eqn:Hc.
    + destruct IH as (l & Hl & Hb). exists (c :: l). split.
      * simpl. congruence.
      * constructor; assumption.
    + exists []. split; [reflexivity | constructor].
Qed.

Lemma rstrip_decomp (s : str) : exists r, s = rstrip s ++ r /\ blank r.
Proof.
  induction s as [|c s IH]; simpl.
  - exists []. split; [reflexivity | constructor].
  - destruct IH as (r & Hr & Hb). destruct (rstrip s) as [|d t] eqn:Hs.
    + simpl in Hr. subst r. destruct (is_space c) eqn:Hc.
      * exists (c :: s). split; [reflexivity | constructor; assumption].
      * exists s. split; [reflexivity | assumption].
    + exists r. split; [|assumption]. simpl. f_equal. exact Hr.
Qed.

Lemma strip_decomp (s : str) :
  exists l r, s = l ++ strip s ++ r /\ blank l /\ blank r.
Proof.
  destruct (lstrip_decomp s) as (l & Hl & Hbl).
  destruct (rstrip_decomp (lstrip s)) as (r & Hr & Hbr).
  exists l, r. unfold strip. split; [|split; assumption].
  rewrite <- Hr. exact Hl.
Qed.

Lemma strip_length (s : str) : (length (strip s) <= length s)%nat.
Proof.
  destruct (strip_decomp s) as (l & r & H & _).
  rewrite H at 2. rewrite !length_app. lia.
Qed.

Lemma len_strip (s : str) : len (strip s) <= len s.
Proof. unfold len. pose proof (strip_length s). lia. Qed.

Lemma strip_nil_blank (s : str) : strip s = [] -> blank s.
Proof.
  intros H. destruct (strip_decomp s) as (l & r & Hs & Hl & Hr).
  rewrite H in Hs. simpl in Hs. subst s. apply Forall_app. split; assumption.
Qed.

Lemma starts_with_app (pat s : str) :
  starts_with pat s = true -> s = pat ++ drop (length pat) s.
Proof.
  revert s. induction pat as [|p pat IH]; intros s H; simpl in *.
  - reflexivity.
  - destruct s as [|c s]; [discriminate|].
    apply andb_prop in H as [Hpc Hrest].
    apply N.eqb_eq in Hpc. subst c. simpl. f_equal. apply IH. exact Hrest.
Qed.

Lemma split_from_not_nil (sep : str) (k : nat) (s : str) :
  split_from sep k s <> [].
Proof.
  revert k. induction s as [|c s IH]; intros k; simpl; [discriminate|].
  destruct k; [|apply IH].
  destruct (starts_with sep (c :: s)); [discriminate|].
  destruct (split_from sep 0 s); discriminate.
Qed.

(** Splitting is lossless: the pieces joined by the separator give the
    text back. *)
Lemma join_split_from (sep : str) :
  sep <> [] -> forall s k, join sep (split_from sep k s) = drop k s.
Proof.
  intros Hsep. induction s as [|c s IH]; intros k.
  - simpl. destruct k; reflexivity.
  - destruct k as [|k]; simpl split_from.
    + destruct (starts_with sep (c :: s)) eqn:Hst.
      * apply starts_with_app in Hst.
        destruct sep as [|p sep']; [congruence|].
        simpl in Hst. injection Hst as Hp Hs.
        replace (length (p :: sep') - 1)%nat with (length sep') by (simpl; lia).
        assert (Hj : forall X, join (p :: sep') ([] :: X) =
                  match X with [] => [] | _ => (p :: sep') ++ join (p :: sep') X end).
        { intros X. destruct X; reflexivity. }
        rewrite Hj.
        destruct (split_from (p :: sep') (length sep') s) eqn:Hsp.
        -- exfalso. exact (split_from_not_nil _ _ _ Hsp).
        -- rewrite <- Hsp, IH. simpl drop. subst c. simpl. f_equal. symmetry. exact Hs.
      * specialize (IH 0%nat). rewrite drop_0 in IH.
        destruct (split_from sep 0 s) as [|q qs] eqn:Hsp.
        -- exfalso. exact (split_from_not_nil _ _ _ Hsp).
        -- rewrite <- IH. destruct qs; reflexivity.
    + simpl drop. apply IH.
Qed.

Lemma join_split (sep s : str) : sep <> [] -> join sep (split sep s) = s.
Proof. intros H. unfold split. rewrite join_split_from by assumption. reflexivity. Qed.

Lemma join_piece_length (sep : str) (pieces : list str) (p : str) :
  In p pieces -> (length p <= length (join sep pieces))%nat.
Proof.
  induction pieces as [|q qs IH]; intros Hin; [contradiction|].
  destruct Hin as [->|Hin].
  - destruct qs; simpl; [lia|]. rewrite !length_app. lia.
  - specialize (IH Hin). destruct qs as [|q' qs']; [contradiction|].
    change (join sep (q :: q' :: qs')) with (q ++ sep ++ join sep (q' :: qs')).
    rewrite !length_app. lia.
Qed.

Lemma split_piece_length (sep s p : str) :
  sep <> [] -> In p (split sep s) -> (length p <= length s)%nat.
Proof.
  intros Hsep Hin. pose proof (join_piece_length sep _ _ Hin) as H.
  rewrite join_split in H; assumption.
Qed.

(** ** The character windows of [_split_by_character] *)

Lemma ceil_div_step (a b : Z) : 0 < b -> ceil_div a b = ceil_div (a - b) b + 1.
Proof.
  intros Hb. unfold ceil_div.
  replace (a + b - 1) with (a - b + b - 1 + 1 * b) by lia.
  apply Z.div_add. lia.
Qed.

Lemma ceil_div_nonpos (a b : Z) : 0 < b -> a <= 0 -> ceil_div a b <= 0.
Proof.
  intros Hb Ha. unfold ceil_div.
  assert ((a + b - 1) / b < 1); [|lia].
  apply Z.div_lt_upper_bound; lia.
Qed.

Lemma ceil_div_small (a b : Z) : 0 < b -> - b < a <= 0 -> ceil_div a b = 0.
Proof. intros Hb Ha. unfold ceil_div. apply Z.div_small. lia. Qed.

Lemma ceil_div_nonneg (a b : Z) : 0 < b -> 0 <= a -> 0 <= ceil_div a b.
Proof. intros Hb Ha. unfold ceil_div. apply Z.div_pos; lia. Qed.

(** With a positive overlap the window start never reaches the end of a
    non-empty text: [start = end - chunk_overlap < len(text)] after every
    iteration, so the loop test stays true. *)
Lemma window_loop_stuck (self : RecursiveCharacterTextSplitter) (text : str) :
  0 < chunk_overlap self ->
  forall fuel st, start st < len text -> window_loop self fuel text st = None.
Proof.
  intros Hco. induction fuel as [|fuel IH]; intros st Hst; simpl;
    unfold window_continues; destruct (Z.ltb_spec (start st) (len text)); try lia.
  - reflexivity.
  - apply IH. simpl. lia.
Qed.

Lemma split_by_character_diverges (self : RecursiveCharacterTextSplitter)
    (text : str) (fuel : nat) :
  0 < chunk_overlap self -> text <> [] ->
  _split_by_character self fuel text = None.
Proof.
  intros Hco Ht. unfold _split_by_character.
  rewrite window_loop_stuck; [reflexivity | assumption |].
  simpl. destruct text; [congruence|]. unfold len. simpl. lia.
Qed.

(** Without overlap the loop exits after exactly
    [ceil((len(text) - start) / chunk_size)] iterations. *)
Lemma window_loop_no_overlap (self : RecursiveCharacterTextSplitter) (text : str) :
  chunk_overlap self = 0 -> 0 < chunk_size self ->
  forall fuel st, 0 <= start st ->
    (is_Some (window_loop self fuel text st) <->
     (Z.to_nat (ceil_div (len text - start st) (chunk_size self)) <= fuel)%nat).
Proof.
  intros Hco Hcs. induction fuel as [|fuel IH]; intros st Hst; simpl;
    unfold window_continues; destruct (Z.ltb_spec (start st) (len text)) as [Hlt|Hge].
  - pose proof (ceil_div_step (len text - start st) _ Hcs).
    pose proof (ceil_div_nonneg (len text - start st - chunk_size self + chunk_size self - 1 + 1)
                  _ Hcs ltac:(lia)).
    split; [intros [x Hx]; discriminate|].
    intros Hle. exfalso.
    assert (0 <= ceil_div (len text - start st - chunk_size self) (chunk_size self)
            \/ ceil_div (len text - start st - chunk_size self) (chunk_size self) = 0).
    { destruct (Z.le_gt_cases (chunk_size self) (len text - start st)).
      - left. apply ceil_div_nonneg; lia.
      - right. apply ceil_div_small; lia. }
    lia.
  - pose proof (ceil_div_nonpos (len text - start st) _ Hcs ltac:(lia)).
    split; [lia | eauto].
  - rewrite IH by (simpl; lia). simpl. rewrite Hco.
    rewrite (ceil_div_step (len text - start st) _ Hcs).
    destruct (Z.le_gt_cases (start st + chunk_size self) (len text)) as [Hfit|Hclip].
    + rewrite Z.min_l by lia.
      replace (len text - (start st + chunk_size self - 0))
        with (len text - start st - chunk_size self) by lia.
      pose proof (ceil_div_nonneg (len text - start st - chunk_size self) _ Hcs ltac:(lia)).
      lia.
    + rewrite Z.min_r by lia.
      replace (len text - (len text - 0)) with 0 by lia.
      rewrite (ceil_div_small 0) by lia.
      rewrite (ceil_div_small (len text - start st - chunk_size self)) by lia.
      simpl. lia.
  - pose proof (ceil_div_nonpos (len text - start st) _ Hcs ltac:(lia)).
    split; [lia | eauto].
Qed.

(** The terminating case of [_split_by_character]: with no overlap it
    returns after exactly [ceil(len(text) / chunk_size)] window steps. *)
Lemma split_by_character_steps_no_overlap
    (self : RecursiveCharacterTextSplitter) (text : str) (fuel : nat) :
  chunk_overlap self = 0 -> 0 < chunk_size self ->
  is_Some (_split_by_character self fuel text) <->
  (Z.to_nat (ceil_div (len text) (chunk_size self)) <= fuel)%nat.
Proof.
  intros Hco Hcs. unfold _split_by_character.
  pose proof (window_loop_no_overlap self text Hco Hcs fuel
                {| start := 0; chunks := [] |} ltac:(simpl; lia)) as H.
  simpl in H. rewrite Z.sub_0_r in H. rewrite <- H.
  destruct (window_loop self fuel text _); split; intros [x Hx]; try discriminate; eauto.
Qed.

(** C2.  [_split_by_character] on the ten characters ["aaaaaaaaaa"] with
    [chunk_size = 5] and [chunk_overlap = 2]: the claim promises
    termination in [ceil(10 / 3) = 4] window steps, but the loop never
    exits, whatever number of iterations it is given.  After the window
    is clipped at the end of the text, [start = 10 - 2 = 8] again and
    again.  [split_text] reaches this loop on the same text, which
    contains no separator of the default hierarchy. *)
Theorem split_by_character_never_exits :
  ceil_div 10 (5 - 2) = 4
  /\ (forall fuel,
        _split_by_character (mk 5 2 DEFAULT_SEPARATORS) fuel (py "aaaaaaaaaa") = None)
  /\ (forall fuel,
        split_text (mk 5 2 DEFAULT_SEPARATORS) fuel (py "aaaaaaaaaa") = None).
Proof.
  split; [reflexivity|].
  assert (H : forall fuel,
             _split_by_character (mk 5 2 DEFAULT_SEPARATORS) fuel (py "aaaaaaaaaa") = None).
  { intros fuel. apply split_by_character_diverges; [simpl; lia | discriminate]. }
  split; [exact H|].
  intros fuel.
  change (split_text (mk 5 2 DEFAULT_SEPARATORS) fuel (py "aaaaaaaaaa"))
    with (_split_by_character (mk 5 2 DEFAULT_SEPARATORS) fuel (py "aaaaaaaaaa")).
  apply H.
Qed.

(** ** The overlap stitcher *)

(** The test of [stitch] and the test that counts the space decide alike
    except when the overlap text and the chunk fill [chunk_size] exactly. *)
Lemma stitch_differs_only_at_the_bound (self : RecursiveCharacterTextSplitter)
    (prev_chunk curr_chunk : str) :
  len (overlap_text self prev_chunk) + len curr_chunk <> chunk_size self ->
  stitch self prev_chunk curr_chunk = stitch_counting_space self prev_chunk curr_chunk.
Proof.
  intros H. unfold stitch, stitch_counting_space.
  destruct (Z.leb_spec (len (overlap_text self prev_chunk) + len curr_chunk)
              (chunk_size self));
    destruct (Z.leb_spec (len (overlap_text self prev_chunk) + 1 + len curr_chunk)
                (chunk_size self)); try reflexivity; lia.
Qed.

(** C5.  [_apply_overlap] on [["aaaa"; "bbbb"]] with [chunk_size = 7] and
    [chunk_overlap = 3]: the test adds the lengths of the overlap text and
    of the chunk (3 + 4 <= 7) and leaves the joining space out, so the
    chunk is prefixed although the prefixed result has 8 characters; the
    claim leaves the chunk unmodified there. *)
Theorem apply_overlap_ignores_the_space :
  _apply_overlap (mk 7 3 DEFAULT_SEPARATORS) [py "aaaa"; py "bbbb"]
    = [py "aaaa"; py "aaa bbbb"]
  /\ len (py "aaa bbbb") = 8
  /\ chunk_size (mk 7 3 DEFAULT_SEPARATORS) = 7
  /\ stitch_counting_space (mk 7 3 DEFAULT_SEPARATORS) (py "aaaa") (py "bbbb")
     = py "bbbb".
Proof. repeat split. Qed.

(** ** Construction *)



(** ** The size bound of [split_text] *)

Lemma substring_refl (s : str) : substring s s.
Proof. exists [], []. simpl. rewrite app_nil_r. reflexivity. Qed.

Lemma substring_trans (a b c : str) :
  substring a b -> substring b c -> substring a c.
Proof.
  intros (l1 & r1 & ->) (l2 & r2 & ->).
  exists (l2 ++ l1), (r1 ++ r2). rewrite <- !app_assoc. reflexivity.
Qed.

Lemma join_piece_substring (sep : str) (pieces : list str) (p : str) :
  In p pieces -> substring p (join sep pieces).
Proof.
  induction pieces as [|q qs IH]; intros Hin; [contradiction|].
  destruct Hin as [->|Hin].
  - destruct qs; simpl.
    + apply substring_refl.
    + exists [], (sep ++ join sep (s :: qs)). reflexivity.
  - destruct (IH Hin) as (l & r & Hj).
    destruct qs as [|q' qs']; [contradiction|].
    change (join sep (q :: q' :: qs')) with (q ++ sep ++ join sep (q' :: qs')).
    rewrite Hj. exists (q ++ sep ++ l), r. rewrite <- !app_assoc. reflexivity.
Qed.

Lemma split_piece_substring (sep s p : str) :
  sep <> [] -> In p (split sep s) -> substring p s.
Proof.
  intros Hsep Hin. pose proof (join_piece_substring sep _ _ Hin) as H.
  rewrite join_split in H; assumption.
Qed.

Lemma apply_overlap_no_overlap (self : RecursiveCharacterTextSplitter)
    (chunks : list str) :
  chunk_overlap self <= 0 -> _apply_overlap self chunks = chunks.
Proof.
  intros H. unfold _apply_overlap.
  destruct (Z.leb_spec (chunk_overlap self) 0); [|lia].
  rewrite orb_true_r. reflexivity.
Qed.

Lemma slice_length (s : str) (lo hi : Z) :
  0 <= lo -> 0 <= hi -> len (slice s lo hi) <= Z.max 0 (hi - lo).
Proof.
  intros Hlo Hhi. unfold slice, len, clamp_index.
  rewrite length_take, length_drop.
  destruct (Z.ltb_spec lo 0); [lia|].
  destruct (Z.ltb_spec hi 0); lia.
Qed.

Lemma stripped_or_nothing_Forall (P : str -> Prop) (text : str) :
  P (strip text) -> Forall P (stripped_or_nothing text).
Proof.
  intros H. unfold stripped_or_nothing.
  destruct (truthy (strip text)); repeat constructor. exact H.
Qed.

Lemma starts_with_app_r (pat s r : str) :
  starts_with pat s = true -> starts_with pat (s ++ r) = true.
Proof.
  revert s. induction pat as [|p pat IH]; intros s H; [reflexivity|].
  destruct s as [|c s]; [discriminate|]. simpl in *.
  apply andb_prop in H as [H1 H2]. rewrite H1. simpl. apply IH. exact H2.
Qed.

Lemma contains_cons (pat : str) (c : N) (s : str) :
  contains pat s = true -> contains pat (c :: s) = true.
Proof. intros H. simpl. rewrite H. apply orb_true_r. Qed.

Lemma contains_app_l (pat l s : str) :
  contains pat s = true -> contains pat (l ++ s) = true.
Proof.
  intros H. induction l as [|c l IH]; [exact H|].
  simpl app. apply contains_cons. exact IH.
Qed.

Lemma contains_app_r (pat s r : str) :
  contains pat s = true -> contains pat (s ++ r) = true.
Proof.
  induction s as [|c s IH]; simpl; intros H.
  - rewrite orb_false_r in H. destruct pat; [|discriminate].
    destruct r; reflexivity.
  - apply orb_prop in H as [H|H].
    + change (c :: s ++ r) with ((c :: s) ++ r).
      rewrite (starts_with_app_r _ _ r H). reflexivity.
    + rewrite (IH H). apply orb_true_r.
Qed.

Lemma not_contains_substring (pat a b : str) :
  substring a b -> contains pat b = false -> contains pat a = false.
Proof.
  intros (l & r & ->) H. destruct (contains pat a) eqn:Ha; [|reflexivity].
  rewrite (contains_app_l pat l _ (contains_app_r pat a r Ha)) in H. discriminate H.
Qed.

(** The first piece of a split is a prefix of the string. *)
Lemma split_from_head_prefix (sep s : str) :
  exists p ps r, split_from sep 0 s = p :: ps /\ s = p ++ r.
Proof.
  induction s as [|c s IH]; simpl.
  - exists [], [], []. auto.
  - destruct (starts_with sep (c :: s)).
    + exists [], (split_from sep (length sep - 1) s), (c :: s). auto.
    + destruct IH as (p & ps & r & -> & Hs).
      exists (c :: p), ps, r. rewrite Hs at 1. auto.
Qed.

(** The separator does not occur in a piece of the split. *)
Lemma split_from_free (sep : str) :
  sep <> [] ->
  forall s k piece, In piece (split_from sep k s) -> contains sep piece = false.
Proof.
  intros Hsep.
  assert (Hnil : contains sep [] = false).
  { destruct sep; [congruence | reflexivity]. }
  induction s as [|c s IH]; intros k piece; simpl.
  - intros [<-|[]]. exact Hnil.
  - destruct k as [|k]; [|apply IH].
    destruct (starts_with sep (c :: s)) eqn:Hstart.
    + intros [<-|Hin]; [exact Hnil | eapply IH; exact Hin].
    + destruct (split_from_head_prefix sep s) as (p & ps & r & Heq & Hs).
      rewrite Heq. intros [<-|Hin].
      * simpl. rewrite (IH 0%nat p) by (rewrite Heq; left; reflexivity).
        rewrite orb_false_r.
        destruct (starts_with sep (c :: p)) eqn:Hp; [|reflexivity].
        apply (starts_with_app_r _ _ r) in Hp. simpl app in Hp.
        rewrite <- Hs in Hp. congruence.
      * apply (IH 0%nat). rewrite Heq. right. exact Hin.
Qed.

Lemma split_piece_free (sep s piece : str) :
  sep <> [] -> In piece (split sep s) -> contains sep piece = false.
Proof. intros Hsep. apply split_from_free. exact Hsep. Qed.

Section Bound.

Variable self : RecursiveCharacterTextSplitter.
Hypothesis no_overlap : chunk_overlap self = 0.
Hypothesis size_pos : 0 < chunk_size self.

Lemma window_loop_bounded (text : str) (fuel : nat) :
  forall st st',
    0 <= start st ->
    Forall (fun c => len c <= chunk_size self) (chunks st) ->
    window_loop self fuel text st = Some st' ->
    Forall (fun c => len c <= chunk_size self) (chunks st').
Proof using no_overlap size_pos.
  induction fuel as [|fuel IH]; intros st st' Hst Hall; simpl;
    unfold window_continues; destruct (Z.ltb_spec (start st) (len text)) as [Hlt|Hge];
    try discriminate; try (intros [= <-]; exact Hall).
  apply IH.
  - simpl. lia.
  - simpl. apply Forall_app. split; [exact Hall|]. repeat constructor.
    pose proof (slice_length text (start st)
                  (Z.min (start st + chunk_size self) (len text)) Hst ltac:(lia)) as Hw.
    set (window := slice text _ _) in *. clearbody window.
    pose proof (len_strip window). lia.
Qed.

Lemma ceil_div_le_length (text : str) :
  (Z.to_nat (ceil_div (len text) (chunk_size self)) <= length text)%nat.
Proof using size_pos.
  destruct text as [|c text].
  - rewrite (ceil_div_small (len [])) by (unfold len; simpl; lia). simpl. lia.
  - assert (ceil_div (len (c :: text)) (chunk_size self) <= len (c :: text)); [|unfold len in *; lia].
    unfold ceil_div. apply Z.div_le_upper_bound; [lia|].
    unfold len. simpl length. nia.
Qed.

Lemma split_by_character_bounded (text : str) (fuel : nat) :
  (length text <= fuel)%nat ->
  exists chunks, _split_by_character self fuel text = Some chunks /\
                 Forall (fun c => len c <= chunk_size self) chunks.
Proof using no_overlap size_pos.
  intros Hfuel.
  pose proof (ceil_div_le_length text) as Hneed.
  destruct (proj2 (split_by_character_steps_no_overlap self text fuel no_overlap size_pos)
              ltac:(lia)) as [chunks Hchunks].
  exists chunks. split; [exact Hchunks|].
  unfold _split_by_character in Hchunks.
  destruct (window_loop self fuel text _) as [st'|] eqn:Hloop; [|discriminate].
  injection Hchunks as <-.
  assert (Hall : Forall (fun c => len c <= chunk_size self) (chunks st')).
  { eapply window_loop_bounded; [| |exact Hloop]; simpl; [lia|constructor]. }
  rewrite List.Forall_forall in *. intros c Hc.
  apply List.filter_In in Hc as [Hc _]. auto.
Qed.

(** The merge loop keeps the buffer within [chunk_size] and only emits
    stripped buffers and recursive results. *)
Lemma merge_splits_bounded (P : str -> Prop) (recurse : str -> option (list str))
    (separator : str) :
  (forall s, len s <= chunk_size self -> P (strip s)) ->
  forall splits chunks current_chunk,
    (forall split, In split splits ->
       exists sub, recurse split = Some sub /\ Forall P sub) ->
    Forall P chunks -> len current_chunk <= chunk_size self ->
    exists chunks' current',
      merge_splits self recurse separator splits chunks current_chunk
        = Some (chunks', current')
      /\ Forall P chunks' /\ len current' <= chunk_size self.
Proof using size_pos.
  intros HP. induction splits as [|split splits IH];
    intros chunks current_chunk Hrec Hall Hcur; simpl.
  - eauto.
  - assert (Hrec' : forall s, In s splits -> exists sub, recurse s = Some sub /\ Forall P sub).
    { intros s Hs. apply Hrec. right. exact Hs. }
    destruct (Z.leb_spec (len (current_chunk ++
                (if truthy current_chunk then separator else []) ++ split))
                (chunk_size self)) as [Hfit|Hbig].
    + apply IH; assumption.
    + assert (Hall1 : Forall P (if truthy current_chunk
                                then chunks ++ [strip current_chunk] else chunks)).
      { destruct (truthy current_chunk); [|exact Hall].
        apply Forall_app. split; [exact Hall|]. repeat constructor. apply HP. exact Hcur. }
      destruct (Z.gtb_spec (len split) (chunk_size self)) as [Hlong|Hshort].
      * destruct (Hrec split ltac:(left; reflexivity)) as (sub & Hsub & Hsubok).
        rewrite Hsub. apply IH; [assumption| |unfold len; simpl; lia].
        apply Forall_app. split; assumption.
      * apply IH; [assumption|assumption|lia].
Qed.

Lemma split_on_bounded (P : str -> Prop) (recurse : str -> option (list str))
    (separator text : str) :
  (forall s, len s <= chunk_size self -> P (strip s)) ->
  (forall piece, In piece (split separator text) ->
     exists sub, recurse piece = Some sub /\ Forall P sub) ->
  exists chunks, split_on self recurse separator text = Some chunks /\ Forall P chunks.
Proof using no_overlap size_pos.
  intros HP Hrec. unfold split_on.
  destruct (merge_splits_bounded P recurse separator HP _ [] [] Hrec
              ltac:(constructor) ltac:(unfold len; simpl; lia))
    as (chunks' & current' & -> & Hall & Hcur).
  eexists. split; [reflexivity|].
  rewrite apply_overlap_no_overlap by lia.
  destruct (truthy (strip current')); [|exact Hall].
  apply Forall_app. split; [exact Hall|]. repeat constructor. apply HP. exact Hcur.
Qed.

Lemma strip_ok (text0 s : str) : len s <= chunk_size self -> chunk_ok self text0 (strip s).
Proof. intros H. left. pose proof (len_strip s). lia. Qed.

(** No separator passed on the way to [text], skipped because it does
    not occur or used to split an enclosing fragment, occurs in [text]. *)
Lemma try_separators_bounded (fuel : nat) (text0 : str) :
  forall seps passed text,
    separators self = passed ++ seps ->
    (forall sep, In sep passed -> sep <> [] /\ contains sep text = false) ->
    substring text text0 ->
    chunk_size self < len text ->
    (length text <= fuel)%nat ->
    exists chunks, try_separators self fuel seps text = Some chunks /\
                   Forall (chunk_ok self text0) chunks.
Proof using no_overlap size_pos.
  induction seps as [|sep rest IH]; intros passed text Hseps Hpassed Hsub Hlong Hfuel; simpl.
  - eexists. split; [reflexivity|]. apply stripped_or_nothing_Forall.
    rewrite app_nil_r in Hseps. right. split.
    + rewrite Hseps. intros Hin. exact (proj1 (Hpassed [] Hin) eq_refl).
    + exists text. split; [exact Hsub|]. split; [exact Hlong|]. split; [|reflexivity].
      rewrite Hseps. intros sep Hsep. apply Hpassed. exact Hsep.
  - destruct (truthy sep) eqn:Hsep; simpl.
    + apply truthy_true in Hsep.
      assert (Hseps' : separators self = (passed ++ [sep]) ++ rest)
        by (rewrite Hseps, <- app_assoc; reflexivity).
      destruct (contains sep text) eqn:Hin.
      * apply split_on_bounded; [apply strip_ok|].
        intros piece Hpiece.
        destruct (Z.leb_spec (len piece) (chunk_size self)) as [Hfit|Hbig].
        -- eexists. split; [reflexivity|].
           apply stripped_or_nothing_Forall, strip_ok. exact Hfit.
        -- pose proof (split_piece_substring sep text piece Hsep Hpiece) as Hps.
           apply (IH (passed ++ [sep])); [exact Hseps' | | | exact Hbig |].
           ++ intros s Hs. apply in_app_or in Hs as [Hs|[<-|[]]].
              ** destruct (Hpassed s Hs) as [Hne Hno]. split; [exact Hne|].
                 eapply not_contains_substring; eassumption.
              ** split; [exact Hsep|]. apply (split_piece_free sep text); assumption.
           ++ eapply substring_trans; eassumption.
           ++ pose proof (split_piece_length sep text piece Hsep Hpiece). lia.
      * apply (IH (passed ++ [sep])); try assumption.
        intros s Hs. apply in_app_or in Hs as [Hs|[<-|[]]]; auto.
    + destruct (split_by_character_bounded text fuel Hfuel) as (chunks & -> & Hall).
      eexists. split; [reflexivity|].
      eapply Forall_impl; [exact Hall|]. intros c Hc. left. exact Hc.
Qed.

Lemma split_text_bounded (fuel : nat) (text : str) :
  (length text <= fuel)%nat ->
  exists chunks, split_text self fuel text = Some chunks /\
                 Forall (chunk_ok self text) chunks.
Proof using no_overlap size_pos.
  intros Hfuel. unfold split_text, _split_text_recursive.
  destruct (Z.leb_spec (len text) (chunk_size self)) as [Hfit|Hbig].
  - eexists. split; [reflexivity|].
    apply stripped_or_nothing_Forall, strip_ok. exact Hfit.
  - apply (try_separators_bounded fuel text (separators self) []);
      auto using substring_refl.
    intros sep [].
Qed.

End Bound.

(** C1, as stated, fails: with the hierarchy [[" "]], [chunk_size = 5] and
    no overlap, the text ["aaaaaaaa b"] contains the separator, and yet the
    chunk ["aaaaaaaa"] of 8 characters is returned: the hierarchy is
    exhausted on the fragment, not on the text. *)
Lemma split_text_oversized_fragment :
  split_text (mk 5 0 [py " "]) 10 (py "aaaaaaaa b")
    = Some [py "aaaaaaaa"; py "b"]
  /\ contains (py " ") (py "aaaaaaaa b") = true
  /\ len (py "aaaaaaaa") = 8.
Proof. repeat split. Qed.

(** C1, amended.  With [chunk_overlap = 0 < chunk_size], [split_text]
    returns, and every chunk has at most [chunk_size] characters unless the
    hierarchy is exhausted without fallback on a piece of the text: the
    hierarchy has no empty-string marker, and the chunk is the stripped
    form of a fragment of the text (the text itself, or a fragment reached
    by recursion) that is longer than [chunk_size] and in which no
    separator of the hierarchy occurs.  In particular, a hierarchy with
    the empty-string marker keeps every chunk within [chunk_size]. *)
Theorem split_text_bound_without_overlap
    (self : RecursiveCharacterTextSplitter) (text : str) (fuel : nat) :
  chunk_overlap self = 0 -> 0 < chunk_size self -> (length text <= fuel)%nat ->
  exists chunks,
    split_text self fuel text = Some chunks
    /\ Forall (fun c => len c <= chunk_size self
                        \/ hierarchy_exhausted (separators self) (chunk_size self)
                             text c) chunks
    /\ (In [] (separators self) ->
        Forall (fun c => len c <= chunk_size self) chunks).
Proof.
  intros Hco Hcs Hfuel.
  destruct (split_text_bounded self Hco Hcs fuel text Hfuel) as (chunks & Hres & Hall).
  exists chunks. split; [exact Hres|]. split; [exact Hall|].
  intros Hmarker. eapply Forall_impl; [exact Hall|].
  intros c [Hc|[Hno _]]; [exact Hc | contradiction].
Qed.

Lemma split_text_bound_without_overlap_witness :
  chunk_overlap (mk 5 0 DEFAULT_SEPARATORS) = 0
  /\ 0 < chunk_size (mk 5 0 DEFAULT_SEPARATORS)
  /\ (length (py "aaaa bbbb cccccc") <= 16)%nat
  /\ exists chunks,
       split_text (mk 5 0 DEFAULT_SEPARATORS) 16 (py "aaaa bbbb cccccc") = Some chunks
       /\ Forall (fun c => len c <= 5
                           \/ hierarchy_exhausted DEFAULT_SEPARATORS 5
                                (py "aaaa bbbb cccccc") c) chunks
       /\ (In [] DEFAULT_SEPARATORS -> Forall (fun c => len c <= 5) chunks).
Proof.
  split; [reflexivity|]. split; [reflexivity|]. split; [simpl; lia|].
  apply (split_text_bound_without_overlap (mk 5 0 DEFAULT_SEPARATORS));
    [reflexivity | reflexivity | simpl; lia].
Defined.

(** ** Where the chunks lie in the text *)

Section Interleaved.

Variable ok : str -> Prop.
Hypothesis ok_nothing : ok [].
Hypothesis ok_app : forall a b, ok a -> ok b -> ok (a ++ b).
Hypothesis ok_space : forall s, blank s -> ok s.

Lemma interleaved_gap_l (gap text : str) (chunks : list str) :
  ok gap -> interleaved ok text chunks -> interleaved ok (gap ++ text) chunks.
Proof using ok_app.
  intros Hgap Hi. destruct Hi as [g Hg|g c rest chunks Hg Hrest].
  - constructor. apply ok_app; assumption.
  - rewrite app_assoc. constructor; [|assumption].
    apply ok_app; assumption.
Qed.

Lemma interleaved_gap_r (gap text : str) (chunks : list str) :
  interleaved ok text chunks -> ok gap -> interleaved ok (text ++ gap) chunks.
Proof using ok_app.
  intros Hi Hgap. induction Hi as [g Hg|g c rest chunks Hg Hrest IH].
  - constructor. apply ok_app; assumption.
  - rewrite <- !app_assoc. constructor; assumption.
Qed.

Lemma interleaved_app (t1 t2 : str) (c1 c2 : list str) :
  interleaved ok t1 c1 -> interleaved ok t2 c2 ->
  interleaved ok (t1 ++ t2) (c1 ++ c2).
Proof using ok_app.
  intros H1 H2. induction H1 as [g Hg|g c rest chunks Hg Hrest IH]; simpl.
  - apply interleaved_gap_l; assumption.
  - rewrite <- !app_assoc. constructor; assumption.
Qed.

Lemma blank_ok (s : str) : blank s -> ok s.
Proof using ok_space. exact (ok_space s). Qed.

Lemma interleaved_stripped_or_nothing (s : str) :
  interleaved ok s (stripped_or_nothing s).
Proof using ok_space.
  unfold stripped_or_nothing. destruct (truthy (strip s)) eqn:Ht.
  - destruct (strip_decomp s) as (l & r & Hs & Hl & Hr).
    rewrite Hs at 1. constructor; [apply blank_ok; exact Hl|].
    constructor. apply blank_ok. exact Hr.
  - apply truthy_false in Ht. constructor. apply blank_ok, strip_nil_blank. exact Ht.
Qed.

Lemma flush_stripped (chunks : list str) (current_chunk : str) :
  (if truthy (strip current_chunk)
   then chunks ++ [strip current_chunk] else chunks)
  = chunks ++ stripped_or_nothing current_chunk.
Proof.
  unfold stripped_or_nothing. destruct (truthy (strip current_chunk)); [reflexivity|].
  rewrite app_nil_r. reflexivity.
Qed.

Variable self : RecursiveCharacterTextSplitter.
Hypothesis no_overlap : chunk_overlap self = 0.
Hypothesis size_pos : 0 < chunk_size self.

Lemma window_loop_interleaved (text : str) (fuel : nat) :
  forall st st',
    0 <= start st ->
    interleaved ok (take (Z.to_nat (start st)) text) (List.filter truthy (chunks st)) ->
    window_loop self fuel text st = Some st' ->
    interleaved ok text (List.filter truthy (chunks st')).
Proof using ok_app ok_space no_overlap size_pos.
  induction fuel as [|fuel IH]; intros st st' Hst Hinv; simpl;
    unfold window_continues; destruct (Z.ltb_spec (start st) (len text)) as [Hlt|Hge];
    try discriminate.
  - intros [= <-]. rewrite take_ge in Hinv by (unfold len in Hge; lia). exact Hinv.
  - apply IH.
    + simpl. lia.
    + simpl. rewrite no_overlap, Z.sub_0_r.
      rewrite List.filter_app. simpl List.filter.
      change (if truthy (strip ?w) then [strip ?w] else []) with (stripped_or_nothing w).
      set (e := Z.min (start st + chunk_size self) (len text)).
      assert (He : start st <= e) by (subst e; lia).
      replace (Z.to_nat e) with (Z.to_nat (start st) + Z.to_nat (e - start st))%nat by lia.
      rewrite <- take_take_drop.
      apply interleaved_app; [exact Hinv|].
      replace (take (Z.to_nat (e - start st)) (drop (Z.to_nat (start st)) text))
        with (slice text (start st) e); [apply interleaved_stripped_or_nothing|].
      unfold slice, clamp_index.
      destruct (Z.ltb_spec (start st) 0); [lia|].
      destruct (Z.ltb_spec e 0); [lia|].
      rewrite (Z.min_l (start st)) by lia.
      rewrite (Z.min_l e) by (subst e; lia). reflexivity.
  - intros [= <-]. rewrite take_ge in Hinv by (unfold len in Hge; lia). exact Hinv.
Qed.

Lemma split_by_character_interleaved (text : str) (fuel : nat) (chunks : list str) :
  _split_by_character self fuel text = Some chunks -> interleaved ok text chunks.
Proof using ok_nothing ok_app ok_space no_overlap size_pos.
  unfold _split_by_character.
  destruct (window_loop self fuel text _) as [st'|] eqn:Hloop; [|discriminate].
  intros [= <-]. eapply window_loop_interleaved; [| |exact Hloop]; simpl; [lia|].
  constructor. exact ok_nothing.
Qed.

Lemma join_cons (separator : str) (s0 : str) (splits : list str) :
  join separator (s0 :: splits) = s0 ++ remaining separator splits.
Proof.
  revert s0. induction splits as [|s1 splits IH]; intros s0.
  - simpl. rewrite app_nil_r. reflexivity.
  - change (join separator (s0 :: s1 :: splits))
      with (s0 ++ separator ++ join separator (s1 :: splits)).
    rewrite IH. unfold remaining. simpl. rewrite <- !app_assoc. reflexivity.
Qed.

Lemma merge_splits_interleaved (recurse : str -> option (list str)) (separator : str) :
  ok separator ->
  forall splits chunks current_chunk body chunks' current',
    (forall piece sub, In piece splits -> recurse piece = Some sub ->
                       interleaved ok piece sub) ->
    interleaved ok body chunks ->
    merge_splits self recurse separator splits chunks current_chunk
      = Some (chunks', current') ->
    exists body',
      body ++ current_chunk ++ remaining separator splits = body' ++ current'
      /\ interleaved ok body' chunks'.
Proof using ok_nothing ok_app ok_space.
  intros Hsep. induction splits as [|piece splits IH];
    intros chunks current_chunk body chunks' current' Hrec Hbody; simpl.
  - intros [= <- <-]. exists body. unfold remaining. simpl.
    rewrite app_nil_r. auto.
  - assert (Hrec' : forall p sub, In p splits -> recurse p = Some sub -> interleaved ok p sub).
    { intros p sub Hp. apply Hrec. right. exact Hp. }
    unfold remaining. simpl. fold (remaining separator splits).
    destruct (Z.leb_spec (len (current_chunk ++
                (if truthy current_chunk then separator else []) ++ piece))
                (chunk_size self)) as [Hfit|Hbig].
    + destruct current_chunk as [|c current_chunk]; simpl truthy; cbv iota.
      * intros Hm.
        destruct (IH chunks ([] ++ [] ++ piece) (body ++ separator) chunks' current' Hrec'
                    (interleaved_gap_r _ _ _ Hbody Hsep) Hm) as (body' & Heq & Hi).
        exists body'. split; [|exact Hi]. rewrite <- Heq. simpl.
        rewrite <- !app_assoc. reflexivity.
      * intros Hm.
        destruct (IH chunks _ body chunks' current' Hrec' Hbody Hm) as (body' & Heq & Hi).
        exists body'. split; [|exact Hi]. rewrite <- Heq.
        rewrite <- !app_assoc. reflexivity.
    + assert (Hflush : interleaved ok (body ++ current_chunk ++ separator)
                (if truthy current_chunk
                 then chunks ++ [strip current_chunk] else chunks)).
      { rewrite app_assoc. apply interleaved_gap_r; [|exact Hsep].
        destruct current_chunk as [|c current_chunk]; simpl truthy; cbv iota.
        - rewrite app_nil_r. exact Hbody.
        - apply interleaved_app; [exact Hbody|].
          pose proof (interleaved_stripped_or_nothing (c :: current_chunk)) as Hs.
          unfold stripped_or_nothing in Hs.
          destruct (truthy (strip (c :: current_chunk))) eqn:Ht; [exact Hs|].
          apply truthy_false in Ht. rewrite Ht.
          apply (interleaved_chunk ok [] [] (c :: current_chunk) []);
            [exact ok_nothing | exact Hs]. }
      destruct (Z.gtb_spec (len piece) (chunk_size self)) as [Hlong|Hshort].
      * destruct (recurse piece) as [sub|] eqn:Hsub; [|discriminate].
        intros Hm.
        destruct (IH _ [] ((body ++ current_chunk ++ separator) ++ piece) chunks' current' Hrec'
                    (interleaved_app _ _ _ _ Hflush
                       (Hrec piece sub ltac:(left; reflexivity) Hsub)) Hm)
          as (body' & Heq & Hi).
        exists body'. split; [|exact Hi]. rewrite <- Heq. simpl.
        rewrite <- !app_assoc. reflexivity.
      * intros Hm.
        destruct (IH _ piece (body ++ current_chunk ++ separator) chunks' current' Hrec'
                    Hflush Hm) as (body' & Heq & Hi).
        exists body'. split; [|exact Hi]. rewrite <- Heq.
        rewrite <- !app_assoc. reflexivity.
Qed.

End Interleaved.

Section InterleavedSplit.

Variable self : RecursiveCharacterTextSplitter.
Hypothesis no_overlap : chunk_overlap self = 0.
Hypothesis size_pos : 0 < chunk_size self.

Variable ok : str -> Prop.
Hypothesis ok_nothing : ok [].
Hypothesis ok_app : forall a b, ok a -> ok b -> ok (a ++ b).
Hypothesis ok_space : forall s, blank s -> ok s.

Lemma split_on_interleaved (recurse : str -> option (list str))
    (separator text : str) (chunks : list str) :
  separator <> [] -> ok separator ->
  (forall piece sub, In piece (split separator text) -> recurse piece = Some sub ->
                     interleaved ok piece sub) ->
  split_on self recurse separator text = Some chunks ->
  interleaved ok text chunks.
Proof using no_overlap ok_nothing ok_app ok_space.
  intros Hne Hsep Hrec. unfold split_on.
  pose proof (join_split separator text Hne) as Hjoin.
  destruct (split separator text) as [|s0 splits] eqn:Hsplit.
  { exfalso. exact (split_from_not_nil _ _ _ Hsplit). }
  rewrite join_cons in Hjoin.
  assert (Hrec' : forall p sub, In p splits -> recurse p = Some sub -> interleaved ok p sub).
  { intros p sub Hp. apply Hrec. right. exact Hp. }
  assert (Hfinish : forall body chunks' current',
            body ++ current' = text -> interleaved ok body chunks' ->
            interleaved ok text
              (_apply_overlap self
                 (if truthy (strip current')
                  then chunks' ++ [strip current'] else chunks'))).
  { intros body chunks' current' Heq Hi.
    rewrite apply_overlap_no_overlap by lia. rewrite flush_stripped, <- Heq.
    apply interleaved_app; [exact ok_app | exact Hi|].
    apply interleaved_stripped_or_nothing. exact ok_space. }
  assert (Hkeep : forall chunks' current',
            merge_splits self recurse separator splits [] s0 = Some (chunks', current') ->
            interleaved ok text
              (_apply_overlap self
                 (if truthy (strip current')
                  then chunks' ++ [strip current'] else chunks'))).
  { intros chunks' current' Hm.
    destruct (merge_splits_interleaved ok ok_nothing ok_app ok_space self recurse separator Hsep
                splits [] s0 [] chunks' current' Hrec'
                (interleaved_end ok [] ok_nothing) Hm) as (body' & Heq & Hi).
    apply (Hfinish body'); [|exact Hi]. rewrite <- Heq, <- Hjoin. reflexivity. }
  simpl merge_splits.
  destruct (Z.leb_spec (len s0) (chunk_size self)) as [Hfit|Hbig].
  - destruct (merge_splits self recurse separator splits [] s0) as [[chunks' current']|] eqn:Hm;
      [|discriminate].
    intros [= <-]. apply Hkeep. reflexivity.
  - destruct (Z.gtb_spec (len s0) (chunk_size self)) as [Hlong|Hshort].
    + destruct (recurse s0) as [sub|] eqn:Hsub; [|discriminate].
      destruct (merge_splits self recurse separator splits sub [])
        as [[chunks' current']|] eqn:Hm; [|discriminate].
      intros [= <-].
      destruct (merge_splits_interleaved ok ok_nothing ok_app ok_space self recurse separator Hsep
                  splits sub [] s0 chunks' current' Hrec'
                  (Hrec s0 sub ltac:(left; reflexivity) Hsub) Hm) as (body' & Heq & Hi).
      apply (Hfinish body'); [|exact Hi]. rewrite <- Heq, <- Hjoin. reflexivity.
    + destruct (merge_splits self recurse separator splits [] s0) as [[chunks' current']|] eqn:Hm;
        [|discriminate].
      intros [= <-]. apply Hkeep. reflexivity.
Qed.

Lemma try_separators_interleaved (fuel : nat) :
  forall seps text chunks,
    (forall sep, In sep seps -> ok sep) ->
    try_separators self fuel seps text = Some chunks ->
    interleaved ok text chunks.
Proof using no_overlap size_pos ok_nothing ok_app ok_space.
  induction seps as [|sep rest IH]; intros text chunks Hok; simpl.
  - intros [= <-]. apply interleaved_stripped_or_nothing. exact ok_space.
  - assert (Hok' : forall s, In s rest -> ok s).
    { intros s Hs. apply Hok. right. exact Hs. }
    destruct (truthy sep) eqn:Hsep; simpl.
    + apply truthy_true in Hsep.
      destruct (contains sep text).
      * apply split_on_interleaved; [exact Hsep | apply Hok; left; reflexivity |].
        intros piece sub _.
        destruct (Z.leb_spec (len piece) (chunk_size self)).
        -- intros [= <-]. apply interleaved_stripped_or_nothing. exact ok_space.
        -- apply IH. exact Hok'.
      * apply IH. exact Hok'.
    + apply split_by_character_interleaved; assumption.
Qed.

Lemma split_text_interleaved (fuel : nat) (text : str) (chunks : list str) :
  (forall sep, In sep (separators self) -> ok sep) ->
  split_text self fuel text = Some chunks -> interleaved ok text chunks.
Proof using no_overlap size_pos ok_nothing ok_app ok_space.
  intros Hok. unfold split_text, _split_text_recursive.
  destruct (Z.leb_spec (len text) (chunk_size self)).
  - intros [= <-]. apply interleaved_stripped_or_nothing. exact ok_space.
  - apply try_separators_interleaved. exact Hok.
Qed.

End InterleavedSplit.

(** C7, as stated, fails: with the default hierarchy, [chunk_size = 5] and
    no overlap, the trimmed text ["aaaa\n bbbb"] gives the chunks ["aaaa"]
    and ["bbbb"]; the space that was stripped from the second chunk is
    lost, and no separator of the hierarchy put between the two chunks
    gives the text back. *)
Lemma split_text_loses_stripped_whitespace :
  split_text (mk 5 0 DEFAULT_SEPARATORS) 10 (py "aaaa" ++ [LF] ++ py " bbbb")
    = Some [py "aaaa"; py "bbbb"]
  /\ strip (py "aaaa" ++ [LF] ++ py " bbbb") = py "aaaa" ++ [LF] ++ py " bbbb"
  /\ forall sep, In sep DEFAULT_SEPARATORS ->
       join sep [py "aaaa"; py "bbbb"] <> py "aaaa" ++ [LF] ++ py " bbbb".
Proof.
  split; [reflexivity|]. split; [reflexivity|].
  intros sep Hin. simpl in Hin.
  repeat (destruct Hin as [<-|Hin]; [discriminate|]). contradiction.
Qed.

Lemma dropped_app (seps : list str) (a b : str) :
  dropped seps a -> dropped seps b -> dropped seps (a ++ b).
Proof.
  intros Ha Hb. induction Ha as [|c rest Hc _ IH|sep rest Hsep _ IH]; simpl.
  - exact Hb.
  - apply dropped_space; assumption.
  - rewrite <- app_assoc. apply dropped_separator; assumption.
Qed.

Lemma dropped_blank (seps : list str) (s : str) : blank s -> dropped seps s.
Proof.
  induction 1 as [|c s Hc _ IH]; [apply dropped_nothing|].
  apply dropped_space; assumption.
Qed.

Lemma dropped_one_separator (seps : list str) (sep : str) :
  In sep seps -> dropped seps sep.
Proof.
  intros H. rewrite <- (app_nil_r sep).
  apply dropped_separator; [exact H | apply dropped_nothing].
Qed.

Lemma dropped_head (seps : list str) (c : N) (s : str) :
  dropped seps (c :: s) ->
  is_space c = true
  \/ exists sep, In sep seps /\ sep <> [] /\ starts_with sep (c :: s) = true.
Proof.
  intros H. remember (c :: s) as t eqn:Ht. revert c s Ht.
  induction H as [|c' rest Hc _ _|sep rest Hsep Hrest IH]; intros c s Ht.
  - discriminate.
  - injection Ht as -> ->. left. exact Hc.
  - destruct sep as [|x sep'].
    + exact (IH c s Ht).
    + right. exists (x :: sep'). split; [exact Hsep|]. split; [discriminate|].
      clear. generalize (x :: sep'). intros sep.
      induction sep as [|y sep IH]; simpl; [reflexivity|].
      rewrite N.eqb_refl. exact IH.
Qed.

(** A character that is neither whitespace nor part of a whole separator
    is not dropped: the statement below does not allow the chunks ["a"]
    and ["b"] for the text ["a.b"]. *)
Lemma dropped_keeps_lone_period :
  ~ interleaved (dropped DEFAULT_SEPARATORS) (py "a.b") [py "a"; py "b"].
Proof.
  assert (Hno : forall c s,
            is_space c = false ->
            (forall sep, In sep DEFAULT_SEPARATORS -> sep <> [] ->
                         starts_with sep (c :: s) = false) ->
            ~ dropped DEFAULT_SEPARATORS (c :: s)).
  { intros c s Hc Hsep H. apply dropped_head in H as [H|(sep & Hin & Hne & H)].
    - congruence.
    - rewrite (Hsep sep Hin Hne) in H. discriminate H. }
  change (py "a.b") with [97%N; 46%N; 98%N].
  change (py "a") with [97%N]. change (py "b") with [98%N].
  intros H. inversion H as [|gap c rest chunks Hgap Hrest Heq]; subst.
  destruct gap as [|g gap'].
  - simpl in Heq. injection Heq as ->.
    inversion Hrest as [|gap2 c2 rest2 chunks2 Hgap2 Hrest2 Heq2]; subst.
    destruct gap2 as [|g2 gap2']; [discriminate Heq2|].
    injection Heq2 as -> Heq2.
    destruct gap2' as [|g3 gap3];
      [|injection Heq2 as _ Heq2; destruct gap3; discriminate Heq2].
    revert Hgap2. apply Hno; [reflexivity|].
    intros sep Hin Hne. simpl in Hin.
    repeat (destruct Hin as [<-|Hin]; [try reflexivity; congruence|]).
    contradiction.
  - injection Heq as -> Heq.
    revert Hgap. apply Hno; [reflexivity|].
    intros sep Hin Hne. simpl in Hin.
    repeat (destruct Hin as [<-|Hin]; [try reflexivity; congruence|]).
    contradiction.
Qed.

(** C7, amended.  With [chunk_overlap = 0 < chunk_size], [split_text]
    returns chunks that occur in the input text in order and without
    overlap: the text is the chunks interleaved with gaps (before the
    first chunk, between consecutive chunks and after the last one), and
    every gap is a sequence of whitespace characters and of whole
    separators of the hierarchy.  So no character is added, and what is
    lost is the separators dropped at chunk boundaries together with the
    whitespace stripped from the chunk ends. *)
Theorem split_text_chunks_interleaved
    (self : RecursiveCharacterTextSplitter) (text : str) (fuel : nat) :
  chunk_overlap self = 0 -> 0 < chunk_size self -> (length text <= fuel)%nat ->
  exists chunks,
    split_text self fuel text = Some chunks
    /\ interleaved (dropped (separators self)) text chunks.
Proof.
  intros Hco Hcs Hfuel.
  destruct (split_text_bounded self Hco Hcs fuel text Hfuel) as (chunks & Hres & _).
  exists chunks. split; [exact Hres|].
  apply (split_text_interleaved self Hco Hcs (dropped (separators self))
           (dropped_nothing _) (dropped_app _) (dropped_blank _) fuel text chunks);
    [|exact Hres].
  intros sep Hsep. apply dropped_one_separator. exact Hsep.
Qed.

Lemma split_text_chunks_interleaved_witness :
  chunk_overlap (mk 5 0 DEFAULT_SEPARATORS) = 0
  /\ 0 < chunk_size (mk 5 0 DEFAULT_SEPARATORS)
  /\ (length (py "aaaa" ++ [LF] ++ py " bbbb") <= 10)%nat
  /\ exists chunks,
       split_text (mk 5 0 DEFAULT_SEPARATORS) 10 (py "aaaa" ++ [LF] ++ py " bbbb")
         = Some chunks
       /\ interleaved (dropped DEFAULT_SEPARATORS)
            (py "aaaa" ++ [LF] ++ py " bbbb") chunks.
Proof.
  split; [reflexivity|]. split; [reflexivity|]. split; [simpl; lia|].
  apply (split_text_chunks_interleaved (mk 5 0 DEFAULT_SEPARATORS));
    [reflexivity | reflexivity | simpl; lia].
Defined.

(** ** Merging first, stitching once *)

Section StitchOnce.

Variable self : RecursiveCharacterTextSplitter.

Lemma merge_splits_ext (r1 r2 : str -> option (list str)) (separator : str) :
  forall splits chunks current_chunk,
    (forall piece, In piece splits -> chunk_size self < len piece ->
                   r1 piece = r2 piece) ->
    merge_splits self r1 separator splits chunks current_chunk
    = merge_splits self r2 separator splits chunks current_chunk.
Proof.
  induction splits as [|piece splits IH]; intros chunks current_chunk Hext; simpl.
  - reflexivity.
  - assert (Hext' : forall p, In p splits -> chunk_size self < len p -> r1 p = r2 p).
    { intros p Hp. apply Hext. right. exact Hp. }
    destruct (_ <=? _); [apply IH; exact Hext'|].
    destruct (Z.gtb_spec (len piece) (chunk_size self)) as [Hlong|Hshort].
    + rewrite (Hext piece ltac:(left; reflexivity) Hlong).
      destruct (r2 piece); [apply IH; exact Hext'|reflexivity].
    + apply IH. exact Hext'.
Qed.

Lemma split_on_merge_on (recurse : str -> option (list str)) (separator text : str) :
  split_on self recurse separator text
  = option_map (_apply_overlap self) (merge_on self recurse separator text).
Proof.
  unfold split_on, merge_on.
  destruct (merge_splits self recurse separator _ [] []) as [[chunks current_chunk]|];
    reflexivity.
Qed.

Lemma apply_overlap_short (chunks : list str) :
  (length chunks <= 1)%nat -> _apply_overlap self chunks = chunks.
Proof.
  intros H. unfold _apply_overlap.
  destruct (Z.leb_spec (len chunks) 1) as [_|Hlen]; [reflexivity|].
  unfold len in Hlen. lia.
Qed.

Lemma apply_overlap_stripped_or_nothing (text : str) :
  _apply_overlap self (stripped_or_nothing text) = stripped_or_nothing text.
Proof.
  apply apply_overlap_short. unfold stripped_or_nothing.
  destruct (truthy (strip text)); simpl; lia.
Qed.

(** The character windows come back unstitched; stitching them afterwards
    changes nothing, because windows are only returned without overlap. *)
Lemma apply_overlap_split_by_character (fuel : nat) (text : str) :
  option_map (_apply_overlap self) (_split_by_character self fuel text)
  = _split_by_character self fuel text.
Proof.
  destruct (Z.le_gt_cases (chunk_overlap self) 0) as [Hco|Hco].
  - destruct (_split_by_character self fuel text); simpl; [|reflexivity].
    rewrite apply_overlap_no_overlap by exact Hco. reflexivity.
  - destruct text as [|c text].
    + unfold _split_by_character. destruct fuel; reflexivity.
    + rewrite split_by_character_diverges by (lia || discriminate). reflexivity.
Qed.

Lemma try_separators_no_overlap (fuel : nat) :
  chunk_overlap self <= 0 ->
  forall seps text,
    try_separators self fuel seps text = merge_separators self fuel seps text.
Proof.
  intros Hco. induction seps as [|sep rest IH]; intros text; simpl.
  - reflexivity.
  - destruct (negb (truthy sep)); [reflexivity|].
    destruct (contains sep text); [|apply IH].
    rewrite split_on_merge_on. unfold merge_on.
    rewrite (merge_splits_ext _
               (fun split => if len split <=? chunk_size self
                             then Some (stripped_or_nothing split)
                             else merge_separators self fuel rest split)).
    + destruct (merge_splits _ _ _ _ _ _) as [[chunks current_chunk]|]; simpl; [|reflexivity].
      rewrite apply_overlap_no_overlap by exact Hco. reflexivity.
    + intros piece _ _. destruct (_ <=? _); [reflexivity|apply IH].
Qed.

Lemma try_separators_nothing_recursed (fuel : nat) :
  forall seps text,
    nothing_recursed self seps text = true ->
    try_separators self fuel seps text
    = option_map (_apply_overlap self) (merge_separators self fuel seps text).
Proof.
  induction seps as [|sep rest IH]; intros text Hfit; simpl in *.
  - rewrite apply_overlap_stripped_or_nothing. reflexivity.
  - destruct (negb (truthy sep)).
    + symmetry. apply apply_overlap_split_by_character.
    + destruct (contains sep text); [|apply IH; exact Hfit].
      rewrite split_on_merge_on. unfold merge_on.
      rewrite (merge_splits_ext _
                 (fun split => if len split <=? chunk_size self
                               then Some (stripped_or_nothing split)
                               else merge_separators self fuel rest split)); [reflexivity|].
      intros piece Hpiece Hlong. exfalso.
      rewrite forallb_forall in Hfit. specialize (Hfit piece Hpiece).
      apply Z.leb_le in Hfit. lia.
Qed.

End StitchOnce.

(** C3.  [split_text] does not complete the merging before it stitches:
    [_apply_overlap] runs at the end of every recursion level, on chunks
    that a deeper level has stitched already, so the overlap text is
    repeated inside a chunk.  With the default hierarchy,
    [chunk_size = 10] and [chunk_overlap = 2], the first line of
    ["aaaaaa bbbb\ncc"] is recursed on and comes back stitched
    (["aa bbbb"]); the enclosing level stitches the same chunk again
    (["aa aa bbbb"]).  Merging first and stitching once, as the claim
    says, gives ["aa bbbb"].  One level more, on
    ["aaaaaa bbbb\ncc\n\ndd"], the chunk ["bb cc"] of the inner level is
    stitched again to ["bb bb cc"]. *)
Theorem split_text_stitches_recursed_chunks_again :
  split_text (mk 10 2 DEFAULT_SEPARATORS) 14 (py "aaaaaa bbbb" ++ [LF] ++ py "cc")
    = Some [py "aaaaaa"; py "aa aa bbbb"; py "bb cc"]
  /\ split_then_stitch_once (mk 10 2 DEFAULT_SEPARATORS) 14
       (py "aaaaaa bbbb" ++ [LF] ++ py "cc")
    = Some [py "aaaaaa"; py "aa bbbb"; py "bb cc"]
  /\ split_text (mk 10 2 DEFAULT_SEPARATORS) 14 (py "aaaaaa bbbb" ++ [LF] ++ py "cc")
     <> split_then_stitch_once (mk 10 2 DEFAULT_SEPARATORS) 14
          (py "aaaaaa bbbb" ++ [LF] ++ py "cc")
  /\ split_text (mk 10 2 DEFAULT_SEPARATORS) 18
       (py "aaaaaa bbbb" ++ [LF] ++ py "cc" ++ [LF; LF] ++ py "dd")
    = Some [py "aaaaaa"; py "aa aa bbbb"; py "bb bb cc"; py "cc dd"]
  /\ split_then_stitch_once (mk 10 2 DEFAULT_SEPARATORS) 18
       (py "aaaaaa bbbb" ++ [LF] ++ py "cc" ++ [LF; LF] ++ py "dd")
    = Some [py "aaaaaa"; py "aa bbbb"; py "bb cc"; py "cc dd"].
Proof.
  split; [reflexivity|]. split; [reflexivity|]. split; [discriminate|].
  split; reflexivity.
Qed.

(** Where the order of the two passes cannot matter: the result of
    [split_text] is that of merging first and stitching once whenever
    stitching is off ([chunk_overlap <= 0]) or nothing is recursed on (no
    piece of the split at the first separator found exceeds
    [chunk_size]). *)
Lemma split_text_stitch_once
    (self : RecursiveCharacterTextSplitter) (fuel : nat) (text : str) :
  chunk_overlap self <= 0 \/ nothing_recursed self (separators self) text = true ->
  split_text self fuel text = split_then_stitch_once self fuel text.
Proof.
  intros H. unfold split_text, _split_text_recursive, split_then_stitch_once.
  destruct (len text <=? chunk_size self).
  - simpl. rewrite apply_overlap_stripped_or_nothing. reflexivity.
  - destruct H as [Hco|Hfit].
    + rewrite try_separators_no_overlap by exact Hco.
      destruct (merge_separators self fuel (separators self) text); simpl; [|reflexivity].
      rewrite apply_overlap_no_overlap by exact Hco. reflexivity.
    + apply try_separators_nothing_recursed. exact Hfit.
Qed.

Lemma split_text_stitch_once_witness :
  (chunk_overlap (mk 7 3 DEFAULT_SEPARATORS) <= 0
   \/ nothing_recursed (mk 7 3 DEFAULT_SEPARATORS) DEFAULT_SEPARATORS
        (py "aaaa bbbb") = true)
  /\ split_text (mk 7 3 DEFAULT_SEPARATORS) 9 (py "aaaa bbbb")
     = split_then_stitch_once (mk 7 3 DEFAULT_SEPARATORS) 9 (py "aaaa bbbb").
Proof.
  split; [right; reflexivity|].
  apply (split_text_stitch_once (mk 7 3 DEFAULT_SEPARATORS)). right. reflexivity.
Defined.

(** ** Cleaning a text twice *)

(** *** Occurrences of a pattern *)

Lemma contains_pair (a b p c : N) (s : str) :
  contains [a; b] (p :: c :: s)
  = ((a =? p)%N && (b =? c)%N) || contains [a; b] (c :: s).
Proof. simpl. rewrite andb_true_r. reflexivity. Qed.

Lemma contains_pair_one (a b p : N) : contains [a; b] [p] = false.
Proof. simpl. rewrite andb_false_r. reflexivity. Qed.

Lemma contains_pair_head (a b p : N) (s : str) :
  a <> p -> contains [a; b] (p :: s) = contains [a; b] s.
Proof.
  intros H. simpl. apply N.eqb_neq in H. rewrite H. simpl.
  destruct s; reflexivity.
Qed.

Lemma strip_contains (pat s : str) :
  contains pat (strip s) = true -> contains pat s = true.
Proof.
  intros H. destruct (strip_decomp s) as (l & r & Hs & _).
  rewrite Hs. apply contains_app_l, contains_app_r. exact H.
Qed.

Lemma strip_In (c : N) (s : str) : In c (strip s) -> In c s.
Proof.
  intros H. destruct (strip_decomp s) as (l & r & Hs & _).
  rewrite Hs. apply in_or_app. right. apply in_or_app. left. exact H.
Qed.

(** *** Stripping twice *)

Lemma rstrip_idempotent (s : str) : rstrip (rstrip s) = rstrip s.
Proof.
  induction s as [|c s IH]; [reflexivity|]. simpl.
  destruct (rstrip s) as [|d t] eqn:Hs.
  - destruct (is_space c) eqn:Hc; simpl; [reflexivity|]. rewrite Hc. reflexivity.
  - change (rstrip (c :: d :: t)) with
      (match rstrip (d :: t) with [] => if is_space c then [] else [c] | r => c :: r end).
    rewrite IH. reflexivity.
Qed.

Lemma lstrip_head (s : str) :
  lstrip s = [] \/ exists c t, lstrip s = c :: t /\ is_space c = false.
Proof.
  induction s as [|c s IH]; simpl; [left; reflexivity|].
  destruct (is_space c) eqn:Hc; [exact IH|]. right. eauto.
Qed.

Lemma strip_idempotent (s : str) : strip (strip s) = strip s.
Proof.
  unfold strip. destruct (lstrip_head s) as [->|(c & t & -> & Hc)]; [reflexivity|].
  assert (Hl : lstrip (rstrip (c :: t)) = rstrip (c :: t)).
  { simpl. destruct (rstrip t); rewrite ?Hc; simpl; rewrite Hc; reflexivity. }
  rewrite Hl. apply rstrip_idempotent.
Qed.

(** *** The substitution for runs of spaces *)

Lemma sub_spaces_from_false_cons (c : N) (s : str) :
  sub_spaces_from false (c :: s) = c :: sub_spaces_from (c =? SP)%N s.
Proof. simpl. destruct (N.eqb_spec c SP) as [->|]; reflexivity. Qed.

Lemma sub_spaces_from_pair (a b : N) :
  forall s p in_run,
    (in_run = true -> p = SP) ->
    contains [a; b] (p :: sub_spaces_from in_run s) = true ->
    contains [a; b] (p :: s) = true.
Proof.
  induction s as [|c s IH]; intros p in_run Hrun H; simpl sub_spaces_from in H.
  - exact H.
  - destruct (N.eqb_spec c SP) as [->|Hc].
    + destruct in_run.
      * rewrite (Hrun eq_refl) in *. apply contains_cons. apply (IH SP true); auto.
      * rewrite contains_pair in H |- *.
        apply orb_prop in H as [H|H]; [rewrite H; reflexivity|].
        rewrite (IH SP true); auto using orb_true_r.
    + rewrite contains_pair in H |- *.
      apply orb_prop in H as [H|H]; [rewrite H; reflexivity|].
      rewrite (IH c false); auto using orb_true_r. discriminate.
Qed.

Lemma sub_spaces_pair (a b : N) (s : str) :
  contains [a; b] (sub_spaces s) = true -> contains [a; b] s = true.
Proof.
  destruct s as [|c s]; [auto|]. unfold sub_spaces.
  rewrite sub_spaces_from_false_cons. apply sub_spaces_from_pair.
  intros H. apply N.eqb_eq in H. exact H.
Qed.

Lemma sub_spaces_from_In (x : N) :
  forall s in_run, In x (sub_spaces_from in_run s) -> In x s.
Proof.
  induction s as [|c s IH]; intros in_run H; simpl in *; [exact H|].
  destruct (N.eqb_spec c SP) as [->|Hc].
  - destruct in_run; [right; eapply IH; exact H|].
    destruct H as [H|H]; [left; exact H | right; eapply IH; exact H].
  - destruct H as [H|H]; [left; exact H | right; eapply IH; exact H].
Qed.

Lemma sub_spaces_from_collapsed :
  forall s p in_run,
    (p = SP -> in_run = true) ->
    contains [SP; SP] (p :: sub_spaces_from in_run s) = false.
Proof.
  induction s as [|c s IH]; intros p in_run Hrun; simpl sub_spaces_from.
  - apply contains_pair_one.
  - destruct (N.eqb_spec c SP) as [->|Hc].
    + destruct in_run; [apply IH; auto|].
      rewrite contains_pair.
      destruct (N.eqb_spec SP p) as [<-|Hp]; [specialize (Hrun eq_refl); discriminate|].
      rewrite andb_false_l, orb_false_l. apply IH. auto.
    + rewrite contains_pair.
      assert (Hsc : (SP =? c)%N = false) by (apply N.eqb_neq; congruence).
      rewrite Hsc, andb_false_r, orb_false_l. apply IH. intros ->. contradiction.
Qed.

Lemma sub_spaces_collapsed (s : str) : contains [SP; SP] (sub_spaces s) = false.
Proof.
  destruct s as [|c s]; [reflexivity|]. unfold sub_spaces.
  rewrite sub_spaces_from_false_cons. apply sub_spaces_from_collapsed.
  intros ->. reflexivity.
Qed.

Lemma sub_spaces_from_fixed :
  forall s p, contains [SP; SP] (p :: s) = false ->
              sub_spaces_from (p =? SP)%N s = s.
Proof.
  induction s as [|c s IH]; intros p H; simpl; [reflexivity|].
  rewrite contains_pair in H. apply orb_false_elim in H as [H1 H2].
  destruct (N.eqb_spec c SP) as [->|Hc].
  - destruct (N.eqb_spec p SP) as [->|Hp]; [discriminate|].
    f_equal. apply (IH SP). exact H2.
  - f_equal. specialize (IH c H2).
    destruct (N.eqb_spec c SP); [contradiction|]. exact IH.
Qed.

Lemma sub_spaces_fixed (s : str) :
  contains [SP; SP] s = false -> sub_spaces s = s.
Proof.
  destruct s as [|c s]; [reflexivity|]. intros H. unfold sub_spaces.
  rewrite sub_spaces_from_false_cons. f_equal. apply sub_spaces_from_fixed. exact H.
Qed.

(** *** The substitution for runs of newlines *)

Lemma sub_newlines_from_0_cons (c : N) (s : str) :
  sub_newlines_from 0 (c :: s)
  = c :: sub_newlines_from (if (c =? LF)%N then 1 else 0) s.
Proof. simpl. destruct (N.eqb_spec c LF) as [->|]; reflexivity. Qed.

Lemma sub_newlines_from_pair (a b : N) :
  forall s p run,
    (run <= 2)%nat -> ((1 <= run)%nat -> p = LF) ->
    contains [a; b] (p :: sub_newlines_from run s) = true ->
    contains [a; b] (p :: s) = true.
Proof.
  induction s as [|c s IH]; intros p run Hle Hrun H; simpl sub_newlines_from in H.
  - exact H.
  - destruct (N.eqb_spec c LF) as [->|Hc].
    + destruct (Nat.ltb_spec run 2) as [Hlt|Hge].
      * rewrite contains_pair in H |- *.
        apply orb_prop in H as [H|H]; [rewrite H; reflexivity|].
        rewrite (IH LF (S run)); auto using orb_true_r; lia.
      * rewrite (Hrun ltac:(lia)) in *. apply contains_cons.
        apply (IH LF run); auto.
    + rewrite contains_pair in H |- *.
      apply orb_prop in H as [H|H]; [rewrite H; reflexivity|].
      rewrite (IH c 0%nat); auto using orb_true_r; lia.
Qed.

Lemma sub_newlines_pair (a b : N) (s : str) :
  contains [a; b] (sub_newlines s) = true -> contains [a; b] s = true.
Proof.
  destruct s as [|c s]; [auto|]. unfold sub_newlines.
  rewrite sub_newlines_from_0_cons. apply sub_newlines_from_pair.
  - destruct (c =? LF)%N; lia.
  - destruct (N.eqb_spec c LF); [auto|lia].
Qed.

Lemma sub_newlines_from_In (x : N) :
  forall s run, In x (sub_newlines_from run s) -> In x s.
Proof.
  induction s as [|c s IH]; intros run H; simpl in *; [exact H|].
  destruct (N.eqb_spec c LF) as [->|Hc].
  - destruct (run <? 2)%nat; [|right; eapply IH; exact H].
    destruct H as [H|H]; [left; exact H | right; eapply IH; exact H].
  - destruct H as [H|H]; [left; exact H | right; eapply IH; exact H].
Qed.

Lemma run_then_other (run : nat) (c : N) (s : str) :
  (run <= 2)%nat -> c <> LF ->
  contains [LF; LF; LF] (repeat LF run ++ c :: s) = contains [LF; LF; LF] s.
Proof.
  intros Hle Hc.
  assert (H : (LF =? c)%N = false) by (apply N.eqb_neq; congruence).
  unfold LF in *.
  destruct run as [|[|[|run]]]; try lia; cbn -[N.eqb];
    rewrite ?N.eqb_refl, ?H; cbn -[N.eqb]; rewrite ?H, ?andb_false_r; reflexivity.
Qed.

Lemma run_extend (run : nat) (s : str) :
  repeat LF run ++ LF :: s = repeat LF (S run) ++ s.
Proof. induction run as [|run IH]; simpl; [reflexivity|]. rewrite IH. reflexivity. Qed.

Lemma sub_newlines_from_capped :
  forall s run,
    (run <= 2)%nat ->
    contains [LF; LF; LF] (repeat LF run ++ sub_newlines_from run s) = false.
Proof.
  induction s as [|c s IH]; intros run Hle; simpl sub_newlines_from.
  - rewrite app_nil_r. destruct run as [|[|[|run]]]; try lia; reflexivity.
  - destruct (N.eqb_spec c LF) as [->|Hc].
    + destruct (Nat.ltb_spec run 2) as [Hlt|Hge]; [|apply IH; exact Hle].
      rewrite run_extend. apply IH. lia.
    + rewrite run_then_other by assumption. apply (IH 0%nat). lia.
Qed.

Lemma sub_newlines_capped (s : str) :
  contains [LF; LF; LF] (sub_newlines s) = false.
Proof. apply (sub_newlines_from_capped s 0). lia. Qed.

Lemma sub_newlines_from_fixed :
  forall s run,
    (run <= 2)%nat ->
    contains [LF; LF; LF] (repeat LF run ++ s) = false ->
    sub_newlines_from run s = s.
Proof.
  induction s as [|c s IH]; intros run Hle H; simpl; [reflexivity|].
  destruct (N.eqb_spec c LF) as [->|Hc].
  - destruct (Nat.ltb_spec run 2) as [Hlt|Hge].
    + f_equal. apply IH; [lia|]. rewrite <- run_extend. exact H.
    + exfalso. assert (run = 2%nat) as -> by lia. simpl in H. discriminate.
  - f_equal. apply (IH 0%nat); [lia|].
    rewrite run_then_other in H by assumption. exact H.
Qed.

Lemma sub_newlines_fixed (s : str) :
  contains [LF; LF; LF] s = false -> sub_newlines s = s.
Proof. intros H. apply (sub_newlines_from_fixed s 0); [lia | exact H]. Qed.

(** *** The substitutions for tabs and for line endings *)

Lemma sub_tab_no_tab (s : str) : ~ In TAB (sub_tab s).
Proof.
  induction s as [|c s IH]; simpl; [auto|].
  destruct (N.eqb_spec c TAB) as [->|Hc]; simpl; intros H.
  - repeat (destruct H as [H|H]; [discriminate|]). auto.
  - destruct H as [H|H]; [congruence | auto].
Qed.

Lemma sub_tab_fixed (s : str) : ~ In TAB s -> sub_tab s = s.
Proof.
  induction s as [|c s IH]; simpl; intros H; [reflexivity|].
  destruct (N.eqb_spec c TAB) as [->|Hc]; [exfalso; auto|].
  simpl. f_equal. apply IH. auto.
Qed.

Lemma sub_tab_pair_from (a b : N) :
  a <> SP -> b <> SP ->
  forall s p, contains [a; b] (p :: sub_tab s) = true ->
              contains [a; b] (p :: s) = true.
Proof.
  intros Ha Hb. induction s as [|c s IH]; intros p H; simpl sub_tab in H; [exact H|].
  destruct (N.eqb_spec c TAB) as [->|Hc]; simpl app in H.
  - rewrite contains_pair in H.
    assert (Hbs : (b =? SP)%N = false) by (apply N.eqb_neq; exact Hb).
    rewrite Hbs, andb_false_r, orb_false_l in H.
    rewrite !(contains_pair_head a b SP) in H by exact Ha.
    apply contains_cons, contains_cons.
    rewrite <- (contains_pair_head a b SP) by exact Ha.
    apply IH. rewrite contains_pair_head by exact Ha. exact H.
  - rewrite contains_pair in H |- *.
    apply orb_prop in H as [H|H]; [rewrite H; reflexivity|].
    rewrite (IH c H). apply orb_true_r.
Qed.

Lemma sub_tab_pair (a b : N) (s : str) :
  a <> SP -> b <> SP ->
  contains [a; b] (sub_tab s) = true -> contains [a; b] s = true.
Proof.
  intros Ha Hb H.
  rewrite <- (contains_pair_head a b SP) by exact Ha.
  apply sub_tab_pair_from; [assumption..|].
  rewrite contains_pair_head by exact Ha. exact H.
Qed.

Lemma list_ind2 {A} (P : list A -> Prop) :
  P [] -> (forall c, P [c]) ->
  (forall c d rest, P rest -> P (d :: rest) -> P (c :: d :: rest)) ->
  forall s, P s.
Proof.
  intros H0 H1 H2 s.
  assert (H : P s /\ forall c, P (c :: s)); [|apply H].
  induction s as [|d s [IHs IHc]]; [auto|].
  split; [apply IHc|]. intros c. apply H2; auto.
Qed.

Lemma sub_crlf_fixed (s : str) : contains [CR; LF] s = false -> sub_crlf s = s.
Proof.
  induction s as [|c s IH]; [reflexivity|]. destruct s as [|d rest]; [reflexivity|].
  intros H. rewrite contains_pair in H. apply orb_false_elim in H as [H1 H2].
  change (sub_crlf (c :: d :: rest)) with
    (if (c =? CR)%N && (d =? LF)%N then LF :: sub_crlf rest
     else c :: sub_crlf (d :: rest)).
  rewrite (N.eqb_sym c), (N.eqb_sym d), H1. f_equal. apply IH. exact H2.
Qed.

Lemma contains_pair_head_is (a b p : N) (s : str) :
  contains [a; b] (p :: s) = ((a =? p)%N && head_is b s) || contains [a; b] s.
Proof.
  destruct s as [|c s].
  - rewrite contains_pair_one. simpl. rewrite andb_false_r. reflexivity.
  - apply contains_pair.
Qed.

Lemma sub_crlf_head (s : str) :
  head_is LF (sub_crlf s) = true ->
  head_is LF s = true \/ starts_with [CR; LF] s = true.
Proof.
  destruct s as [|c [|d rest]]; try (simpl; auto; fail).
  change (sub_crlf (c :: d :: rest)) with
    (if (c =? CR)%N && (d =? LF)%N then LF :: sub_crlf rest
     else c :: sub_crlf (d :: rest)).
  destruct ((c =? CR)%N && (d =? LF)%N) eqn:Hm.
  - intros _. right.
    change (starts_with [CR; LF] (c :: d :: rest))
      with ((CR =? c)%N && ((LF =? d)%N && true)).
    rewrite andb_true_r, (N.eqb_sym CR), (N.eqb_sym LF). exact Hm.
  - intros H. left. exact H.
Qed.

(** After the substitution a carriage return is followed by a newline
    only where the text had a carriage return before a CR LF pair. *)
Lemma sub_crlf_no_crlf (s : str) :
  contains [CR; CR; LF] s = false -> contains [CR; LF] (sub_crlf s) = false.
Proof.
  induction s as [| |c d rest IHrest IHtail] using list_ind2;
    [reflexivity | intros _; apply contains_pair_one |].
  intros H.
  assert (Htail : contains [CR; CR; LF] (d :: rest) = false).
  { destruct (contains [CR; CR; LF] (d :: rest)) eqn:E; [|reflexivity].
    rewrite (contains_cons _ c _ E) in H. discriminate. }
  assert (Hrest : contains [CR; CR; LF] rest = false).
  { destruct (contains [CR; CR; LF] rest) eqn:E; [|reflexivity].
    rewrite (contains_cons _ d _ E) in Htail. discriminate. }
  change (sub_crlf (c :: d :: rest)) with
    (if (c =? CR)%N && (d =? LF)%N then LF :: sub_crlf rest
     else c :: sub_crlf (d :: rest)).
  destruct ((c =? CR)%N && (d =? LF)%N) eqn:Hm.
  - rewrite contains_pair_head by discriminate. apply IHrest. exact Hrest.
  - rewrite contains_pair_head_is, (IHtail Htail), orb_false_r.
    destruct (N.eqb_spec CR c) as [<-|Hc]; [|reflexivity].
    destruct (head_is LF (sub_crlf (d :: rest))) eqn:Hh; [|reflexivity].
    exfalso. apply sub_crlf_head in Hh as [Hh|Hh].
    + change (head_is LF (d :: rest)) with (LF =? d)%N in Hh.
      rewrite (N.eqb_sym d), Hh, N.eqb_refl in Hm. discriminate.
    + change (contains [CR; CR; LF] (CR :: d :: rest))
        with (starts_with [CR; CR; LF] (CR :: d :: rest)
              || contains [CR; CR; LF] (d :: rest)) in H.
      change (starts_with [CR; CR; LF] (CR :: d :: rest))
        with ((CR =? CR)%N && starts_with [CR; LF] (d :: rest)) in H.
      rewrite Hh in H. discriminate.
Qed.

(** *** Idempotence *)

(** C9, as stated, fails: ["a\r\r\nb"] is cleaned to ["a\r\nb"], and
    cleaning that gives ["a\nb"]. *)
Lemma clean_text_not_idempotent :
  _clean_text [97; 13; 13; 10; 98]%N = [97; 13; 10; 98]%N
  /\ _clean_text (_clean_text [97; 13; 13; 10; 98]%N) = [97; 10; 98]%N.
Proof. split; reflexivity. Qed.

(** C9, amended.  [_clean_text] is idempotent on every text in which no
    carriage return stands directly before a CR LF line ending (no
    ["\r\r\n"]): cleaning the cleaned text changes nothing. *)
Theorem clean_text_idempotent (t : str) :
  contains [CR; CR; LF] t = false ->
  _clean_text (_clean_text t) = _clean_text t.
Proof.
  intros Ht. unfold _clean_text at 1.
  set (r := _clean_text t).
  assert (Hcrlf : contains [CR; LF] r = false).
  { destruct (contains [CR; LF] r) eqn:E; [|reflexivity].
    apply strip_contains, sub_newlines_pair, sub_spaces_pair, sub_tab_pair in E;
      try discriminate.
    rewrite sub_crlf_no_crlf in E by exact Ht. discriminate. }
  assert (Htab : ~ In TAB r).
  { intros E. apply strip_In, sub_newlines_from_In, sub_spaces_from_In in E.
    exact (sub_tab_no_tab _ E). }
  assert (Hsp : contains [SP; SP] r = false).
  { destruct (contains [SP; SP] r) eqn:E; [|reflexivity].
    apply strip_contains, sub_newlines_pair in E.
    rewrite sub_spaces_collapsed in E. discriminate. }
  assert (Hnl : contains [LF; LF; LF] r = false).
  { destruct (contains [LF; LF; LF] r) eqn:E; [|reflexivity].
    apply strip_contains in E. rewrite sub_newlines_capped in E. discriminate. }
  rewrite (sub_crlf_fixed r Hcrlf), (sub_tab_fixed r Htab),
    (sub_spaces_fixed r Hsp), (sub_newlines_fixed r Hnl).
  apply strip_idempotent.
Qed.

Lemma clean_text_idempotent_witness :
  contains [CR; CR; LF] [32; 9; 97; 32; 32; 98; 13; 10; 10; 10; 10; 99; 32]%N = false
  /\ _clean_text (_clean_text [32; 9; 97; 32; 32; 98; 13; 10; 10; 10; 10; 99; 32]%N)
     = _clean_text [32; 9; 97; 32; 32; 98; 13; 10; 10; 10; 10; 99; 32]%N.
Proof.
  split; [reflexivity|]. apply clean_text_idempotent. reflexivity.
Defined.

(** ** Serialization *)

Lemma dict_update_lookup (d e : gmap str value) (k : str) :
  dict_update d e !! k = match e !! k with Some v => Some v | None => d !! k end.
Proof.
  unfold dict_update. destruct (e !! k) as [v|] eqn:He.
  - apply lookup_union_Some_l. exact He.
  - apply lookup_union_r. exact He.
Qed.

Lemma dict_update_lookup_default (d e : gmap str value) (k : str) (v : value) :
  d !! k = Some v -> dict_update d e !! k = Some (default v (e !! k)).
Proof.
  intros Hd. rewrite dict_update_lookup. destruct (e !! k); simpl; congruence.
Qed.

(** C10, as stated, fails: a document without page number whose [extra]
    has the key ["page_number"] is serialized with the value of [extra],
    not with 0. *)
Lemma to_chroma_format_extra_overrides_page_number :
  new_DocumentMetadata (py "notes.txt") 0 1 1000 None {[ py "page_number" := VInt 5 ]}
    = Returns {| source := py "notes.txt"; chunk_index := 0; total_chunks := 1;
                 created_at := 1000; page_number := None;
                 extra := {[ py "page_number" := VInt 5 ]} |}
  /\ chroma_metadata
       (to_chroma_format (fun _ => py "2026-01-01T00:00:00")
          {| id := py "1b4e28ba"; content := py "text";
             metadata := {| source := py "notes.txt"; chunk_index := 0;
                            total_chunks := 1; created_at := 1000;
                            page_number := None;
                            extra := {[ py "page_number" := VInt 5 ]} |} |})
       !! py "page_number" = Some (VInt 5).
Proof. split; reflexivity. Qed.

(** C10, amended.  For every document whose [page_number] is absent, the
    serialized metadata maps ["page_number"] to 0 unless [extra] itself
    has that key; [source], [chunk_index] and [total_chunks] are copied
    and [created_at] is stored in ISO format, each unless [extra] has an
    entry of the same key; every entry of [extra] is copied unchanged and
    wins over the fixed keys. *)
Theorem to_chroma_format_missing_page_number
    (isoformat : datetime -> str) (doc : Document) :
  page_number (metadata doc) = None ->
  let m := chroma_metadata (to_chroma_format isoformat doc) in
  let e := extra (metadata doc) in
  m !! py "page_number" = Some (default (VInt 0) (e !! py "page_number"))
  /\ m !! py "source"
     = Some (default (VStr (source (metadata doc))) (e !! py "source"))
  /\ m !! py "chunk_index"
     = Some (default (VInt (chunk_index (metadata doc))) (e !! py "chunk_index"))
  /\ m !! py "total_chunks"
     = Some (default (VInt (total_chunks (metadata doc))) (e !! py "total_chunks"))
  /\ m !! py "created_at"
     = Some (default (VStr (isoformat (created_at (metadata doc))))
               (e !! py "created_at"))
  /\ forall k v, e !! k = Some v -> m !! k = Some v.
Proof.
  intros Hpage m e. subst m e. unfold to_chroma_format. simpl chroma_metadata.
  rewrite Hpage. simpl int_or.
  repeat split.
  - apply dict_update_lookup_default.
    rewrite !lookup_insert_ne by key_ne. apply lookup_insert_eq.
  - apply dict_update_lookup_default. apply lookup_insert_eq.
  - apply dict_update_lookup_default.
    rewrite !lookup_insert_ne by key_ne. apply lookup_insert_eq.
  - apply dict_update_lookup_default.
    rewrite !lookup_insert_ne by key_ne. apply lookup_insert_eq.
  - apply dict_update_lookup_default.
    rewrite !lookup_insert_ne by key_ne. apply lookup_insert_eq.
  - intros k v He. rewrite dict_update_lookup, He. reflexivity.
Qed.

Lemma to_chroma_format_missing_page_number_witness :
  page_number
    (metadata {| id := py "1b4e28ba"; content := py "text";
                 metadata := {| source := py "notes.txt"; chunk_index := 0;
                                total_chunks := 1; created_at := 1000;
                                page_number := None;
                                extra := {[ py "lang" := VStr (py "en") ]} |} |})
  = None
  /\ chroma_metadata
       (to_chroma_format (fun _ => py "2026-01-01T00:00:00")
          {| id := py "1b4e28ba"; content := py "text";
             metadata := {| source := py "notes.txt"; chunk_index := 0;
                            total_chunks := 1; created_at := 1000;
                            page_number := None;
                            extra := {[ py "lang" := VStr (py "en") ]} |} |})
       !! py "page_number" = Some (VInt 0).
Proof.
  split; [reflexivity|].
  exact (proj1 (to_chroma_format_missing_page_number
                  (fun _ => py "2026-01-01T00:00:00")
                  {| id := py "1b4e28ba"; content := py "text";
                     metadata := {| source := py "notes.txt"; chunk_index := 0;
                                    total_chunks := 1; created_at := 1000;
                                    page_number := None;
                                    extra := {[ py "lang" := VStr (py "en") ]} |} |}
                  eq_refl)).
Defined.

(** ** The documents of an ingestion call *)

(** The pipeline of the examples is what [IngestionPipeline(chunk_size=5)]
    constructs when the settings give [CHUNK_OVERLAP = 0]. *)
Lemma small_pipeline_constructed :
  pipeline_init {| CHUNK_SIZE := 500; CHUNK_OVERLAP := 0 |} (Some 5) None
  = Returns small_pipeline.
Proof. reflexivity. Qed.

Lemma zseq_length (start : Z) (n : nat) : length (zseq start n) = n.
Proof. revert start. induction n as [|n IH]; intros start; simpl; [|rewrite IH]; reflexivity. Qed.

Lemma enumerate_from_fst {A} (i : Z) (l : list A) :
  map fst (enumerate_from i l) = zseq i (length l).
Proof.
  revert i. induction l as [|x l IH]; intros i; simpl; [reflexivity|].
  rewrite IH. reflexivity.
Qed.

Lemma enumerate_from_length {A} (i : Z) (l : list A) :
  length (enumerate_from i l) = length l.
Proof.
  revert i. induction l as [|x l IH]; intros i; simpl; [|rewrite IH]; reflexivity.
Qed.

(** The documents built by the loop of [ingest_text]. *)
Lemma text_documents_fields (source : str) (extra_metadata : option (gmap str value))
    (total : Z) :
  forall chunks i w documents w',
    text_documents source extra_metadata total i chunks w = Returns (documents, w') ->
    map document_view documents
    = map (fun '(j, chunk) =>
             (chunk, source, j, total, None, dict_or_empty extra_metadata))
          (enumerate_from i chunks).
Proof.
  intros chunks. induction chunks as [|chunk rest IH]; intros i w documents w'; simpl.
  - intros [= <- <-]. reflexivity.
  - unfold new_DocumentMetadata.
    destruct ((0 <=? i) && (1 <=? total) && true); simpl; [|discriminate].
    unfold new_Document. destruct (1 <=? len chunk); simpl; [|discriminate].
    destruct (text_documents source extra_metadata total (i + 1) rest _)
      as [[documents0 w3]| |] eqn:Hrest; simpl; try discriminate.
    intros [= <- <-]. simpl. f_equal. eapply IH. exact Hrest.
Qed.

(** The documents built by the second pass of [ingest_pdf]. *)
Lemma pdf_documents_fields (file : PdfFile) (extra_metadata : option (gmap str value))
    (total : Z) :
  forall all_chunks i w documents w',
    pdf_documents file extra_metadata total i all_chunks w = Returns (documents, w') ->
    map document_view documents
    = map (fun '(j, (chunk, page_num, page_chunk_idx)) =>
             (chunk, pdf_name file, j, total, Some page_num,
              dict_update
                {[ py "filename" := VStr (pdf_name file);
                   py "extension" := VStr (py ".pdf");
                   py "file_size_bytes" := VInt (pdf_size file);
                   py "total_pages" := VInt (len (pdf_pages file));
                   py "page_chunk_index" := VInt page_chunk_idx ]}
                (dict_or_empty extra_metadata)))
          (enumerate_from i all_chunks).
Proof.
  induction all_chunks as [|[[chunk page_num] page_chunk_idx] rest IH];
    intros i w documents w'; simpl.
  - intros [= <- <-]. reflexivity.
  - unfold new_DocumentMetadata.
    destruct ((0 <=? i) && (1 <=? total) && (1 <=? page_num)); simpl; [|discriminate].
    unfold new_Document. destruct (1 <=? len chunk); simpl; [|discriminate].
    destruct (pdf_documents file extra_metadata total (i + 1) rest _)
      as [[documents0 w3]| |] eqn:Hrest; simpl; try discriminate.
    intros [= <- <-]. simpl. f_equal. eapply IH. exact Hrest.
Qed.

Lemma views_dense (documents : list Document) {A} (entries : list A)
    (f : Z * A -> str * str * Z * Z * option Z * gmap str value) :
  (forall j x, (f (j, x)).1.1.1.2 = j) ->
  (forall j x, (f (j, x)).1.1.2 = len entries) ->
  map document_view documents = map f (enumerate_from 0 entries) ->
  dense_indices documents.
Proof.
  intros Hidx Htotal Hviews.
  assert (Hlen : length documents = length entries).
  { rewrite <- (length_map document_view), Hviews, length_map.
    apply enumerate_from_length. }
  split.
  - change (fun d => chunk_index (metadata d))
      with (fun d => (document_view d).1.1.1.2).
    rewrite <- (map_map document_view (fun v => v.1.1.1.2)), Hviews, map_map.
    rewrite Hlen, <- enumerate_from_fst.
    apply map_ext. intros [j x]. apply Hidx.
  - apply List.Forall_forall. intros d Hd.
    apply (in_map document_view) in Hd. rewrite Hviews in Hd.
    apply in_map_iff in Hd as ([j x] & Hf & _).
    change (total_chunks (metadata d)) with ((document_view d).1.1.2).
    rewrite <- Hf, Htotal. unfold len. rewrite Hlen. reflexivity.
Qed.

Lemma enumerate_from_snd {A} (i : Z) (l : list A) :
  map snd (enumerate_from i l) = l.
Proof.
  revert i. induction l as [|x l IH]; intros i; simpl; [reflexivity|].
  rewrite IH. reflexivity.
Qed.

Lemma map_enumerate_snd {A B} (g : A -> B) (f : Z * A -> B) (i : Z) (l : list A) :
  (forall j x, f (j, x) = g x) -> map f (enumerate_from i l) = map g l.
Proof.
  intros H. rewrite <- (enumerate_from_snd i l) at 2. rewrite map_map.
  apply map_ext. intros [j x]. apply H.
Qed.

Lemma ordinals_from_app (seen p1 p2 : list (option Z)) :
  ordinals_from seen (p1 ++ p2)
  = ordinals_from seen p1 ++ ordinals_from (seen ++ p1) p2.
Proof.
  revert seen. induction p1 as [|p p1 IH]; intros seen; simpl.
  - rewrite app_nil_r. reflexivity.
  - rewrite IH, <- app_assoc. reflexivity.
Qed.

Lemma no_earlier_page (seen : list (option Z)) (page_num : Z) :
  (forall q, In (Some q) seen -> q < page_num) ->
  filter (fun q => q = Some page_num) seen = [].
Proof.
  induction seen as [|q seen IH]; intros H; [reflexivity|].
  rewrite filter_cons_False.
  - apply IH. intros n Hn. apply H. right. exact Hn.
  - intros ->. specialize (H page_num ltac:(left; reflexivity)). lia.
Qed.

(** The entries of one page: their ordinals count the earlier entries of
    that page. *)
Lemma page_entries_ordinals (page_num : Z) :
  forall (page_chunks : list str) k seen,
    len (filter (fun q => q = Some page_num) seen) = k ->
    map (fun entry : str * Z * Z => entry.2)
        (map (fun '(chunk_idx, chunk) => (chunk, page_num, chunk_idx))
             (enumerate_from k page_chunks))
    = ordinals_from seen
        (map (fun entry : str * Z * Z => Some entry.1.2)
             (map (fun '(chunk_idx, chunk) => (chunk, page_num, chunk_idx))
                  (enumerate_from k page_chunks))).
Proof.
  induction page_chunks as [|chunk rest IH]; intros k seen Hk; simpl; [reflexivity|].
  rewrite Hk. f_equal. apply IH.
  rewrite filter_app, filter_cons_True by reflexivity.
  rewrite filter_nil, len_app, Hk. reflexivity.
Qed.

(** The first pass numbers the chunks of every page from 0: each ordinal
    is the number of earlier entries with the same page number. *)
Lemma collect_chunks_ordinals (self : IngestionPipeline) (fuel : nat) :
  forall pages page_num all_chunks seen,
    collect_chunks self fuel page_num pages = Returns all_chunks ->
    (forall q, In (Some q) seen -> q < page_num) ->
    map (fun entry : str * Z * Z => entry.2) all_chunks
    = ordinals_from seen (map (fun entry : str * Z * Z => Some entry.1.2) all_chunks).
Proof.
  induction pages as [|page rest IH]; intros page_num all_chunks seen; simpl.
  - intros [= <-] _. reflexivity.
  - destruct (negb (truthy (strip (default [] page)))).
    + intros Hrest Hseen. apply (IH (page_num + 1)); [exact Hrest|].
      intros q Hq. specialize (Hseen q Hq). lia.
    + destruct (split_text (splitter self) fuel (_clean_text (default [] page)))
        as [page_chunks|]; simpl; [|discriminate].
      destruct (collect_chunks self fuel (page_num + 1) rest) as [more| |] eqn:Hmore;
        simpl; try discriminate.
      intros [= <-] Hseen.
      rewrite !map_app, ordinals_from_app. f_equal.
      * apply page_entries_ordinals. rewrite no_earlier_page by exact Hseen. reflexivity.
      * apply (IH (page_num + 1)); [exact Hmore|].
        intros q Hq. apply in_app_or in Hq as [Hq|Hq].
        -- specialize (Hseen q Hq). lia.
        -- rewrite map_map in Hq. apply in_map_iff in Hq as ([j c] & [= <-] & _). lia.
Qed.

(** C4, as stated, fails for the page-local ordinal: the caller's
    [extra_metadata] is spread last into [extra], so its own key
    ["page_chunk_index"] replaces the ordinals 0, 1, 0 of the three
    documents. *)
Lemma ingest_pdf_caller_key_replaces_ordinal :
  map (fun d => extra (metadata d) !! py "page_chunk_index")
    <$> documents_of
          (ingest_pdf small_pipeline 10 two_pages
             (Some {[ py "page_chunk_index" := VInt 7 ]}) world_a)
  = Returns [Some (VInt 7); Some (VInt 7); Some (VInt 7)].
Proof. reflexivity. Qed.

(** C4, amended.  For every call of [ingest_text] or [ingest_pdf] that
    returns documents, the [chunk_index] values are [0 .. N-1] in order
    and every document carries [total_chunks = N], the count over all
    pages.  In the paginated case the key ["page_chunk_index"] of [extra]
    holds the page-local ordinal of the document (the number of earlier
    documents of the same page), unless the caller's [extra_metadata] has
    that key itself: then it holds the caller's value. *)
Theorem ingestion_indices (self : IngestionPipeline) (fuel : nat)
    (call : ingestion_call) (w : World) (documents : list Document) (w' : World) :
  run_ingestion self fuel call w = Returns (documents, w') ->
  dense_indices documents
  /\ match call with
     | IngestText _ _ _ => True
     | IngestPdf _ extra_metadata =>
         map (fun d => extra (metadata d) !! py "page_chunk_index") documents
         = map (fun ordinal =>
                  Some (default (VInt ordinal)
                          (dict_or_empty extra_metadata !! py "page_chunk_index")))
               (page_local_ordinals documents)
     end.
Proof.
  destruct call as [text source extra_metadata|file extra_metadata]; simpl.
  - unfold ingest_text. destruct (negb (truthy (_clean_text text))).
    { intros [= <- _]. repeat split. constructor. }
    destruct (split_text (splitter self) fuel (_clean_text text)) as [chunks|];
      simpl; [|discriminate].
    destruct chunks as [|chunk rest].
    { intros [= <- _]. repeat split. constructor. }
    intros H. split; [|exact I].
    apply text_documents_fields in H.
    eapply views_dense; [| |exact H]; intros j x; reflexivity.
  - unfold ingest_pdf.
    destruct (collect_chunks self fuel 1 (pdf_pages file)) as [all_chunks| |] eqn:Hcollect;
      simpl; try discriminate.
    destruct all_chunks as [|entry rest] eqn:Hall.
    { intros [= <- _]. repeat split. constructor. }
    rewrite <- Hall in *. clear Hall entry rest.
    intros H. apply pdf_documents_fields in H. split.
    + eapply views_dense; [| |exact H]; intros j [[c p] k]; reflexivity.
    + unfold page_local_ordinals.
      change (fun d => extra (metadata d) !! py "page_chunk_index")
        with (fun d => (document_view d).2 !! py "page_chunk_index").
      change (fun d => page_number (metadata d))
        with (fun d => (document_view d).1.2).
      rewrite <- (map_map document_view (fun v => v.2 !! py "page_chunk_index")).
      rewrite <- (map_map document_view (fun v => v.1.2)).
      rewrite H, !map_map.
      rewrite (map_enumerate_snd (fun entry : str * Z * Z => Some entry.1.2))
        by (intros j [[c p] k]; reflexivity).
      rewrite <- (collect_chunks_ordinals self fuel _ _ _ [] Hcollect)
        by (intros q []).
      rewrite map_map. apply map_enumerate_snd. intros j [[c p] k]. simpl.
      apply dict_update_lookup_default.
      rewrite !lookup_insert_ne by key_ne. apply lookup_insert_eq.
Qed.

Lemma ingestion_indices_witness :
  exists documents w',
    run_ingestion small_pipeline 10 (IngestPdf two_pages None) world_a
      = Returns (documents, w')
    /\ dense_indices documents
    /\ map (fun d => extra (metadata d) !! py "page_chunk_index") documents
       = map (fun ordinal =>
                Some (default (VInt ordinal)
                        (dict_or_empty None !! py "page_chunk_index")))
             (page_local_ordinals documents).
Proof.
  eexists _, _. split; [reflexivity|].
  eapply (ingestion_indices small_pipeline 10 (IngestPdf two_pages None) world_a).
  reflexivity.
Defined.

(** ** Two runs of one call *)

Lemma text_documents_views (source : str) (extra_metadata : option (gmap str value))
    (total : Z) :
  forall chunks i w1 w2,
    views_of (text_documents source extra_metadata total i chunks w1)
    = views_of (text_documents source extra_metadata total i chunks w2).
Proof.
  intros chunks. induction chunks as [|chunk rest IH]; intros i w1 w2; simpl.
  - reflexivity.
  - unfold new_DocumentMetadata.
    destruct ((0 <=? i) && (1 <=? total) && true); simpl; [|reflexivity].
    unfold new_Document. destruct (1 <=? len chunk); simpl; [|reflexivity].
    match goal with
    | |- views_of (mbind _ (text_documents _ _ _ _ _ ?wa))
         = views_of (mbind _ (text_documents _ _ _ _ _ ?wb)) =>
        pose proof (IH (i + 1) wa wb) as Hrec;
        destruct (text_documents source extra_metadata total (i + 1) rest wa)
          as [[d1 x1]| |];
        destruct (text_documents source extra_metadata total (i + 1) rest wb)
          as [[d2 x2]| |]
    end; simpl in *; try discriminate; try reflexivity; try exact Hrec.
    injection Hrec as Hrec. unfold views_of. simpl. rewrite Hrec. reflexivity.
Qed.

Lemma pdf_documents_views (file : PdfFile) (extra_metadata : option (gmap str value))
    (total : Z) :
  forall all_chunks i w1 w2,
    views_of (pdf_documents file extra_metadata total i all_chunks w1)
    = views_of (pdf_documents file extra_metadata total i all_chunks w2).
Proof.
  induction all_chunks as [|[[chunk page_num] page_chunk_idx] rest IH];
    intros i w1 w2; simpl.
  - reflexivity.
  - unfold new_DocumentMetadata.
    destruct ((0 <=? i) && (1 <=? total) && (1 <=? page_num)); simpl; [|reflexivity].
    unfold new_Document. destruct (1 <=? len chunk); simpl; [|reflexivity].
    match goal with
    | |- views_of (mbind _ (pdf_documents _ _ _ _ _ ?wa))
         = views_of (mbind _ (pdf_documents _ _ _ _ _ ?wb)) =>
        pose proof (IH (i + 1) wa wb) as Hrec;
        destruct (pdf_documents file extra_metadata total (i + 1) rest wa)
          as [[d1 x1]| |];
        destruct (pdf_documents file extra_metadata total (i + 1) rest wb)
          as [[d2 x2]| |]
    end; simpl in *; try discriminate; try reflexivity; try exact Hrec.
    injection Hrec as Hrec. unfold views_of. simpl. rewrite Hrec. reflexivity.
Qed.

(** C8, as stated, fails: two runs of the same [ingest_text] call draw
    different identifiers from [uuid.uuid4()] (and different times from
    [datetime.now()]), so the documents returned differ. *)
Lemma ingest_text_runs_differ :
  map id <$> documents_of
     (run_ingestion small_pipeline 10
        (IngestText (py "hello") (py "notes.txt") None) world_a)
    = Returns [py "1b4e28ba-2fa1-4d3b-a3f5-0f5c1f0c7a11"]
  /\ map id <$> documents_of
       (run_ingestion small_pipeline 10
          (IngestText (py "hello") (py "notes.txt") None) world_b)
    = Returns [py "9c858901-8a57-4791-81fe-4c455b099bc9"]
  /\ documents_of
       (run_ingestion small_pipeline 10
          (IngestText (py "hello") (py "notes.txt") None) world_a)
     <> documents_of
          (run_ingestion small_pipeline 10
             (IngestText (py "hello") (py "notes.txt") None) world_b).
Proof.
  split; [reflexivity|]. split; [reflexivity|].
  intros H. apply (f_equal (fmap (map id))) in H. vm_compute in H. discriminate H.
Qed.

(** C8, amended.  Two runs of an ingestion call on the same input and
    the same pipeline end the same way (both return, both raise the same
    error, or neither returns), and the documents they return agree on
    content, source, chunk index, total, page number and extra.  The
    identifier and the creation time of a document are drawn from
    [uuid.uuid4()] and [datetime.now()] at every run and are not
    determined by the input. *)
Theorem ingestion_deterministic_up_to_fresh_values
    (self : IngestionPipeline) (fuel : nat) (call : ingestion_call) (w1 w2 : World) :
  views_of (run_ingestion self fuel call w1)
  = views_of (run_ingestion self fuel call w2).
Proof.
  destruct call as [text source extra_metadata|file extra_metadata]; simpl.
  - unfold ingest_text. destruct (negb (truthy (_clean_text text))); [reflexivity|].
    destruct (split_text (splitter self) fuel (_clean_text text)) as [chunks|];
      simpl; [|reflexivity].
    destruct chunks; [reflexivity|]. apply text_documents_views.
  - unfold ingest_pdf.
    destruct (collect_chunks self fuel 1 (pdf_pages file)) as [all_chunks| |];
      simpl; try reflexivity.
    destruct all_chunks; [reflexivity|]. apply pdf_documents_views.
Qed.

(** * Further properties of the code *)

(** ** [_apply_overlap] *)

Lemma overlap_text_suffix (self : RecursiveCharacterTextSplitter) (prev_chunk : str) :
  0 < chunk_overlap self ->
  overlap_text self prev_chunk `suffix_of` prev_chunk
  /\ len (overlap_text self prev_chunk) = Z.min (chunk_overlap self) (len prev_chunk).
Proof.
  intros Hco. unfold overlap_text.
  destruct (Z.gtb_spec (len prev_chunk) (chunk_overlap self)) as [Hlong|Hshort].
  - unfold slice_from. split.
    + apply suffix_drop.
    + unfold len, clamp_index in *. rewrite length_drop.
      destruct (Z.ltb_spec (- chunk_overlap self) 0); lia.
  - split; [reflexivity | lia].
Qed.

Lemma stitch_from_lookup (self : RecursiveCharacterTextSplitter) :
  forall rest prev_chunk i out,
    stitch_from self prev_chunk rest !! i = Some out ->
    exists prev curr,
      (prev_chunk :: rest) !! i = Some prev /\ rest !! i = Some curr
      /\ out = stitch self prev curr.
Proof.
  induction rest as [|curr rest IH]; intros prev_chunk i out H; [discriminate|].
  destruct i as [|i]; simpl in H.
  - injection H as <-. exists prev_chunk, curr. auto.
  - apply IH in H as (prev & c & Hp & Hc & Ho). exists prev, c. auto.
Qed.

Lemma stitch_from_length (self : RecursiveCharacterTextSplitter) (prev_chunk : str)
    (rest : list str) :
  length (stitch_from self prev_chunk rest) = length rest.
Proof.
  revert prev_chunk. induction rest as [|c rest IH]; intros p; simpl; [|rewrite IH];
    reflexivity.
Qed.

(** X1.  [_apply_overlap] returns as many chunks as it is given and leaves
    the first one as it is.  Every later chunk is either unchanged or
    prefixed, before one space, with the last [min(chunk_overlap,
    len(previous))] characters of the chunk that preceded it in the input;
    the text of the chunk itself is never altered. *)
Theorem apply_overlap_shape (self : RecursiveCharacterTextSplitter)
    (chunks : list str) :
  length (_apply_overlap self chunks) = length chunks
  /\ _apply_overlap self chunks !! 0%nat = chunks !! 0%nat
  /\ forall i out,
       _apply_overlap self chunks !! S i = Some out ->
       exists prev curr,
         chunks !! i = Some prev /\ chunks !! S i = Some curr
         /\ (out = curr
             \/ exists t, out = t ++ [SP] ++ curr
                          /\ t `suffix_of` prev
                          /\ len t = Z.min (chunk_overlap self) (len prev)).
Proof.
  unfold _apply_overlap.
  destruct ((len chunks <=? 1) || (chunk_overlap self <=? 0)) eqn:Hskip.
  - split; [reflexivity|]. split; [reflexivity|].
    intros i out Hout.
    destruct (lookup_lt_is_Some_2 chunks i) as [prev Hprev].
    { pose proof (lookup_lt_Some _ _ _ Hout). unfold str in *. lia. }
    exists prev, out. auto.
  - apply orb_false_elim in Hskip as [_ Hco]. apply Z.leb_gt in Hco.
    destruct chunks as [|first rest]; [repeat split; intros i out H; discriminate|].
    split; [simpl; rewrite stitch_from_length; reflexivity|].
    split; [reflexivity|].
    intros i out Hout. simpl in Hout.
    apply stitch_from_lookup in Hout as (prev & curr & Hp & Hc & ->).
    exists prev, curr. split; [exact Hp|]. split; [exact Hc|].
    unfold stitch. destruct (_ <=? _); [|left; reflexivity].
    right. exists (overlap_text self prev). split; [reflexivity|].
    apply overlap_text_suffix. exact Hco.
Qed.

Lemma stitch_length (self : RecursiveCharacterTextSplitter) (prev_chunk curr_chunk : str) :
  len curr_chunk <= chunk_size self ->
  len (stitch self prev_chunk curr_chunk) <= chunk_size self + 1.
Proof.
  intros H. unfold stitch.
  destruct (Z.leb_spec (len (overlap_text self prev_chunk) + len curr_chunk)
              (chunk_size self)); [|lia].
  rewrite !len_app. unfold len at 2. simpl. lia.
Qed.

(** X2.  Stitching lengthens a chunk by at most the overlap and the
    joining space, and never takes a chunk that fits [chunk_size] beyond
    [chunk_size + 1]. *)
Theorem apply_overlap_length (self : RecursiveCharacterTextSplitter)
    (chunks : list str) :
  Forall (fun c => len c <= chunk_size self) chunks ->
  Forall (fun c => len c <= chunk_size self + 1) (_apply_overlap self chunks).
Proof.
  intros Hall. unfold _apply_overlap.
  destruct ((len chunks <=? 1) || (chunk_overlap self <=? 0)).
  { eapply Forall_impl; [exact Hall|]. intros c Hc. simpl in Hc. lia. }
  destruct chunks as [|first rest]; [constructor|].
  apply Forall_cons in Hall as [Hfirst Hrest].
  constructor; [lia|].
  clear Hfirst. revert first. induction Hrest as [|c rest Hc Hrest IH]; intros prev; simpl.
  - constructor.
  - constructor; [apply stitch_length; exact Hc | apply IH].
Qed.

Lemma apply_overlap_length_witness :
  Forall (fun c => len c <= chunk_size (mk 7 3 DEFAULT_SEPARATORS))
    [py "aaaa"; py "bbbb"; py "cc"]
  /\ Forall (fun c => len c <= chunk_size (mk 7 3 DEFAULT_SEPARATORS) + 1)
       (_apply_overlap (mk 7 3 DEFAULT_SEPARATORS) [py "aaaa"; py "bbbb"; py "cc"]).
Proof.
  assert (H : Forall (fun c => len c <= chunk_size (mk 7 3 DEFAULT_SEPARATORS))
                [py "aaaa"; py "bbbb"; py "cc"]).
  { repeat constructor; unfold len; simpl; lia. }
  split; [exact H|].
  exact (apply_overlap_length (mk 7 3 DEFAULT_SEPARATORS) _ H).
Defined.

(** ** Chunks without overlap *)

Section StrippedForms.

Variable self : RecursiveCharacterTextSplitter.
Hypothesis no_overlap : chunk_overlap self <= 0.

Variable P : str -> Prop.
Hypothesis P_strip : forall s, P (strip s).

Lemma window_loop_Forall (text : str) (fuel : nat) :
  forall st st',
    Forall P (chunks st) ->
    window_loop self fuel text st = Some st' ->
    Forall P (chunks st').
Proof using P_strip.
  induction fuel as [|fuel IH]; intros st st' Hall; simpl;
    destruct (window_continues text st); try discriminate;
    try (intros [= <-]; exact Hall).
  apply IH. simpl. apply Forall_app. split; [exact Hall|]. repeat constructor.
  apply P_strip.
Qed.

Lemma split_by_character_Forall (text : str) (fuel : nat) (result : list str) :
  _split_by_character self fuel text = Some result -> Forall P result.
Proof using P_strip.
  unfold _split_by_character.
  destruct (window_loop self fuel text _) as [st'|] eqn:Hloop; [|discriminate].
  intros [= <-].
  assert (Hall : Forall P (chunks st')).
  { eapply window_loop_Forall; [|exact Hloop]. constructor. }
  rewrite List.Forall_forall in *. intros c Hc.
  apply List.filter_In in Hc as [Hc _]. auto.
Qed.

Lemma merge_splits_Forall (recurse : str -> option (list str)) (separator : str) :
  (forall piece sub, recurse piece = Some sub -> Forall P sub) ->
  forall splits chunks current_chunk chunks' current',
    Forall P chunks ->
    merge_splits self recurse separator splits chunks current_chunk
      = Some (chunks', current') ->
    Forall P chunks'.
Proof using P_strip.
  intros Hrec. induction splits as [|piece splits IH];
    intros chunks current_chunk chunks' current' Hall; simpl.
  - intros [= <- _]. exact Hall.
  - destruct (_ <=? _); [apply IH; exact Hall|].
    assert (Hall1 : Forall P (if truthy current_chunk
                              then chunks ++ [strip current_chunk] else chunks)).
    { destruct (truthy current_chunk); [|exact Hall].
      apply Forall_app. split; [exact Hall|]. repeat constructor. apply P_strip. }
    destruct (_ >? _); [|apply IH; exact Hall1].
    destruct (recurse piece) as [sub|] eqn:Hsub; [|discriminate].
    apply IH. apply Forall_app. split; [exact Hall1|]. eapply Hrec. exact Hsub.
Qed.

Lemma try_separators_Forall (fuel : nat) :
  forall seps text chunks,
    try_separators self fuel seps text = Some chunks -> Forall P chunks.
Proof using P_strip no_overlap.
  induction seps as [|sep rest IH]; intros text chunks; simpl.
  - intros [= <-]. apply stripped_or_nothing_Forall, P_strip.
  - destruct (negb (truthy sep)); [apply split_by_character_Forall|].
    destruct (contains sep text); [|apply IH].
    unfold split_on.
    destruct (merge_splits self _ sep (split sep text) [] [])
      as [[chunks' current']|] eqn:Hm; [|discriminate].
    intros [= <-]. rewrite apply_overlap_no_overlap by exact no_overlap.
    assert (Hall : Forall P chunks').
    { eapply merge_splits_Forall; [| |exact Hm]; [|constructor].
      intros piece sub. cbv beta.
      destruct (len piece <=? chunk_size self); [|apply IH].
      intros [= <-]. apply stripped_or_nothing_Forall, P_strip. }
    destruct (truthy (strip current')); [|exact Hall].
    apply Forall_app. split; [exact Hall|]. repeat constructor. apply P_strip.
Qed.

End StrippedForms.

(** X3.  With no overlap ([chunk_overlap <= 0]) every chunk returned by
    [split_text] is in stripped form: it has no leading and no trailing
    whitespace. *)
Theorem split_text_chunks_stripped (self : RecursiveCharacterTextSplitter)
    (fuel : nat) (text : str) (chunks : list str) :
  chunk_overlap self <= 0 ->
  split_text self fuel text = Some chunks ->
  Forall (fun c => strip c = c) chunks.
Proof.
  intros Hco. unfold split_text, _split_text_recursive.
  destruct (_ <=? _).
  - intros [= <-]. apply stripped_or_nothing_Forall, strip_idempotent.
  - apply (try_separators_Forall self Hco _ strip_idempotent).
Qed.

Lemma split_text_chunks_stripped_witness :
  chunk_overlap (mk 5 0 DEFAULT_SEPARATORS) <= 0
  /\ split_text (mk 5 0 DEFAULT_SEPARATORS) 10 (py "aaaa" ++ [LF] ++ py " bbbb")
     = Some [py "aaaa"; py "bbbb"]
  /\ Forall (fun c => strip c = c) [py "aaaa"; py "bbbb"].
Proof.
  split; [simpl; lia|]. split; [reflexivity|].
  apply (split_text_chunks_stripped (mk 5 0 DEFAULT_SEPARATORS) 10
           (py "aaaa" ++ [LF] ++ py " bbbb")); [simpl; lia | reflexivity].
Defined.

(** *** Character windows of a text without whitespace *)

Lemma lstrip_no_space (s : str) :
  Forall (fun c => is_space c = false) s -> lstrip s = s.
Proof. intros H. destruct H as [|c s Hc _]; simpl; [|rewrite Hc]; reflexivity. Qed.

Lemma rstrip_no_space (s : str) :
  Forall (fun c => is_space c = false) s -> rstrip s = s.
Proof.
  induction 1 as [|c s Hc _ IH]; simpl; [reflexivity|].
  rewrite IH. destruct s; [rewrite Hc|]; reflexivity.
Qed.

Lemma strip_no_space (s : str) :
  Forall (fun c => is_space c = false) s -> strip s = s.
Proof.
  intros H. unfold strip. rewrite (lstrip_no_space s H). apply rstrip_no_space, H.
Qed.

Lemma window_loop_concat (self : RecursiveCharacterTextSplitter) (text : str) :
  chunk_overlap self = 0 -> 0 < chunk_size self ->
  Forall (fun c => is_space c = false) text ->
  forall fuel st st',
    0 <= start st ->
    concat (chunks st) = take (Z.to_nat (start st)) text ->
    Forall (fun c => truthy c = true) (chunks st) ->
    window_loop self fuel text st = Some st' ->
    concat (chunks st') = text /\ Forall (fun c => truthy c = true) (chunks st').
Proof.
  intros Hco Hcs Htext.
  induction fuel as [|fuel IH]; intros st st' Hst Hcat Hne; simpl;
    unfold window_continues; destruct (Z.ltb_spec (start st) (len text)) as [Hlt|Hge];
    try discriminate.
  - intros [= <-]. rewrite take_ge in Hcat by (unfold len in Hge; lia). auto.
  - set (e := Z.min (start st + chunk_size self) (len text)).
    assert (He : start st < e) by (subst e; lia).
    assert (Hslice : slice text (start st) e
                     = take (Z.to_nat (e - start st)) (drop (Z.to_nat (start st)) text)).
    { unfold slice, clamp_index.
      destruct (Z.ltb_spec (start st) 0); [lia|].
      destruct (Z.ltb_spec e 0); [lia|].
      rewrite (Z.min_l (start st)) by lia.
      rewrite (Z.min_l e) by (subst e; lia). reflexivity. }
    assert (Hclean : strip (slice text (start st) e) = slice text (start st) e).
    { apply strip_no_space. rewrite Hslice. apply Forall_take, Forall_drop, Htext. }
    apply IH.
    + simpl. fold e. lia.
    + simpl. fold e. rewrite Hco, Z.sub_0_r, concat_app, Hcat, Hclean, Hslice.
      simpl. rewrite app_nil_r, take_take_drop. f_equal. lia.
    + simpl. fold e. apply Forall_app. split; [exact Hne|]. repeat constructor.
      rewrite Hclean, Hslice. apply truthy_true. intros Hnil.
      apply (f_equal (@length N)) in Hnil.
      rewrite length_take, length_drop in Hnil. unfold len in *. simpl in Hnil. lia.
  - intros [= <-]. rewrite take_ge in Hcat by (unfold len in Hge; lia). auto.
Qed.

(** X4.  The character windows lose nothing of a text without whitespace:
    with [chunk_overlap = 0 < chunk_size], [_split_by_character] returns
    non-empty chunks of at most [chunk_size] characters whose
    concatenation is the text. *)
Theorem split_by_character_lossless (self : RecursiveCharacterTextSplitter)
    (fuel : nat) (text : str) :
  chunk_overlap self = 0 -> 0 < chunk_size self ->
  Forall (fun c => is_space c = false) text ->
  (length text <= fuel)%nat ->
  exists chunks,
    _split_by_character self fuel text = Some chunks
    /\ concat chunks = text
    /\ Forall (fun c => 0 < len c <= chunk_size self) chunks.
Proof.
  intros Hco Hcs Htext Hfuel.
  destruct (split_by_character_bounded self Hco Hcs text fuel Hfuel)
    as (result & Hres & Hbound).
  exists result. split; [exact Hres|].
  unfold _split_by_character in Hres.
  destruct (window_loop self fuel text _) as [st'|] eqn:Hloop; [|discriminate].
  injection Hres as <-.
  destruct (window_loop_concat self text Hco Hcs Htext fuel
              {| start := 0; chunks := [] |} st'
              ltac:(simpl; lia) ltac:(reflexivity) ltac:(constructor) Hloop)
    as [Hcat Hne].
  assert (Hkeep : List.filter truthy (chunks st') = chunks st').
  { clear -Hne. induction Hne as [|c l Hc _ IH]; simpl; [reflexivity|].
    rewrite Hc, IH. reflexivity. }
  rewrite Hkeep in *. split; [exact Hcat|].
  rewrite List.Forall_forall in *. intros c Hc.
  specialize (Hbound c Hc). specialize (Hne c Hc). simpl in Hbound.
  destruct c; [discriminate|]. unfold len in *. simpl in *. lia.
Qed.

Lemma split_by_character_lossless_witness :
  chunk_overlap (mk 4 0 DEFAULT_SEPARATORS) = 0
  /\ 0 < chunk_size (mk 4 0 DEFAULT_SEPARATORS)
  /\ Forall (fun c => is_space c = false) (py "abcdefghij")
  /\ (length (py "abcdefghij") <= 10)%nat
  /\ exists chunks,
       _split_by_character (mk 4 0 DEFAULT_SEPARATORS) 10 (py "abcdefghij") = Some chunks
       /\ concat chunks = py "abcdefghij"
       /\ Forall (fun c => 0 < len c <= 4) chunks.
Proof.
  assert (H : Forall (fun c => is_space c = false) (py "abcdefghij")).
  { repeat constructor. }
  split; [reflexivity|]. split; [reflexivity|]. split; [exact H|]. split; [simpl; lia|].
  apply (split_by_character_lossless (mk 4 0 DEFAULT_SEPARATORS) 10 (py "abcdefghij"));
    [reflexivity | reflexivity | exact H | simpl; lia].
Defined.

(** ** What [_clean_text] returns *)

Lemma sub_crlf_length (s : str) : (length (sub_crlf s) <= length s)%nat.
Proof.
  induction s as [| |c d rest IHrest IHtail] using list_ind2; [simpl; lia..|].
  change (sub_crlf (c :: d :: rest)) with
    (if (c =? CR)%N && (d =? LF)%N then LF :: sub_crlf rest
     else c :: sub_crlf (d :: rest)).
  destruct ((c =? CR)%N && (d =? LF)%N); simpl in *; lia.
Qed.

Lemma sub_crlf_shortens (s : str) :
  contains [CR; LF] s = true -> (length (sub_crlf s) < length s)%nat.
Proof.
  induction s as [| |c d rest IHrest IHtail] using list_ind2;
    [discriminate | intros H; rewrite contains_pair_one in H; discriminate |].
  intros H.
  change (sub_crlf (c :: d :: rest)) with
    (if (c =? CR)%N && (d =? LF)%N then LF :: sub_crlf rest
     else c :: sub_crlf (d :: rest)).
  destruct ((c =? CR)%N && (d =? LF)%N) eqn:Hm.
  - pose proof (sub_crlf_length rest). simpl. lia.
  - rewrite contains_pair, (N.eqb_sym CR), (N.eqb_sym LF), Hm in H.
    specialize (IHtail H). simpl in *. lia.
Qed.

Lemma sub_crlf_In (x : N) (s : str) : In x (sub_crlf s) -> In x s.
Proof.
  induction s as [| |c d rest IHrest IHtail] using list_ind2; [auto..|].
  change (sub_crlf (c :: d :: rest)) with
    (if (c =? CR)%N && (d =? LF)%N then LF :: sub_crlf rest
     else c :: sub_crlf (d :: rest)).
  destruct ((c =? CR)%N && (d =? LF)%N) eqn:Hm.
  - apply andb_prop in Hm as [_ Hd]. apply N.eqb_eq in Hd. subst d.
    intros [<-|H]; [right; left; reflexivity | right; right; auto].
  - intros [<-|H]; [left; reflexivity | right; auto].
Qed.

Lemma sub_tab_In (x : N) (s : str) : In x (sub_tab s) -> x = SP \/ In x s.
Proof.
  induction s as [|c s IH]; simpl; [auto|].
  destruct (N.eqb_spec c TAB) as [->|Hc]; simpl; intros H.
  - repeat (destruct H as [<-|H]; [left; reflexivity|]).
    destruct (IH H); auto.
  - destruct H as [<-|H]; [right; left; reflexivity|]. destruct (IH H); auto.
Qed.

Lemma sub_tab_spaces_length (s : str) :
  forall in_run, (length (sub_spaces_from in_run (sub_tab s)) <= length s)%nat.
Proof.
  induction s as [|c s IH]; intros in_run; simpl; [lia|].
  destruct (N.eqb_spec c TAB) as [->|Hc].
  - change ([SP; SP; SP; SP] ++ sub_tab s) with (SP :: SP :: SP :: SP :: sub_tab s).
    specialize (IH true). destruct in_run; simpl; lia.
  - change ([c] ++ sub_tab s) with (c :: sub_tab s). simpl.
    destruct (c =? SP)%N; [destruct in_run|]; simpl;
      first [specialize (IH true); lia | specialize (IH false); lia].
Qed.

Lemma sub_newlines_from_length (s : str) :
  forall run, (length (sub_newlines_from run s) <= length s)%nat.
Proof.
  induction s as [|c s IH]; intros run; simpl; [lia|].
  destruct (c =? LF)%N; [destruct (run <? 2)%nat|]; simpl;
    first [specialize (IH (S run)); lia | specialize (IH run); lia
          | specialize (IH 0%nat); lia].
Qed.

(** X5.  Cleaning never makes a text longer. *)
Theorem clean_text_length (t : str) : len (_clean_text t) <= len t.
Proof.
  unfold _clean_text, sub_newlines, sub_spaces, len.
  pose proof (strip_length
                (sub_newlines_from 0 (sub_spaces_from false (sub_tab (sub_crlf t))))).
  pose proof (sub_newlines_from_length
                (sub_spaces_from false (sub_tab (sub_crlf t))) 0).
  pose proof (sub_tab_spaces_length (sub_crlf t) false).
  pose proof (sub_crlf_length t). lia.
Qed.

Lemma clean_text_no_tab (t : str) : ~ In TAB (_clean_text t).
Proof.
  intros E. apply strip_In, sub_newlines_from_In, sub_spaces_from_In in E.
  exact (sub_tab_no_tab _ E).
Qed.

Lemma clean_text_no_double_space (t : str) :
  contains [SP; SP] (_clean_text t) = false.
Proof.
  destruct (contains [SP; SP] (_clean_text t)) eqn:E; [|reflexivity].
  apply strip_contains, sub_newlines_pair in E.
  rewrite sub_spaces_collapsed in E. discriminate.
Qed.

Lemma clean_text_no_triple_newline (t : str) :
  contains [LF; LF; LF] (_clean_text t) = false.
Proof.
  destruct (contains [LF; LF; LF] (_clean_text t)) eqn:E; [|reflexivity].
  apply strip_contains in E. rewrite sub_newlines_capped in E. discriminate.
Qed.

(** X6.  Whatever the input, the cleaned text holds no tab, no two
    consecutive spaces and no three consecutive newlines, and it has no
    leading or trailing whitespace. *)
Theorem clean_text_normal_form (t : str) :
  ~ In TAB (_clean_text t)
  /\ contains [SP; SP] (_clean_text t) = false
  /\ contains [LF; LF; LF] (_clean_text t) = false
  /\ strip (_clean_text t) = _clean_text t.
Proof.
  split; [apply clean_text_no_tab|].
  split; [apply clean_text_no_double_space|].
  split; [apply clean_text_no_triple_newline|].
  apply strip_idempotent.
Qed.

(** X7.  The texts that cleaning leaves unchanged are exactly those
    without CR LF pair, without tab, without two consecutive spaces,
    without three consecutive newlines and without leading or trailing
    whitespace. *)
Theorem clean_text_fixed_points (t : str) :
  _clean_text t = t
  <-> contains [CR; LF] t = false
      /\ ~ In TAB t
      /\ contains [SP; SP] t = false
      /\ contains [LF; LF; LF] t = false
      /\ strip t = t.
Proof.
  split.
  - intros H. split.
    + destruct (contains [CR; LF] t) eqn:E; [|reflexivity]. exfalso.
      pose proof (sub_crlf_shortens t E) as Hshort.
      assert (Hlen : (length (_clean_text t) <= length (sub_crlf t))%nat).
      { unfold _clean_text, sub_newlines, sub_spaces.
        pose proof (strip_length
                      (sub_newlines_from 0
                         (sub_spaces_from false (sub_tab (sub_crlf t))))).
        pose proof (sub_newlines_from_length
                      (sub_spaces_from false (sub_tab (sub_crlf t))) 0).
        pose proof (sub_tab_spaces_length (sub_crlf t) false). lia. }
      rewrite H in Hlen. lia.
    + rewrite <- H. split; [apply clean_text_no_tab|].
      split; [apply clean_text_no_double_space|].
      split; [apply clean_text_no_triple_newline|].
      apply strip_idempotent.
  - intros (Hcrlf & Htab & Hsp & Hnl & Hstrip). unfold _clean_text.
    rewrite (sub_crlf_fixed t Hcrlf), (sub_tab_fixed t Htab),
      (sub_spaces_fixed t Hsp), (sub_newlines_fixed t Hnl). exact Hstrip.
Qed.

(** *** Whitespace only *)

Lemma lstrip_blank (s : str) : blank s -> lstrip s = [].
Proof. induction 1 as [|c s Hc _ IH]; simpl; [|rewrite Hc]; auto. Qed.

Lemma strip_blank (s : str) : blank s -> strip s = [].
Proof. intros H. unfold strip. rewrite (lstrip_blank s H). reflexivity. Qed.

Lemma clean_text_blank (t : str) : blank t -> _clean_text t = [].
Proof.
  intros H. unfold _clean_text. apply strip_blank.
  apply List.Forall_forall. intros x Hx.
  apply sub_newlines_from_In, sub_spaces_from_In, sub_tab_In in Hx.
  destruct Hx as [->|Hx]; [reflexivity|].
  apply sub_crlf_In in Hx. unfold blank in H. rewrite List.Forall_forall in H. auto.
Qed.

(** X8.  [ingest_text] on a text of whitespace only (the empty text
    included) returns no document, and draws no identifier and no time. *)
Theorem ingest_text_blank (self : IngestionPipeline) (fuel : nat)
    (text source : str) (extra_metadata : option (gmap str value)) (w : World) :
  blank text ->
  ingest_text self fuel text source extra_metadata w = Returns ([], w).
Proof.
  intros H. unfold ingest_text. rewrite (clean_text_blank text H). reflexivity.
Qed.

Lemma ingest_text_blank_witness :
  blank [SP; TAB; LF; CR; LF; SP]
  /\ ingest_text small_pipeline 0 [SP; TAB; LF; CR; LF; SP] (py "notes.txt") None world_a
     = Returns ([], world_a).
Proof.
  assert (H : blank [SP; TAB; LF; CR; LF; SP]) by (repeat constructor).
  split; [exact H|]. exact (ingest_text_blank small_pipeline 0 _ _ None world_a H).
Defined.

Lemma collect_chunks_blank (self : IngestionPipeline) (fuel : nat) :
  forall pages page_num,
    Forall (fun page => blank (default [] page)) pages ->
    collect_chunks self fuel page_num pages = Returns [].
Proof.
  induction pages as [|page rest IH]; intros page_num H; simpl; [reflexivity|].
  apply Forall_cons in H as [Hpage Hrest].
  rewrite (strip_blank _ Hpage). simpl. apply IH. exact Hrest.
Qed.

(** X9.  [ingest_pdf] on a file whose pages all have no text, or
    whitespace only, returns no document, whatever the number of pages. *)
Theorem ingest_pdf_blank_pages (self : IngestionPipeline) (fuel : nat)
    (file : PdfFile) (extra_metadata : option (gmap str value)) (w : World) :
  Forall (fun page => blank (default [] page)) (pdf_pages file) ->
  ingest_pdf self fuel file extra_metadata w = Returns ([], w).
Proof.
  intros H. unfold ingest_pdf. rewrite (collect_chunks_blank self fuel _ 1 H).
  reflexivity.
Qed.

Lemma ingest_pdf_blank_pages_witness :
  Forall (fun page => blank (default [] page))
    (pdf_pages {| pdf_name := py "scan.pdf"; pdf_size := 4096;
                  pdf_pages := [None; Some [SP; LF]; Some []] |})
  /\ ingest_pdf small_pipeline 0
       {| pdf_name := py "scan.pdf"; pdf_size := 4096;
          pdf_pages := [None; Some [SP; LF]; Some []] |} None world_a
     = Returns ([], world_a).
Proof.
  assert (H : Forall (fun page => blank (default [] page))
                (pdf_pages {| pdf_name := py "scan.pdf"; pdf_size := 4096;
                              pdf_pages := [None; Some [SP; LF]; Some []] |})).
  { repeat constructor. }
  split; [exact H|].
  exact (ingest_pdf_blank_pages small_pipeline 0 _ None world_a H).
Defined.

(** ** What the documents of a call hold *)

(** X10.  The documents returned by [ingest_text] carry, in order and
    unchanged, the chunks that [split_text] returns for the cleaned text;
    each has the given source, no page number, and the caller's
    [extra_metadata] (or the empty dictionary) as [extra]. *)
Theorem ingest_text_documents (self : IngestionPipeline) (fuel : nat)
    (text source_id : str) (extra_metadata : option (gmap str value))
    (w : World) (documents : list Document) (w' : World) :
  ingest_text self fuel text source_id extra_metadata w = Returns (documents, w') ->
  (_clean_text text = [] /\ documents = [])
  \/ exists chunks,
       split_text (splitter self) fuel (_clean_text text) = Some chunks
       /\ map content documents = chunks
       /\ Forall (fun d => source (metadata d) = source_id
                           /\ page_number (metadata d) = None
                           /\ extra (metadata d) = dict_or_empty extra_metadata)
                 documents.
Proof.
  unfold ingest_text. destruct (_clean_text text) as [|c cleaned] eqn:Hclean.
  { intros [= <- _]. left. auto. }
  simpl negb. cbv iota. rewrite <- Hclean.
  destruct (split_text (splitter self) fuel (_clean_text text)) as [chunks|];
    simpl; [|discriminate].
  intros H. right. exists chunks. split; [reflexivity|].
  destruct chunks as [|chunk rest].
  { injection H as <- _. split; [reflexivity | constructor]. }
  apply text_documents_fields in H. split.
  - change content with (fun d => (document_view d).1.1.1.1.1).
    rewrite <- (map_map document_view (fun v => v.1.1.1.1.1)), H, map_map.
    rewrite (map_enumerate_snd (fun c : str => c)) by (intros; reflexivity).
    apply map_id.
  - apply List.Forall_forall. intros d Hd.
    apply (in_map document_view) in Hd. rewrite H in Hd.
    apply in_map_iff in Hd as ([j x] & Hf & _).
    change (source (metadata d)) with ((document_view d).1.1.1.1.2).
    change (page_number (metadata d)) with ((document_view d).1.2).
    change (extra (metadata d)) with ((document_view d).2).
    rewrite <- Hf. auto.
Qed.

Lemma ingest_text_documents_witness :
  exists documents w',
    ingest_text small_pipeline 10 (py "aaaa bbbb") (py "notes.txt") None world_a
      = Returns (documents, w')
    /\ map content documents = [py "aaaa"; py "bbbb"].
Proof.
  eexists _, _. split; [reflexivity|].
  destruct (ingest_text_documents small_pipeline 10 (py "aaaa bbbb") (py "notes.txt")
              None world_a _ _ eq_refl) as [[Hempty _]|(chunks & Hsplit & Hcontent & _)].
  - discriminate Hempty.
  - reflexivity.
Defined.

Lemma text_documents_nonempty (source_id : str)
    (extra_metadata : option (gmap str value)) (total : Z) :
  forall chunks i w documents w',
    text_documents source_id extra_metadata total i chunks w = Returns (documents, w') ->
    Forall (fun d => 1 <= len (content d)) documents.
Proof.
  intros chunks. induction chunks as [|chunk rest IH]; intros i w documents w'; simpl.
  - intros [= <- _]. constructor.
  - unfold new_DocumentMetadata.
    destruct ((0 <=? i) && (1 <=? total) && true); simpl; [|discriminate].
    unfold new_Document. destruct (Z.leb_spec 1 (len chunk)); simpl; [|discriminate].
    destruct (text_documents source_id extra_metadata total (i + 1) rest _)
      as [[documents0 w3]| |] eqn:Hrest; simpl; try discriminate.
    intros [= <- _]. constructor; [assumption|]. eapply IH. exact Hrest.
Qed.

Lemma pdf_documents_nonempty (file : PdfFile)
    (extra_metadata : option (gmap str value)) (total : Z) :
  forall all_chunks i w documents w',
    pdf_documents file extra_metadata total i all_chunks w = Returns (documents, w') ->
    Forall (fun d => 1 <= len (content d)) documents.
Proof.
  induction all_chunks as [|[[chunk page_num] page_chunk_idx] rest IH];
    intros i w documents w'; simpl.
  - intros [= <- _]. constructor.
  - unfold new_DocumentMetadata.
    destruct ((0 <=? i) && (1 <=? total) && (1 <=? page_num)); simpl; [|discriminate].
    unfold new_Document. destruct (Z.leb_spec 1 (len chunk)); simpl; [|discriminate].
    destruct (pdf_documents file extra_metadata total (i + 1) rest _)
      as [[documents0 w3]| |] eqn:Hrest; simpl; try discriminate.
    intros [= <- _]. constructor; [assumption|]. eapply IH. exact Hrest.
Qed.

(** X11.  No ingestion call returns a document with empty content. *)
Theorem ingestion_contents_nonempty (self : IngestionPipeline) (fuel : nat)
    (call : ingestion_call) (w : World) (documents : list Document) (w' : World) :
  run_ingestion self fuel call w = Returns (documents, w') ->
  Forall (fun d => 1 <= len (content d)) documents.
Proof.
  destruct call as [text source_id extra_metadata|file extra_metadata]; simpl.
  - unfold ingest_text. destruct (negb (truthy (_clean_text text))).
    { intros [= <- _]. constructor. }
    destruct (split_text (splitter self) fuel (_clean_text text)) as [chunks|];
      simpl; [|discriminate].
    destruct chunks; [intros [= <- _]; constructor|]. apply text_documents_nonempty.
  - unfold ingest_pdf.
    destruct (collect_chunks self fuel 1 (pdf_pages file)) as [all_chunks| |];
      simpl; try discriminate.
    destruct all_chunks; [intros [= <- _]; constructor|]. apply pdf_documents_nonempty.
Qed.

Lemma ingestion_contents_nonempty_witness :
  exists documents w',
    run_ingestion small_pipeline 10 (IngestPdf two_pages None) world_a
      = Returns (documents, w')
    /\ Forall (fun d => 1 <= len (content d)) documents.
Proof.
  eexists _, _. split; [reflexivity|].
  eapply (ingestion_contents_nonempty small_pipeline 10 (IngestPdf two_pages None) world_a).
  reflexivity.
Defined.

Lemma text_documents_raises (source_id : str)
    (extra_metadata : option (gmap str value)) (total : Z) :
  forall chunks i w,
    In [] chunks ->
    text_documents source_id extra_metadata total i chunks w = Raises ValidationError.
Proof.
  intros chunks. induction chunks as [|chunk rest IH]; intros i w Hin; [contradiction|].
  simpl. unfold new_DocumentMetadata.
  destruct ((0 <=? i) && (1 <=? total) && true); simpl; [|reflexivity].
  unfold new_Document. destruct (Z.leb_spec 1 (len chunk)) as [Hlen|]; simpl; [|reflexivity].
  destruct Hin as [->|Hin]; [unfold len in Hlen; simpl in Hlen; lia|].
  rewrite (IH _ _ Hin). reflexivity.
Qed.

(** X12.  When [split_text] returns an empty chunk (a buffer of
    whitespace only, flushed by the merge loop), [ingest_text] does not
    return: the validation of the document content raises
    [ValidationError]. *)
Theorem ingest_text_empty_chunk_raises (self : IngestionPipeline) (fuel : nat)
    (text source_id : str) (extra_metadata : option (gmap str value)) (w : World)
    (chunks : list str) :
  _clean_text text <> [] ->
  split_text (splitter self) fuel (_clean_text text) = Some chunks ->
  In [] chunks ->
  ingest_text self fuel text source_id extra_metadata w = Raises ValidationError.
Proof.
  intros Hclean Hsplit Hin. unfold ingest_text.
  apply truthy_true in Hclean. rewrite Hclean, Hsplit. simpl.
  destruct chunks as [|chunk rest]; [contradiction|].
  apply text_documents_raises. exact Hin.
Qed.

Lemma ingest_text_empty_chunk_raises_witness :
  _clean_text (py "aaaaaaaa" ++ [LF; LF; SP; LF; LF] ++ py "bbbbbbbb") <> []
  /\ split_text (splitter small_pipeline) 30
       (_clean_text (py "aaaaaaaa" ++ [LF; LF; SP; LF; LF] ++ py "bbbbbbbb"))
     = Some [py "aaaaa"; py "aaa"; []; py "bbbbb"; py "bbb"]
  /\ In [] [py "aaaaa"; py "aaa"; []; py "bbbbb"; py "bbb"]
  /\ ingest_text small_pipeline 30
       (py "aaaaaaaa" ++ [LF; LF; SP; LF; LF] ++ py "bbbbbbbb") (py "notes.txt")
       None world_a
     = Raises ValidationError.
Proof.
  assert (H1 : _clean_text (py "aaaaaaaa" ++ [LF; LF; SP; LF; LF] ++ py "bbbbbbbb") <> [])
    by discriminate.
  assert (H3 : In [] [py "aaaaa"; py "aaa"; []; py "bbbbb"; py "bbb"])
    by (right; right; left; reflexivity).
  split; [exact H1|]. split; [reflexivity|]. split; [exact H3|].
  exact (ingest_text_empty_chunk_raises small_pipeline 30 _ (py "notes.txt") None
           world_a _ H1 eq_refl H3).
Defined.

(** ** Identifiers and creation times *)

Lemma text_documents_fresh (source_id : str)
    (extra_metadata : option (gmap str value)) (total : Z) :
  forall chunks i w documents w',
    text_documents source_id extra_metadata total i chunks w = Returns (documents, w') ->
    fresh_values_drawn w documents w'.
Proof.
  intros chunks. induction chunks as [|chunk rest IH]; intros i w documents w'; simpl.
  - intros [= <- <-]. unfold fresh_values_drawn. simpl. repeat split; lia.
  - unfold new_DocumentMetadata.
    destruct ((0 <=? i) && (1 <=? total) && true); simpl; [|discriminate].
    unfold new_Document. destruct (1 <=? len chunk); simpl; [|discriminate].
    destruct (text_documents source_id extra_metadata total (i + 1) rest _)
      as [[documents0 w3]| |] eqn:Hrest; simpl; try discriminate.
    intros [= <- <-]. apply IH in Hrest.
    destruct Hrest as (Hid & Hat & Hu & Hn & Hcu & Hcn). simpl in *.
    unfold fresh_values_drawn. simpl.
    rewrite Hid, Hat, Hu, Hn, Hcu, Hcn. repeat split; lia.
Qed.

Lemma pdf_documents_fresh (file : PdfFile)
    (extra_metadata : option (gmap str value)) (total : Z) :
  forall all_chunks i w documents w',
    pdf_documents file extra_metadata total i all_chunks w = Returns (documents, w') ->
    fresh_values_drawn w documents w'.
Proof.
  induction all_chunks as [|[[chunk page_num] page_chunk_idx] rest IH];
    intros i w documents w'; simpl.
  - intros [= <- <-]. unfold fresh_values_drawn. simpl. repeat split; lia.
  - unfold new_DocumentMetadata.
    destruct ((0 <=? i) && (1 <=? total) && (1 <=? page_num)); simpl; [|discriminate].
    unfold new_Document. destruct (1 <=? len chunk); simpl; [|discriminate].
    destruct (pdf_documents file extra_metadata total (i + 1) rest _)
      as [[documents0 w3]| |] eqn:Hrest; simpl; try discriminate.
    intros [= <- <-]. apply IH in Hrest.
    destruct Hrest as (Hid & Hat & Hu & Hn & Hcu & Hcn). simpl in *.
    unfold fresh_values_drawn. simpl.
    rewrite Hid, Hat, Hu, Hn, Hcu, Hcn. repeat split; lia.
Qed.

Lemma fresh_values_drawn_nil (w : World) : fresh_values_drawn w [] w.
Proof. unfold fresh_values_drawn. simpl. repeat split; lia. Qed.

Lemma run_ingestion_fresh (self : IngestionPipeline) (fuel : nat)
    (call : ingestion_call) (w : World) (documents : list Document) (w' : World) :
  run_ingestion self fuel call w = Returns (documents, w') ->
  fresh_values_drawn w documents w'.
Proof.
  destruct call as [text source_id extra_metadata|file extra_metadata]; simpl.
  - unfold ingest_text. destruct (negb (truthy (_clean_text text))).
    { intros [= <- <-]. apply fresh_values_drawn_nil. }
    destruct (split_text (splitter self) fuel (_clean_text text)) as [chunks|];
      simpl; [|discriminate].
    destruct chunks; [intros [= <- <-]; apply fresh_values_drawn_nil|].
    apply text_documents_fresh.
  - unfold ingest_pdf.
    destruct (collect_chunks self fuel 1 (pdf_pages file)) as [all_chunks| |];
      simpl; try discriminate.
    destruct all_chunks; [intros [= <- <-]; apply fresh_values_drawn_nil|].
    apply pdf_documents_fresh.
Qed.

(** X13.  An ingestion call that returns [N] documents has called
    [uuid.uuid4()] and [datetime.now()] exactly [N] times each: the
    [k]-th document holds the [k]-th next identifier and the [k]-th next
    time. *)
Theorem ingestion_fresh_values (self : IngestionPipeline) (fuel : nat)
    (call : ingestion_call) (w : World) (documents : list Document) (w' : World) :
  run_ingestion self fuel call w = Returns (documents, w') ->
  fresh_values_drawn w documents w'.
Proof. apply run_ingestion_fresh. Qed.

Lemma ingestion_fresh_values_witness :
  exists documents w',
    run_ingestion small_pipeline 10 (IngestPdf two_pages None) world_c
      = Returns (documents, w')
    /\ fresh_values_drawn world_c documents w'.
Proof.
  eexists _, _. split; [reflexivity|].
  eapply (ingestion_fresh_values small_pipeline 10 (IngestPdf two_pages None) world_c).
  reflexivity.
Defined.

Lemma NoDup_map_injective {A B} (f : A -> B) (l : list A) :
  (forall x y, f x = f y -> x = y) -> NoDup l -> NoDup (map f l).
Proof.
  intros Hf. induction 1 as [|x l Hx _ IH]; simpl; constructor; [|exact IH].
  intros Hin. apply list_elem_of_In, in_map_iff in Hin as (y & Hy & Hin).
  apply Hf in Hy. subst y. apply Hx. apply list_elem_of_In. exact Hin.
Qed.

(** X14.  When [uuid.uuid4()] never returns a value twice, the documents
    of two successive ingestion calls all have different identifiers:
    within each call and across the two. *)
Theorem successive_ingestions_ids_distinct
    (self1 self2 : IngestionPipeline) (fuel1 fuel2 : nat)
    (call1 call2 : ingestion_call) (w w1 w2 : World)
    (documents1 documents2 : list Document) :
  (forall i j, uuid4_values w i = uuid4_values w j -> i = j) ->
  run_ingestion self1 fuel1 call1 w = Returns (documents1, w1) ->
  run_ingestion self2 fuel2 call2 w1 = Returns (documents2, w2) ->
  NoDup (map id (documents1 ++ documents2)).
Proof.
  intros Hinj H1 H2.
  apply run_ingestion_fresh in H1 as (Hid1 & _ & Hu1 & _ & Hcu1 & _).
  apply run_ingestion_fresh in H2 as (Hid2 & _ & _).
  rewrite map_app, Hid1, Hid2, Hu1, Hcu1, <- map_app, <- seq_app.
  apply NoDup_map_injective; [exact Hinj | apply NoDup_seq].
Qed.

Lemma successive_ingestions_ids_distinct_witness :
  exists documents1 w1 documents2 w2,
    run_ingestion small_pipeline 10 (IngestText (py "aaaa bbbb") (py "notes.txt") None)
      world_c = Returns (documents1, w1)
    /\ run_ingestion small_pipeline 10 (IngestPdf two_pages None) w1
       = Returns (documents2, w2)
    /\ NoDup (map id (documents1 ++ documents2)).
Proof.
  eexists _, _, _, _.
  match goal with
  | |- ?call1 = Returns (?d1, ?w1) /\ ?call2 = Returns (?d2, ?w2) /\ _ =>
      assert (H1 : call1 = Returns (d1, w1)) by (vm_compute; reflexivity);
      assert (H2 : call2 = Returns (d2, w2)) by (vm_compute; reflexivity)
  end.
  split; [exact H1|]. split; [exact H2|].
  refine (successive_ingestions_ids_distinct small_pipeline small_pipeline 10 10
            (IngestText (py "aaaa bbbb") (py "notes.txt") None)
            (IngestPdf two_pages None) world_c _ _ _ _ _ H1 H2).
  intros i j H. simpl in H. injection H as H. apply Nat2N.inj. exact H.
Defined.

(** ** The documents of a PDF *)

Lemma collect_chunks_pages (self : IngestionPipeline) (fuel : nat) :
  forall pages page_num all_chunks,
    collect_chunks self fuel page_num pages = Returns all_chunks ->
    map (fun entry : str * Z * Z => (entry.1.1, Some entry.1.2)) all_chunks
    = concat (map (fun '(n, page) =>
                     map (fun chunk => (chunk, Some n)) (chunks_of_page self fuel page))
                  (enumerate_from page_num pages)).
Proof.
  induction pages as [|page rest IH]; intros page_num all_chunks; simpl.
  - intros [= <-]. reflexivity.
  - unfold chunks_of_page at 1.
    destruct (truthy (strip (default [] page))); simpl.
    + destruct (split_text (splitter self) fuel (_clean_text (default [] page)))
        as [chunks_here|]; simpl; [|discriminate].
      destruct (collect_chunks self fuel (page_num + 1) rest) as [more| |] eqn:Hmore;
        simpl; try discriminate.
      intros [= <-]. rewrite map_app, map_map. f_equal.
      * apply map_enumerate_snd. intros j chunk. reflexivity.
      * apply IH. exact Hmore.
    + apply IH.
Qed.

(** X15.  The documents returned by [ingest_pdf] are, page after page in
    the order of the pages, the chunks that [split_text] returns for the
    cleaned text of each page that has text, each with the 1-based number
    of its page; every document has the file name as source.  A page is
    split on its own: no chunk holds text of two pages. *)
Theorem ingest_pdf_documents (self : IngestionPipeline) (fuel : nat)
    (file : PdfFile) (extra_metadata : option (gmap str value))
    (w : World) (documents : list Document) (w' : World) :
  ingest_pdf self fuel file extra_metadata w = Returns (documents, w') ->
  map (fun d => (content d, page_number (metadata d))) documents
  = concat (map (fun '(n, page) =>
                   map (fun chunk => (chunk, Some n)) (chunks_of_page self fuel page))
                (enumerate_from 1 (pdf_pages file)))
  /\ Forall (fun d => source (metadata d) = pdf_name file) documents.
Proof.
  unfold ingest_pdf.
  destruct (collect_chunks self fuel 1 (pdf_pages file)) as [all_chunks| |] eqn:Hcollect;
    simpl; try discriminate.
  apply collect_chunks_pages in Hcollect. rewrite <- Hcollect.
  destruct all_chunks as [|entry rest] eqn:Hall.
  { intros [= <- _]. split; [reflexivity | constructor]. }
  rewrite <- Hall in *. clear Hall entry rest Hcollect.
  intros H. apply pdf_documents_fields in H. split.
  - change (fun d => (content d, page_number (metadata d)))
      with (fun d => ((document_view d).1.1.1.1.1, (document_view d).1.2)).
    rewrite <- (map_map document_view (fun v => (v.1.1.1.1.1, v.1.2))), H, map_map.
    apply map_enumerate_snd. intros j [[c p] k]. reflexivity.
  - apply List.Forall_forall. intros d Hd.
    apply (in_map document_view) in Hd. rewrite H in Hd.
    apply in_map_iff in Hd as ([j [[c p] k]] & Hf & _).
    change (source (metadata d)) with ((document_view d).1.1.1.1.2).
    rewrite <- Hf. reflexivity.
Qed.

Lemma ingest_pdf_documents_witness :
  exists documents w',
    ingest_pdf small_pipeline 10 two_pages None world_a = Returns (documents, w')
    /\ map (fun d => (content d, page_number (metadata d))) documents
       = [(py "aaaaa", Some 1); (py "a", Some 1); (py "bb", Some 3)].
Proof.
  eexists _, _. split; [reflexivity|].
  exact (proj1 (ingest_pdf_documents small_pipeline 10 two_pages None world_a _ _
                  eq_refl)).
Defined.

Lemma collect_chunks_page_numbers (self : IngestionPipeline) (fuel : nat) :
  forall pages page_num all_chunks,
    collect_chunks self fuel page_num pages = Returns all_chunks ->
    Forall (fun entry : str * Z * Z =>
              page_num <= entry.1.2 < page_num + len pages
              /\ exists page_text,
                   pages !! Z.to_nat (entry.1.2 - page_num) = Some (Some page_text)
                   /\ strip page_text <> [])
           all_chunks
    /\ StronglySorted Z.le (map (fun entry : str * Z * Z => entry.1.2) all_chunks).
Proof.
  induction pages as [|page rest IH]; intros page_num all_chunks; simpl.
  - intros [= <-]. split; constructor.
  - assert (Hshift : forall rest_chunks,
              Forall (fun entry : str * Z * Z =>
                        page_num + 1 <= entry.1.2 < page_num + 1 + len rest
                        /\ exists page_text,
                             rest !! Z.to_nat (entry.1.2 - (page_num + 1))
                               = Some (Some page_text)
                             /\ strip page_text <> [])
                     rest_chunks ->
              Forall (fun entry : str * Z * Z =>
                        page_num <= entry.1.2 < page_num + len (page :: rest)
                        /\ exists page_text,
                             (page :: rest) !! Z.to_nat (entry.1.2 - page_num)
                               = Some (Some page_text)
                             /\ strip page_text <> [])
                     rest_chunks).
    { intros rest_chunks Hall. eapply Forall_impl; [exact Hall|].
      intros entry (Hrange & t & Ht & Hne).
      unfold len in *. simpl length. split; [lia|]. exists t. split; [|exact Hne].
      replace (Z.to_nat (entry.1.2 - page_num))
        with (S (Z.to_nat (entry.1.2 - (page_num + 1)))) by lia.
      exact Ht. }
    destruct (truthy (strip (default [] page))) eqn:Hpage; simpl.
    + destruct (split_text (splitter self) fuel (_clean_text (default [] page)))
        as [chunks_here|]; simpl; [|discriminate].
      destruct (collect_chunks self fuel (page_num + 1) rest) as [more| |] eqn:Hmore;
        simpl; try discriminate.
      intros [= <-]. destruct (IH _ _ Hmore) as [Hrest Hsorted].
      assert (Hhere : Forall (fun entry : str * Z * Z => entry.1.2 = page_num)
                (map (fun '(chunk_idx, chunk) => (chunk, page_num, chunk_idx))
                     (enumerate_from 0 chunks_here))).
      { apply List.Forall_forall. intros entry Hentry.
        apply in_map_iff in Hentry as ([j c] & <- & _). reflexivity. }
      split.
      * apply Forall_app. split; [|apply Hshift; exact Hrest].
        eapply Forall_impl; [exact Hhere|]. intros entry ->.
        unfold len. simpl length. split; [lia|].
        rewrite Z.sub_diag. simpl.
        destruct page as [page_text|]; [|discriminate Hpage].
        exists page_text. split; [reflexivity|].
        simpl in Hpage. destruct (strip page_text); [discriminate Hpage | discriminate].
      * rewrite map_app. apply StronglySorted_app_2; [| |exact Hsorted].
        -- intros p q Hp Hq.
           apply list_elem_of_In, in_map_iff in Hp as (entry1 & <- & Hentry1).
           apply list_elem_of_In, in_map_iff in Hq as (entry2 & <- & Hentry2).
           rewrite List.Forall_forall in Hhere, Hrest.
           rewrite (Hhere _ Hentry1). specialize (Hrest _ Hentry2). lia.
        -- clear -Hhere. induction Hhere as [|entry l Hentry Hl IHl]; simpl;
             constructor; [exact IHl|].
           apply List.Forall_forall. intros q Hq.
           apply in_map_iff in Hq as (entry2 & <- & Hentry2).
           rewrite List.Forall_forall in Hl. rewrite Hentry, (Hl _ Hentry2). lia.
    + intros Hrest. destruct (IH _ _ Hrest) as [Hrange Hsorted].
      split; [apply Hshift; exact Hrange | exact Hsorted].
Qed.

(** X16.  Every document returned by [ingest_pdf] has a page number: it
    lies between 1 and the number of pages of the file, the page it names
    has text that is not whitespace only, and the page numbers of the
    documents never decrease along the returned list. *)
Theorem ingest_pdf_page_numbers (self : IngestionPipeline) (fuel : nat)
    (file : PdfFile) (extra_metadata : option (gmap str value))
    (w : World) (documents : list Document) (w' : World) :
  ingest_pdf self fuel file extra_metadata w = Returns (documents, w') ->
  exists page_nums,
    map (fun d => page_number (metadata d)) documents = map Some page_nums
    /\ StronglySorted Z.le page_nums
    /\ Forall (fun page_num =>
                 1 <= page_num <= len (pdf_pages file)
                 /\ exists page_text,
                      pdf_pages file !! Z.to_nat (page_num - 1) = Some (Some page_text)
                      /\ strip page_text <> [])
              page_nums.
Proof.
  unfold ingest_pdf.
  destruct (collect_chunks self fuel 1 (pdf_pages file)) as [all_chunks| |] eqn:Hcollect;
    simpl; try discriminate.
  apply collect_chunks_page_numbers in Hcollect as [Hrange Hsorted].
  intros H. exists (map (fun entry : str * Z * Z => entry.1.2) all_chunks).
  split; [|split; [exact Hsorted|]].
  - destruct all_chunks as [|entry rest] eqn:Hall.
    { injection H as <- _. reflexivity. }
    rewrite <- Hall in *. clear Hall entry rest.
    apply pdf_documents_fields in H.
    change (fun d => page_number (metadata d)) with (fun d => (document_view d).1.2).
    rewrite <- (map_map document_view (fun v => v.1.2)), H, !map_map.
    apply map_enumerate_snd. intros j [[c p] k]. reflexivity.
  - apply List.Forall_forall. intros p Hp.
    apply in_map_iff in Hp as (entry & <- & Hentry).
    rewrite List.Forall_forall in Hrange.
    destruct (Hrange _ Hentry) as (Hr & t & Ht & Hne).
    split; [lia|]. exists t. split; assumption.
Qed.

Lemma ingest_pdf_page_numbers_witness :
  exists documents w',
    ingest_pdf small_pipeline 10 two_pages None world_a = Returns (documents, w')
    /\ exists page_nums,
         map (fun d => page_number (metadata d)) documents = map Some page_nums
         /\ StronglySorted Z.le page_nums
         /\ Forall (fun page_num =>
                      1 <= page_num <= len (pdf_pages two_pages)
                      /\ exists page_text,
                           pdf_pages two_pages !! Z.to_nat (page_num - 1)
                             = Some (Some page_text)
                           /\ strip page_text <> [])
                   page_nums.
Proof.
  eexists _, _. split; [reflexivity|].
  eapply (ingest_pdf_page_numbers small_pipeline 10 two_pages None world_a).
  reflexivity.
Defined.

(** ** The caller's metadata *)

Lemma run_ingestion_extra (self : IngestionPipeline) (fuel : nat)
    (call : ingestion_call) (w : World) (documents : list Document) (w' : World) :
  run_ingestion self fuel call w = Returns (documents, w') ->
  Forall (fun d => exists fixed,
            extra (metadata d)
            = dict_update fixed (dict_or_empty (call_extra_metadata call)))
         documents.
Proof.
  destruct call as [text source_id extra_metadata|file extra_metadata]; simpl.
  - unfold ingest_text. destruct (negb (truthy (_clean_text text))).
    { intros [= <- _]. constructor. }
    destruct (split_text (splitter self) fuel (_clean_text text)) as [chunks|];
      simpl; [|discriminate].
    destruct chunks as [|chunk rest]; [intros [= <- _]; constructor|].
    intros H. apply text_documents_fields in H.
    apply List.Forall_forall. intros d Hd.
    apply (in_map document_view) in Hd. rewrite H in Hd.
    apply in_map_iff in Hd as ([j x] & Hf & _).
    change (extra (metadata d)) with ((document_view d).2). rewrite <- Hf. simpl.
    exists ∅. unfold dict_update. rewrite (right_id ∅ (∪)). reflexivity.
  - unfold ingest_pdf.
    destruct (collect_chunks self fuel 1 (pdf_pages file)) as [all_chunks| |];
      simpl; try discriminate.
    destruct all_chunks as [|entry rest] eqn:Hall; [intros [= <- _]; constructor|].
    rewrite <- Hall. clear Hall entry rest.
    intros H. apply pdf_documents_fields in H.
    apply List.Forall_forall. intros d Hd.
    apply (in_map document_view) in Hd. rewrite H in Hd.
    apply in_map_iff in Hd as ([j [[c p] k]] & Hf & _).
    change (extra (metadata d)) with ((document_view d).2). rewrite <- Hf. simpl.
    eexists. reflexivity.
Qed.

(** X17.  Every entry of the caller's [extra_metadata] is found, with the
    caller's value, in the [extra] of every document that an ingestion
    call returns and in the metadata that [to_chroma_format] builds from
    the document, whatever its key: it wins over the entries that
    [ingest_pdf] adds and over the fixed keys of the serialized
    metadata. *)
Theorem ingestion_keeps_caller_metadata
    (isoformat : datetime -> str) (self : IngestionPipeline) (fuel : nat)
    (call : ingestion_call) (w : World) (documents : list Document) (w' : World)
    (k : str) (v : value) :
  run_ingestion self fuel call w = Returns (documents, w') ->
  dict_or_empty (call_extra_metadata call) !! k = Some v ->
  Forall (fun d => extra (metadata d) !! k = Some v
                   /\ chroma_metadata (to_chroma_format isoformat d) !! k = Some v)
         documents.
Proof.
  intros H Hk. apply run_ingestion_extra in H.
  eapply Forall_impl; [exact H|]. intros d [fixed Hd].
  assert (He : extra (metadata d) !! k = Some v).
  { rewrite Hd, dict_update_lookup, Hk. reflexivity. }
  split; [exact He|].
  unfold to_chroma_format. simpl chroma_metadata.
  rewrite dict_update_lookup, He. reflexivity.
Qed.

Lemma ingestion_keeps_caller_metadata_witness :
  exists documents w',
    run_ingestion small_pipeline 10
      (IngestPdf two_pages (Some {[ py "source" := VStr (py "archive") ]})) world_a
      = Returns (documents, w')
    /\ Forall (fun d =>
                 extra (metadata d) !! py "source" = Some (VStr (py "archive"))
                 /\ chroma_metadata (to_chroma_format (fun _ => py "2026-01-01T00:00:00") d)
                      !! py "source" = Some (VStr (py "archive")))
              documents.
Proof.
  eexists _, _. split; [reflexivity|].
  eapply (ingestion_keeps_caller_metadata (fun _ => py "2026-01-01T00:00:00")
            small_pipeline 10
            (IngestPdf two_pages (Some {[ py "source" := VStr (py "archive") ]}))
            world_a).
  - reflexivity.
  - reflexivity.
Defined.

(** ** Texts on which splitting never returns *)

Lemma substring_length (frag text : str) :
  substring frag text -> len frag <= len text.
Proof. intros (l & r & ->). rewrite !len_app. pose proof (len_nonneg l). pose proof (len_nonneg r). lia. Qed.

Lemma substring_app_cases (run a b : str) :
  substring run (a ++ b) ->
  substring run a \/ substring run b
  \/ ((exists c, In c a /\ In c run) /\ (exists c b', b = c :: b' /\ In c run)).
Proof.
  intros (l & r & H).
  apply app_eq_inv in H as [(k & Ha & Hb)|(k & Hl & Hb)].
  - symmetry in Hb. apply app_eq_inv in Hb as [(k' & Hk & Hr)|(k' & Hrun & Hb)].
    + left. exists l, k'. rewrite Ha, Hk. reflexivity.
    + destruct k as [|c k0].
      { right. left. exists [], r. simpl in Hrun. rewrite Hb, Hrun. reflexivity. }
      destruct k' as [|c' k0'].
      { left. exists l, []. rewrite app_nil_r in *. rewrite Ha, Hrun. reflexivity. }
      right. right. split.
      * exists c. rewrite Ha, Hrun. split; [apply in_or_app; right|]; left; reflexivity.
      * exists c', (k0' ++ r). split; [rewrite Hb; reflexivity|].
        rewrite Hrun. apply in_or_app. right. left. reflexivity.
  - right. left. exists k, r. exact Hb.
Qed.

(** A run of characters that are not in the separator lies inside one
    piece of the split. *)
Lemma join_run_piece (sep run : str) :
  sep <> [] -> (forall c, In c run -> ~ In c sep) -> run <> [] ->
  forall pieces,
    substring run (join sep pieces) ->
    exists piece, In piece pieces /\ substring run piece.
Proof.
  intros Hsep Hfree Hrun pieces. induction pieces as [|p ps IH]; intros H.
  - destruct H as (l & r & H). simpl in H.
    destruct l; [destruct run; [congruence | discriminate] | discriminate].
  - destruct ps as [|q ps'].
    { exists p. split; [left; reflexivity | exact H]. }
    change (join sep (p :: q :: ps')) with (p ++ sep ++ join sep (q :: ps')) in H.
    apply substring_app_cases in H as [H|[H|[_ (c & b' & Hb & Hc)]]].
    + exists p. split; [left; reflexivity | exact H].
    + apply substring_app_cases in H as [H|[H|[(c & Hc1 & Hc2) _]]].
      * destruct H as (l & r & H). destruct run as [|c run']; [congruence|].
        exfalso. apply (Hfree c); [left; reflexivity|].
        rewrite H. apply in_or_app. right. left. reflexivity.
      * destruct (IH H) as (piece & Hin & Hsub).
        exists piece. split; [right; exact Hin | exact Hsub].
      * exfalso. exact (Hfree c Hc2 Hc1).
    + exfalso. apply (Hfree c Hc). destruct sep as [|s sep']; [congruence|].
      injection Hb as -> _. left. reflexivity.
Qed.

Lemma merge_splits_stuck (self : RecursiveCharacterTextSplitter)
    (recurse : str -> option (list str)) (separator : str) :
  forall splits chunks current_chunk,
    (exists piece, In piece splits /\ chunk_size self < len piece
                   /\ recurse piece = None) ->
    merge_splits self recurse separator splits chunks current_chunk = None.
Proof.
  induction splits as [|piece0 splits IH]; intros chunks current_chunk
    (piece & Hin & Hlen & Hrec); [contradiction|].
  simpl. destruct Hin as [->|Hin].
  - destruct (Z.leb_spec
                (len (current_chunk
                      ++ (if truthy current_chunk then separator else []) ++ piece))
                (chunk_size self)) as [Hle|_].
    { rewrite !len_app in Hle. pose proof (len_nonneg current_chunk).
      pose proof (len_nonneg (if truthy current_chunk then separator else [])). lia. }
    destruct (Z.gtb_spec (len piece) (chunk_size self)); [|lia].
    rewrite Hrec. reflexivity.
  - assert (Hex : exists piece, In piece splits /\ chunk_size self < len piece
                                /\ recurse piece = None) by eauto.
    destruct (_ <=? _); [apply IH; exact Hex|].
    destruct (_ >? _); [|apply IH; exact Hex].
    destruct (recurse piece0); [apply IH; exact Hex | reflexivity].
Qed.

Lemma try_separators_stuck (self : RecursiveCharacterTextSplitter) (run : str) (fuel : nat) :
  0 < chunk_overlap self -> 0 <= chunk_size self < len run ->
  forall seps text,
    In [] seps -> separator_free seps run -> substring run text ->
    try_separators self fuel seps text = None.
Proof.
  intros Hco Hcs.
  assert (Hrun : run <> []).
  { intros ->. unfold len in Hcs. simpl in Hcs. lia. }
  induction seps as [|sep rest IH]; intros text Hnil Hfree Hsub; [contradiction|].
  simpl. destruct sep as [|s sep'].
  - simpl. apply split_by_character_diverges; [exact Hco|].
    intros ->. destruct Hsub as (l & r & H).
    destruct l; [destruct run; [congruence | discriminate] | discriminate].
  - destruct Hnil as [Hnil|Hnil]; [discriminate|].
    assert (Hfree' : separator_free rest run).
    { intros sep c Hsep. apply Hfree. right. exact Hsep. }
    cbn [truthy negb].
    destruct (contains (s :: sep') text); [|apply IH; assumption].
    unfold split_on. rewrite merge_splits_stuck; [reflexivity|].
    destruct (join_run_piece (s :: sep') run ltac:(discriminate)
                (fun c Hc => Hfree (s :: sep') c ltac:(left; reflexivity) Hc) Hrun
                (split (s :: sep') text)) as (piece & Hin & Hpiece).
    { rewrite join_split by discriminate. exact Hsub. }
    exists piece. pose proof (substring_length _ _ Hpiece) as Hlen.
    split; [exact Hin|]. split; [lia|].
    destruct (Z.leb_spec (len piece) (chunk_size self)); [lia|].
    apply IH; assumption.
Qed.

(** X18.  With a positive [chunk_overlap] and the empty-string marker in
    the hierarchy, [split_text] never returns on a text that contains a
    run of more than [chunk_size] characters none of which occurs in a
    separator: the recursion reaches [_split_by_character] on a piece
    that holds the run, and its loop does not exit. *)
Theorem split_text_never_returns (self : RecursiveCharacterTextSplitter)
    (run text : str) :
  0 < chunk_overlap self -> 0 <= chunk_size self < len run ->
  In [] (separators self) -> separator_free (separators self) run ->
  substring run text ->
  forall fuel, split_text self fuel text = None.
Proof.
  intros Hco Hcs Hnil Hfree Hsub fuel.
  unfold split_text, _split_text_recursive.
  pose proof (substring_length _ _ Hsub) as Hlen.
  destruct (Z.leb_spec (len text) (chunk_size self)); [lia|].
  apply (try_separators_stuck self run fuel Hco Hcs); assumption.
Qed.

Lemma separator_freeb_spec (seps : list str) (run : str) :
  separator_freeb seps run = true -> separator_free seps run.
Proof.
  unfold separator_freeb, separator_free. intros H sep c Hsep Hc Hin.
  rewrite forallb_forall in H. specialize (H sep Hsep).
  rewrite forallb_forall in H. specialize (H c Hc).
  apply negb_true_iff in H.
  assert (Hex : existsb (N.eqb c) sep = true).
  { apply existsb_exists. exists c. split; [exact Hin | apply N.eqb_refl]. }
  congruence.
Qed.

Lemma split_text_never_returns_witness :
  0 < chunk_overlap (mk 5 2 DEFAULT_SEPARATORS)
  /\ 0 <= chunk_size (mk 5 2 DEFAULT_SEPARATORS) < len (py "aaaaaaaa")
  /\ substring (py "aaaaaaaa") (py "see aaaaaaaa. ok")
  /\ forall fuel,
       split_text (mk 5 2 DEFAULT_SEPARATORS) fuel (py "see aaaaaaaa. ok") = None.
Proof.
  assert (H1 : 0 < chunk_overlap (mk 5 2 DEFAULT_SEPARATORS)) by (simpl; lia).
  assert (H2 : 0 <= chunk_size (mk 5 2 DEFAULT_SEPARATORS) < len (py "aaaaaaaa"))
    by (vm_compute; split; [discriminate | reflexivity]).
  assert (H3 : substring (py "aaaaaaaa") (py "see aaaaaaaa. ok"))
    by (exists (py "see "), (py ". ok"); reflexivity).
  split; [exact H1|]. split; [exact H2|]. split; [exact H3|].
  apply (split_text_never_returns (mk 5 2 DEFAULT_SEPARATORS) (py "aaaaaaaa")
           (py "see aaaaaaaa. ok") H1 H2).
  - simpl. tauto.
  - apply separator_freeb_spec. reflexivity.
  - exact H3.
Defined.

Lemma pipeline_init_overlap (settings : Settings)
    (chunk_size_arg chunk_overlap_arg : option Z) (self : IngestionPipeline) :
  pipeline_init settings chunk_size_arg chunk_overlap_arg = Returns self ->
  separators (splitter self) = DEFAULT_SEPARATORS
  /\ chunk_overlap (splitter self) = int_or chunk_overlap_arg (CHUNK_OVERLAP settings)
  /\ chunk_size (splitter self) = int_or chunk_size_arg (CHUNK_SIZE settings).
Proof. unfold pipeline_init, init. simpl. intros [= <-]. simpl. auto. Qed.

Lemma collect_chunks_stuck (self : IngestionPipeline) (fuel : nat) (page_text : str) :
  _clean_text page_text <> [] ->
  split_text (splitter self) fuel (_clean_text page_text) = None ->
  forall pages page_num,
    In (Some page_text) pages ->
    collect_chunks self fuel page_num pages = Diverges.
Proof.
  intros Hclean Hsplit. induction pages as [|page rest IH]; intros page_num Hin;
    [contradiction|].
  simpl. destruct Hin as [->|Hin].
  - simpl. destruct (strip page_text) eqn:Hstrip.
    { exfalso. apply Hclean, clean_text_blank, strip_nil_blank. exact Hstrip. }
    simpl. rewrite Hsplit. reflexivity.
  - destruct (negb (truthy (strip (default [] page)))); [apply IH; exact Hin|].
    destruct (split_text (splitter self) fuel (_clean_text (default [] page)));
      simpl; [|reflexivity].
    rewrite (IH _ Hin). reflexivity.
Qed.

(** X19.  A pipeline built by [IngestionPipeline(...)] while
    [settings.CHUNK_OVERLAP] is positive always has a positive overlap
    ([chunk_overlap=0] is replaced by the setting) and the default
    hierarchy.  Its [ingest_text] and [ingest_pdf] therefore never return
    when the cleaned text, or the cleaned text of one page, contains a run
    of more than [chunk_size] characters none of which occurs in a default
    separator. *)
Theorem ingestion_never_returns (settings : Settings)
    (chunk_size_arg chunk_overlap_arg : option Z) (self : IngestionPipeline)
    (run text : str) (call : ingestion_call) :
  pipeline_init settings chunk_size_arg chunk_overlap_arg = Returns self ->
  0 < CHUNK_OVERLAP settings ->
  (forall c, chunk_overlap_arg = Some c -> 0 <= c) ->
  0 <= chunk_size (splitter self) < len run ->
  separator_free DEFAULT_SEPARATORS run ->
  In text (call_texts call) ->
  substring run (_clean_text text) ->
  forall fuel w, run_ingestion self fuel call w = Diverges.
Proof.
  intros Hinit Hsettings Harg Hcs Hfree Hin Hsub fuel w.
  apply pipeline_init_overlap in Hinit as (Hseps & Hco & _).
  assert (Hpos : 0 < chunk_overlap (splitter self)).
  { rewrite Hco. destruct chunk_overlap_arg as [c|]; simpl; [|exact Hsettings].
    specialize (Harg c eq_refl). destruct (Z.eqb_spec c 0); lia. }
  assert (Hsplit : split_text (splitter self) fuel (_clean_text text) = None).
  { apply (split_text_never_returns (splitter self) run); try assumption.
    - rewrite Hseps. simpl. tauto.
    - rewrite Hseps. exact Hfree. }
  assert (Hclean : _clean_text text <> []).
  { intros Hnil. rewrite Hnil in Hsub. destruct Hsub as (l & r & Hsub).
    destruct l; [|discriminate]. destruct run; [|discriminate].
    unfold len in Hcs. simpl in Hcs. lia. }
  destruct call as [text0 source_id extra_metadata|file extra_metadata]; simpl in *.
  - destruct Hin as [->|[]]. unfold ingest_text.
    apply truthy_true in Hclean. rewrite Hclean, Hsplit. reflexivity.
  - unfold ingest_pdf.
    apply in_map_iff in Hin as (page & Hpage & Hin).
    destruct page as [page_text|]; simpl in Hpage; subst text.
    + rewrite (collect_chunks_stuck self fuel page_text Hclean Hsplit _ _ Hin).
      reflexivity.
    + exfalso. apply Hclean. reflexivity.
Qed.

Lemma ingestion_never_returns_witness :
  pipeline_init {| CHUNK_SIZE := 500; CHUNK_OVERLAP := 50 |} (Some 5) (Some 0)
  = Returns {| pipeline_chunk_size := 5; pipeline_chunk_overlap := 50;
               splitter := mk 5 50 DEFAULT_SEPARATORS |}
  /\ forall fuel w,
       run_ingestion
         {| pipeline_chunk_size := 5; pipeline_chunk_overlap := 50;
            splitter := mk 5 50 DEFAULT_SEPARATORS |}
         fuel (IngestText (py "see aaaaaaaa. ok") (py "notes.txt") None) w
       = Diverges.
Proof.
  split; [reflexivity|].
  apply (ingestion_never_returns {| CHUNK_SIZE := 500; CHUNK_OVERLAP := 50 |}
           (Some 5) (Some 0) _ (py "aaaaaaaa") (py "see aaaaaaaa. ok")).
  - reflexivity.
  - simpl. lia.
  - intros c [= <-]. lia.
  - vm_compute. split; [discriminate | reflexivity].
  - apply separator_freeb_spec. reflexivity.
  - left. reflexivity.
  - exists (py "see "), (py ". ok"). reflexivity.
Defined.

(** ** Texts on which splitting returns without the character windows *)

Lemma split_from_single_free (c : N) (s q : str) :
  In q (split_from [c] 0 s) -> ~ In c q.
Proof.
  revert q. induction s as [|x s IH]; intros q; simpl.
  - intros [<-|[]] [].
  - rewrite andb_true_r. destruct (N.eqb_spec c x) as [->|Hne].
    + intros [<-|Hq]; [intros [] | apply IH; exact Hq].
    + destruct (split_from [c] 0 s) as [|p ps] eqn:Hs.
      * intros [<-|[]] [Hx|[]]. congruence.
      * intros [<-|Hq].
        -- intros [Hx|Hp]; [congruence|]. apply (IH p); [left; reflexivity | exact Hp].
        -- apply IH. right. exact Hq.
Qed.

Lemma contains_single (c : N) (s : str) : contains [c] s = false -> ~ In c s.
Proof.
  induction s as [|x s IH]; simpl; [intros _ []|].
  rewrite andb_true_r. intros H. apply orb_false_elim in H as [Hx Hs].
  apply N.eqb_neq in Hx. intros [Hin|Hin]; [congruence | exact (IH Hs Hin)].
Qed.

(** When the pieces between the occurrences of [c] fit a bound, so does
    every part of the text in which [c] does not occur. *)
Lemma pieces_fit_runs (c : N) (bound : Z) (text : str) :
  0 <= bound ->
  Forall (fun piece => len piece <= bound) (split [c] text) ->
  forall q, substring q text -> ~ In c q -> len q <= bound.
Proof.
  intros Hbound Hall q Hsub Hfree. destruct q as [|x q'] eqn:Hq; [exact Hbound|].
  rewrite <- Hq in *.
  destruct (join_run_piece [c] q ltac:(discriminate)
              ltac:(intros y Hy [<-|[]]; exact (Hfree Hy))
              ltac:(rewrite Hq; discriminate) (split [c] text)) as (piece & Hin & Hpiece).
  { rewrite join_split by discriminate. exact Hsub. }
  rewrite List.Forall_forall in Hall. specialize (Hall piece Hin).
  pose proof (substring_length _ _ Hpiece). lia.
Qed.

Lemma strip_stitched_bound (self : RecursiveCharacterTextSplitter) (s : str) :
  len s <= chunk_size self -> len (strip s) <= stitched_bound self.
Proof.
  intros H. pose proof (len_strip s). unfold stitched_bound.
  destruct (chunk_overlap self <=? 0); lia.
Qed.

Lemma apply_overlap_stitched_bound (self : RecursiveCharacterTextSplitter)
    (chunks : list str) :
  Forall (fun chunk => len chunk <= stitched_bound self) chunks ->
  Forall (fun chunk => len chunk <= stitched_bound self) (_apply_overlap self chunks).
Proof.
  intros Hall. unfold _apply_overlap.
  destruct (len chunks <=? 1); [exact Hall|]. simpl.
  unfold stitched_bound in *.
  destruct (Z.leb_spec (chunk_overlap self) 0); [exact Hall|].
  destruct chunks as [|first rest]; [constructor|].
  apply Forall_cons in Hall as [Hfirst Hrest].
  constructor; [exact Hfirst|].
  clear Hfirst. revert first. induction Hrest as [|curr rest Hcurr Hrest IH];
    intros prev; simpl; constructor; [|apply IH].
  unfold stitch.
  destruct (Z.leb_spec (len (overlap_text self prev) + len curr) (chunk_size self));
    [|exact Hcurr].
  rewrite !len_app. unfold len at 2. simpl. lia.
Qed.

Lemma split_on_stitched_bound (self : RecursiveCharacterTextSplitter)
    (recurse : str -> option (list str)) (separator text : str) :
  0 < chunk_size self ->
  (forall piece, In piece (split separator text) ->
     exists sub, recurse piece = Some sub
                 /\ Forall (fun chunk => len chunk <= stitched_bound self) sub) ->
  exists chunks,
    split_on self recurse separator text = Some chunks
    /\ Forall (fun chunk => len chunk <= stitched_bound self) chunks.
Proof.
  intros Hcs Hrec. unfold split_on.
  destruct (merge_splits_bounded self Hcs
              (fun chunk => len chunk <= stitched_bound self) recurse separator
              (strip_stitched_bound self) _ [] [] Hrec
              ltac:(constructor) ltac:(unfold len; simpl; lia))
    as (chunks' & current' & -> & Hall & Hcur).
  eexists. split; [reflexivity|].
  apply apply_overlap_stitched_bound.
  destruct (truthy (strip current')); [|exact Hall].
  apply Forall_app. split; [exact Hall|]. repeat constructor.
  apply strip_stitched_bound. exact Hcur.
Qed.

Lemma try_separators_pieces_fit (self : RecursiveCharacterTextSplitter)
    (c : N) (after : list str) (fuel : nat) :
  0 < chunk_size self ->
  forall before text,
    ~ In [] before ->
    (forall q, substring q text -> ~ In c q -> len q <= chunk_size self) ->
    chunk_size self < len text ->
    exists chunks,
      try_separators self fuel (before ++ [c] :: after) text = Some chunks
      /\ Forall (fun chunk => len chunk <= stitched_bound self) chunks.
Proof.
  intros Hcs. induction before as [|sep before IH]; intros text Hne Hruns Hlong.
  - simpl. destruct (contains [c] text) eqn:Hc.
    + apply split_on_stitched_bound; [exact Hcs|]. intros piece Hpiece.
      assert (Hfit : len piece <= chunk_size self).
      { apply Hruns.
        - apply (split_piece_substring [c]); [discriminate | exact Hpiece].
        - apply (split_from_single_free c text). exact Hpiece. }
      destruct (Z.leb_spec (len piece) (chunk_size self)); [|lia].
      eexists. split; [reflexivity|].
      apply stripped_or_nothing_Forall, strip_stitched_bound. exact Hfit.
    + apply contains_single in Hc.
      specialize (Hruns text (substring_refl text) Hc). lia.
  - assert (Hsep : sep <> []).
    { intros ->. apply Hne. left. reflexivity. }
    assert (Hne' : ~ In [] before).
    { intros H. apply Hne. right. exact H. }
    simpl. apply truthy_true in Hsep as Htruthy. rewrite Htruthy. simpl.
    destruct (contains sep text).
    + apply split_on_stitched_bound; [exact Hcs|]. intros piece Hpiece.
      destruct (Z.leb_spec (len piece) (chunk_size self)) as [Hfit|Hbig].
      * eexists. split; [reflexivity|].
        apply stripped_or_nothing_Forall, strip_stitched_bound. exact Hfit.
      * apply IH; [exact Hne' | | exact Hbig].
        intros q Hq. apply Hruns. eapply substring_trans; [exact Hq|].
        eapply split_piece_substring; eassumption.
    + apply IH; assumption.
Qed.

(** X20.  When the hierarchy has a one-character separator [c] before
    any empty-string marker and every piece of the text between two
    occurrences of [c] fits [chunk_size], [split_text] returns without a
    single iteration of the window loop, for every overlap; every chunk
    has at most [chunk_size] characters, and one more when the overlap is
    positive. *)
Theorem split_text_returns_when_pieces_fit (self : RecursiveCharacterTextSplitter)
    (c : N) (before after : list str) (text : str) :
  0 < chunk_size self ->
  separators self = before ++ [c] :: after ->
  ~ In [] before ->
  Forall (fun piece => len piece <= chunk_size self) (split [c] text) ->
  forall fuel,
    exists chunks,
      split_text self fuel text = Some chunks
      /\ Forall (fun chunk => len chunk <= stitched_bound self) chunks.
Proof.
  intros Hcs Hseps Hne Hall fuel. unfold split_text, _split_text_recursive.
  destruct (Z.leb_spec (len text) (chunk_size self)) as [Hfit|Hlong].
  - eexists. split; [reflexivity|].
    apply stripped_or_nothing_Forall, strip_stitched_bound. exact Hfit.
  - rewrite Hseps. apply try_separators_pieces_fit; try assumption.
    apply pieces_fit_runs; [lia | exact Hall].
Qed.

Lemma split_text_returns_when_pieces_fit_witness :
  split_text (mk 6 1 DEFAULT_SEPARATORS) 0 (py "aaaa bbbbb cc")
  = Some [py "aaaa"; py "a bbbbb"; py "b cc"]
  /\ exists chunks,
       split_text (mk 6 1 DEFAULT_SEPARATORS) 0 (py "aaaa bbbbb cc") = Some chunks
       /\ Forall (fun chunk => len chunk <= stitched_bound (mk 6 1 DEFAULT_SEPARATORS))
                 chunks.
Proof.
  split; [reflexivity|].
  apply (split_text_returns_when_pieces_fit (mk 6 1 DEFAULT_SEPARATORS) SP
           [ [LF; LF]; [LF]; py ". "; py "? "; py "! "; py "; "; py ", " ] [ [] ]).
  - simpl. lia.
  - reflexivity.
  - simpl. intuition discriminate.
  - vm_compute. repeat constructor; discriminate.
Defined.

(** ** The size of the chunks that [split_text] returns *)

Lemma window_loop_bound_no_overlap (self : RecursiveCharacterTextSplitter) (text : str) :
  chunk_overlap self <= 0 -> 0 < chunk_size self ->
  forall fuel st st',
    0 <= start st ->
    Forall (fun chunk => len chunk <= chunk_size self) (chunks st) ->
    window_loop self fuel text st = Some st' ->
    Forall (fun chunk => len chunk <= chunk_size self) (chunks st').
Proof.
  intros Hco Hcs. induction fuel as [|fuel IH]; intros st st' Hst Hall; simpl;
    unfold window_continues; destruct (Z.ltb_spec (start st) (len text)) as [Hlt|Hge];
    try discriminate; try (intros [= <-]; exact Hall).
  apply IH.
  - simpl. lia.
  - simpl. apply Forall_app. split; [exact Hall|]. repeat constructor.
    pose proof (slice_length text (start st)
                  (Z.min (start st + chunk_size self) (len text)) Hst ltac:(lia)) as Hw.
    set (window := slice text _ _) in *. clearbody window.
    pose proof (len_strip window). lia.
Qed.

Lemma split_by_character_bound (self : RecursiveCharacterTextSplitter)
    (fuel : nat) (text : str) (result : list str) :
  0 < chunk_size self ->
  _split_by_character self fuel text = Some result ->
  Forall (fun chunk => len chunk <= chunk_size self) result.
Proof.
  intros Hcs H.
  destruct (Z.le_gt_cases (chunk_overlap self) 0) as [Hco|Hco].
  - unfold _split_by_character in H.
    destruct (window_loop self fuel text _) as [st'|] eqn:Hloop; [|discriminate].
    injection H as <-.
    assert (Hall : Forall (fun chunk => len chunk <= chunk_size self) (chunks st')).
    { eapply (window_loop_bound_no_overlap self text Hco Hcs); [| |exact Hloop];
        simpl; [lia | constructor]. }
    rewrite List.Forall_forall in *. intros chunk Hchunk.
    apply List.filter_In in Hchunk as [Hchunk _]. auto.
  - destruct text as [|x text'].
    + destruct fuel; injection H as <-; constructor.
    + rewrite split_by_character_diverges in H by (assumption || discriminate).
      discriminate H.
Qed.

Lemma merge_splits_bound (self : RecursiveCharacterTextSplitter)
    (recurse : str -> option (list str)) (separator : str) :
  0 < chunk_size self ->
  forall splits chunks current_chunk chunks' current',
    (forall piece sub, In piece splits -> recurse piece = Some sub ->
       Forall (fun chunk => len chunk <= stitched_bound self) sub) ->
    Forall (fun chunk => len chunk <= stitched_bound self) chunks ->
    len current_chunk <= chunk_size self ->
    merge_splits self recurse separator splits chunks current_chunk
      = Some (chunks', current') ->
    Forall (fun chunk => len chunk <= stitched_bound self) chunks'
    /\ len current' <= chunk_size self.
Proof.
  intros Hcs. induction splits as [|piece splits IH];
    intros chunks current_chunk chunks' current' Hrec Hall Hcur; simpl.
  - intros [= <- <-]. auto.
  - assert (Hrec' : forall p sub, In p splits -> recurse p = Some sub ->
                Forall (fun chunk => len chunk <= stitched_bound self) sub).
    { intros p sub Hp. apply Hrec. right. exact Hp. }
    destruct (Z.leb_spec (len (current_chunk ++
                (if truthy current_chunk then separator else []) ++ piece))
                (chunk_size self)) as [Hfit|Hbig].
    + apply IH; assumption.
    + assert (Hall1 : Forall (fun chunk => len chunk <= stitched_bound self)
                        (if truthy current_chunk
                         then chunks ++ [strip current_chunk] else chunks)).
      { destruct (truthy current_chunk); [|exact Hall].
        apply Forall_app. split; [exact Hall|]. repeat constructor.
        apply strip_stitched_bound. exact Hcur. }
      destruct (Z.gtb_spec (len piece) (chunk_size self)) as [Hlong|Hshort].
      * destruct (recurse piece) as [sub|] eqn:Hsub; [|discriminate].
        apply IH; [assumption| |unfold len; simpl; lia].
        apply Forall_app. split; [exact Hall1|].
        apply (Hrec piece sub); [left; reflexivity | exact Hsub].
      * apply IH; [assumption | assumption | lia].
Qed.

Lemma try_separators_bound (self : RecursiveCharacterTextSplitter) (fuel : nat) :
  0 < chunk_size self ->
  forall seps text result,
    In [] seps ->
    try_separators self fuel seps text = Some result ->
    Forall (fun chunk => len chunk <= stitched_bound self) result.
Proof.
  intros Hcs. induction seps as [|sep rest IH]; intros text result Hnil;
    [contradiction|].
  simpl. destruct sep as [|s sep'].
  - simpl. intros H. apply split_by_character_bound in H; [|exact Hcs].
    eapply Forall_impl; [exact H|]. intros chunk Hchunk. simpl in Hchunk.
    unfold stitched_bound. destruct (chunk_overlap self <=? 0); lia.
  - destruct Hnil as [Hnil|Hnil]; [discriminate|].
    cbn [truthy negb]. destruct (contains (s :: sep') text); [|apply IH; exact Hnil].
    unfold split_on.
    destruct (merge_splits self _ (s :: sep') (split (s :: sep') text) [] [])
      as [[chunks' current']|] eqn:Hmerge; [|discriminate].
    intros [= <-].
    apply (merge_splits_bound self _ _ Hcs) in Hmerge as [Hall Hcur].
    + apply apply_overlap_stitched_bound.
      destruct (truthy (strip current')); [|exact Hall].
      apply Forall_app. split; [exact Hall|]. repeat constructor.
      apply strip_stitched_bound. exact Hcur.
    + intros piece sub _. cbv beta.
      destruct (Z.leb_spec (len piece) (chunk_size self)) as [Hfit|Hbig].
      * intros [= <-]. apply stripped_or_nothing_Forall, strip_stitched_bound.
        exact Hfit.
      * apply IH. exact Hnil.
    + constructor.
    + unfold len. simpl. lia.
Qed.

(** X21.  With the empty-string marker in the hierarchy and a positive
    [chunk_size], [split_text] never returns a chunk of more than
    [chunk_size] characters, or [chunk_size + 1] when the overlap is
    positive, whatever the text and the overlap. *)
Theorem split_text_chunk_bound (self : RecursiveCharacterTextSplitter)
    (fuel : nat) (text : str) (result : list str) :
  0 < chunk_size self -> In [] (separators self) ->
  split_text self fuel text = Some result ->
  Forall (fun chunk => len chunk <= stitched_bound self) result.
Proof.
  intros Hcs Hnil. unfold split_text, _split_text_recursive.
  destruct (Z.leb_spec (len text) (chunk_size self)) as [Hfit|Hlong].
  - intros [= <-]. apply stripped_or_nothing_Forall, strip_stitched_bound. exact Hfit.
  - apply try_separators_bound; assumption.
Qed.

Lemma split_text_chunk_bound_witness :
  split_text (mk 6 1 DEFAULT_SEPARATORS) 0 (py "aaaa bbbbb cc")
  = Some [py "aaaa"; py "a bbbbb"; py "b cc"]
  /\ stitched_bound (mk 6 1 DEFAULT_SEPARATORS) = 7
  /\ Forall (fun chunk => len chunk <= stitched_bound (mk 6 1 DEFAULT_SEPARATORS))
            [py "aaaa"; py "a bbbbb"; py "b cc"].
Proof.
  split; [reflexivity|]. split; [reflexivity|].
  apply (split_text_chunk_bound (mk 6 1 DEFAULT_SEPARATORS) 0 (py "aaaa bbbbb cc")).
  - simpl. lia.
  - simpl. tauto.
  - reflexivity.
Defined.

(** ** The number of windows of [_split_by_character] *)

Lemma ceil_div_pos (a b : Z) : 0 < b -> 0 < a -> 1 <= ceil_div a b.
Proof. intros Hb Ha. unfold ceil_div. apply Z.div_le_lower_bound; lia. Qed.

(** Without positive overlap the window start advances by
    [chunk_size - chunk_overlap] until the window is clipped, and the loop
    exits after [ceil((len(text) - start) / (chunk_size - chunk_overlap))]
    iterations. *)
Lemma window_loop_steps (self : RecursiveCharacterTextSplitter) (text : str) :
  chunk_overlap self <= 0 -> 0 < chunk_size self ->
  forall fuel st, 0 <= start st ->
    (is_Some (window_loop self fuel text st) <->
     (Z.to_nat (ceil_div (len text - start st) (chunk_size self - chunk_overlap self))
      <= fuel)%nat).
Proof.
  intros Hco Hcs.
  assert (Hstep : 0 < chunk_size self - chunk_overlap self) by lia.
  induction fuel as [|fuel IH]; intros st Hst; simpl;
    unfold window_continues; destruct (Z.ltb_spec (start st) (len text)) as [Hlt|Hge].
  - pose proof (ceil_div_pos (len text - start st) _ Hstep ltac:(lia)).
    split; [intros [x Hx]; discriminate | lia].
  - pose proof (ceil_div_nonpos (len text - start st) _ Hstep ltac:(lia)).
    split; [lia | eauto].
  - rewrite IH by (simpl; lia). simpl.
    rewrite (ceil_div_step (len text - start st) _ Hstep).
    destruct (Z.le_gt_cases (start st + chunk_size self) (len text)) as [Hfit|Hclip].
    + rewrite Z.min_l by lia.
      replace (len text - (start st + chunk_size self - chunk_overlap self))
        with (len text - start st - (chunk_size self - chunk_overlap self)) by lia.
      assert (0 <= ceil_div (len text - start st - (chunk_size self - chunk_overlap self))
                     (chunk_size self - chunk_overlap self)).
      { destruct (Z.le_gt_cases (chunk_size self - chunk_overlap self)
                    (len text - start st)).
        - apply ceil_div_nonneg; lia.
        - rewrite ceil_div_small by lia. lia. }
      lia.
    + rewrite Z.min_r by lia.
      pose proof (ceil_div_nonpos (len text - (len text - chunk_overlap self)) _ Hstep
                    ltac:(lia)).
      rewrite (ceil_div_small (len text - start st - (chunk_size self - chunk_overlap self)))
        by lia.
      simpl. lia.
  - pose proof (ceil_div_nonpos (len text - start st) _ Hstep ltac:(lia)).
    split; [lia | eauto].
Qed.

(** X22.  With [chunk_overlap <= 0 < chunk_size] the loop of
    [_split_by_character] exits after exactly
    [ceil(len(text) / (chunk_size - chunk_overlap))] iterations: the call
    returns when it is given that many, and not with fewer. *)
Theorem split_by_character_window_count (self : RecursiveCharacterTextSplitter)
    (text : str) (fuel : nat) :
  chunk_overlap self <= 0 -> 0 < chunk_size self ->
  is_Some (_split_by_character self fuel text) <->
  (Z.to_nat (ceil_div (len text) (chunk_size self - chunk_overlap self)) <= fuel)%nat.
Proof.
  intros Hco Hcs. unfold _split_by_character.
  pose proof (window_loop_steps self text Hco Hcs fuel
                {| start := 0; chunks := [] |} ltac:(simpl; lia)) as H.
  simpl in H. rewrite Z.sub_0_r in H. rewrite <- H.
  destruct (window_loop self fuel text _); split; intros [x Hx]; try discriminate; eauto.
Qed.

Lemma split_by_character_window_count_witness :
  _split_by_character (mk 5 (-1) DEFAULT_SEPARATORS) 1 (py "aaaaabbbbbcc") = None
  /\ _split_by_character (mk 5 (-1) DEFAULT_SEPARATORS) 2 (py "aaaaabbbbbcc")
     = Some [py "aaaaa"; py "bbbbc"]
  /\ (is_Some (_split_by_character (mk 5 (-1) DEFAULT_SEPARATORS) 2 (py "aaaaabbbbbcc"))
      <-> (Z.to_nat (ceil_div (len (py "aaaaabbbbbcc")) (5 - (-1))) <= 2)%nat).
Proof.
  split; [reflexivity|]. split; [reflexivity|].
  apply (split_by_character_window_count (mk 5 (-1) DEFAULT_SEPARATORS)
           (py "aaaaabbbbbcc") 2); simpl; lia.
Defined.

(** ** Files and directories *)

(** *** The calls that keep the world *)

Lemma text_documents_in_agrees (source_id : str)
    (extra_metadata : option (gmap str value)) (total : Z) :
  forall chunks i w,
    agrees (text_documents_in source_id extra_metadata total i chunks w)
           (text_documents source_id extra_metadata total i chunks w).
Proof.
  intros chunks. induction chunks as [|chunk rest IH]; intros i w; simpl.
  - auto.
  - unfold new_DocumentMetadata.
    destruct ((0 <=? i) && (1 <=? total) && true); simpl; [|reflexivity].
    unfold new_Document_in, new_Document. simpl.
    destruct (1 <=? len chunk); simpl; [|reflexivity].
    match goal with
    | |- agrees (and_then (text_documents_in _ _ _ _ _ ?w2) _) _ =>
        specialize (IH (i + 1) w2);
        destruct (text_documents_in source_id extra_metadata total (i + 1) rest w2)
          as [documents w3|e w3|];
        destruct (text_documents source_id extra_metadata total (i + 1) rest w2)
          as [[documents' w3']| |]
    end; simpl in *; try contradiction; try exact IH.
    destruct IH as [<- <-]. auto.
Qed.

Lemma pdf_documents_in_agrees (file : PdfFile)
    (extra_metadata : option (gmap str value)) (total : Z) :
  forall all_chunks i w,
    agrees (pdf_documents_in file extra_metadata total i all_chunks w)
           (pdf_documents file extra_metadata total i all_chunks w).
Proof.
  induction all_chunks as [|[[chunk page_num] page_chunk_idx] rest IH];
    intros i w; simpl.
  - auto.
  - unfold new_DocumentMetadata.
    destruct ((0 <=? i) && (1 <=? total) && (1 <=? page_num)); simpl; [|reflexivity].
    unfold new_Document_in, new_Document. simpl.
    destruct (1 <=? len chunk); simpl; [|reflexivity].
    match goal with
    | |- agrees (and_then (pdf_documents_in _ _ _ _ _ ?w2) _) _ =>
        specialize (IH (i + 1) w2);
        destruct (pdf_documents_in file extra_metadata total (i + 1) rest w2)
          as [documents w3|e w3|];
        destruct (pdf_documents file extra_metadata total (i + 1) rest w2)
          as [[documents' w3']| |]
    end; simpl in *; try contradiction; try exact IH.
    destruct IH as [<- <-]. auto.
Qed.

Lemma ingest_text_in_agrees (self : IngestionPipeline) (fuel : nat)
    (text source_id : str) (extra_metadata : option (gmap str value)) (w : World) :
  agrees (ingest_text_in self fuel text source_id extra_metadata w)
         (ingest_text self fuel text source_id extra_metadata w).
Proof.
  unfold ingest_text_in, ingest_text.
  destruct (negb (truthy (_clean_text text))); [simpl; auto|].
  destruct (split_text (splitter self) fuel (_clean_text text)) as [chunks|];
    simpl; [|exact I].
  destruct chunks; [simpl; auto|]. apply text_documents_in_agrees.
Qed.

Lemma ingest_pdf_in_agrees (self : IngestionPipeline) (fuel : nat)
    (file : PdfFile) (extra_metadata : option (gmap str value)) (w : World) :
  agrees (ingest_pdf_in self fuel file extra_metadata w)
         (ingest_pdf self fuel file extra_metadata w).
Proof.
  unfold ingest_pdf_in, ingest_pdf.
  destruct (collect_chunks self fuel 1 (pdf_pages file)) as [all_chunks|e|];
    simpl; [|destruct e; reflexivity|exact I].
  destruct all_chunks; [simpl; auto|]. apply pdf_documents_in_agrees.
Qed.

Lemma agrees_done {A} (r : completion A) (o : outcome (A * World)) (a : A) (w : World) :
  agrees r o -> r = Done a w -> o = Returns (a, w).
Proof.
  intros H ->. destruct o as [[a' w']| |]; simpl in H; try contradiction.
  destruct H as [<- <-]. reflexivity.
Qed.

(** *** The documents of a file *)

Lemma ingest_text_fields (self : IngestionPipeline) (fuel : nat)
    (text source_id : str) (extra_metadata : option (gmap str value))
    (w : World) (documents : list Document) (w' : World) :
  ingest_text self fuel text source_id extra_metadata w = Returns (documents, w') ->
  Forall (fun d => source (metadata d) = source_id
                   /\ extra (metadata d) = dict_or_empty extra_metadata)
         documents.
Proof.
  unfold ingest_text. destruct (negb (truthy (_clean_text text))).
  { intros [= <- _]. constructor. }
  destruct (split_text (splitter self) fuel (_clean_text text)) as [chunks|];
    simpl; [|discriminate].
  destruct chunks as [|chunk rest]; [intros [= <- _]; constructor|].
  intros H. apply text_documents_fields in H.
  apply List.Forall_forall. intros d Hd.
  apply (in_map document_view) in Hd. rewrite H in Hd.
  apply in_map_iff in Hd as ([j x] & Hf & _).
  change (source (metadata d)) with ((document_view d).1.1.1.1.2).
  change (extra (metadata d)) with ((document_view d).2).
  rewrite <- Hf. auto.
Qed.

Lemma ingest_pdf_fields (self : IngestionPipeline) (fuel : nat)
    (file : PdfFile) (extra_metadata : option (gmap str value))
    (w : World) (documents : list Document) (w' : World) :
  ingest_pdf self fuel file extra_metadata w = Returns (documents, w') ->
  Forall (fun d => source (metadata d) = pdf_name file
                   /\ exists page_chunk_idx,
                        extra (metadata d)
                        = dict_update
                            {[ py "filename" := VStr (pdf_name file);
                               py "extension" := VStr (py ".pdf");
                               py "file_size_bytes" := VInt (pdf_size file);
                               py "total_pages" := VInt (len (pdf_pages file));
                               py "page_chunk_index" := VInt page_chunk_idx ]}
                            (dict_or_empty extra_metadata))
         documents.
Proof.
  unfold ingest_pdf.
  destruct (collect_chunks self fuel 1 (pdf_pages file)) as [all_chunks| |];
    simpl; try discriminate.
  destruct all_chunks as [|entry rest] eqn:Hall; [intros [= <- _]; constructor|].
  rewrite <- Hall. clear Hall entry rest.
  intros H. apply pdf_documents_fields in H.
  apply List.Forall_forall. intros d Hd.
  apply (in_map document_view) in Hd. rewrite H in Hd.
  apply in_map_iff in Hd as ([j [[c p] k]] & Hf & _).
  change (source (metadata d)) with ((document_view d).1.1.1.1.2).
  change (extra (metadata d)) with ((document_view d).2).
  rewrite <- Hf. simpl. eauto.
Qed.

(** The documents of a file: the source is the file name, and [extra]
    holds the entries for the file under the caller's entries. *)
Lemma ingest_file_fields (self : IngestionPipeline) (fuel : nat) (lower : str -> str)
    (f : File) (extra_metadata : option (gmap str value))
    (w : World) (documents : list Document) (w' : World) :
  ingest_file self fuel lower f extra_metadata w = Done documents w' ->
  file_exists f = true /\ supported lower f = true
  /\ Forall (fun d =>
               source (metadata d) = file_name f
               /\ exists fixed,
                    extra (metadata d) = dict_update fixed (dict_or_empty extra_metadata)
                    /\ fixed !! py "filename" = Some (VStr (file_name f))
                    /\ fixed !! py "extension"
                       = Some (VStr (if bool_decide (lower (file_suffix f) = py ".pdf")
                                     then py ".pdf" else file_suffix f))
                    /\ fixed !! py "file_size_bytes" = Some (VInt (file_size f)))
            documents.
Proof.
  unfold ingest_file.
  destruct (file_exists f); simpl; [|discriminate].
  destruct (supported lower f); simpl; [|discriminate].
  intros H. split; [reflexivity|]. split; [reflexivity|].
  destruct (bool_decide (lower (file_suffix f) = py ".pdf")).
  - apply (agrees_done _ _ _ _ (ingest_pdf_in_agrees self fuel _ extra_metadata w)) in H.
    apply ingest_pdf_fields in H. simpl in H.
    eapply Forall_impl; [exact H|]. intros d (Hsource & k & Hextra).
    split; [exact Hsource|]. eexists. split; [exact Hextra|].
    split; [apply lookup_insert_eq|].
    split; rewrite !lookup_insert_ne by key_ne; apply lookup_insert_eq.
  - apply (agrees_done _ _ _ _ (ingest_text_in_agrees self fuel _ _ _ w)) in H.
    apply ingest_text_fields in H.
    eapply Forall_impl; [exact H|]. intros d (Hsource & Hextra).
    split; [exact Hsource|]. eexists. split; [exact Hextra|].
    split; [apply lookup_insert_eq|].
    split; rewrite !lookup_insert_ne by key_ne; apply lookup_insert_eq.
Qed.

(** X23.  [ingest_file] returns documents only for a file that exists
    and whose lower-cased suffix is supported.  Their source is the file
    name; [extra] holds the file name, the size and the extension (the
    suffix as written for a text file, [".pdf"] for a PDF) unless the
    caller's [extra_metadata] has an entry of the same key, and every
    entry of the caller. *)
Theorem ingest_file_metadata (self : IngestionPipeline) (fuel : nat)
    (lower : str -> str) (f : File) (extra_metadata : option (gmap str value))
    (w : World) (documents : list Document) (w' : World) :
  ingest_file self fuel lower f extra_metadata w = Done documents w' ->
  file_exists f = true /\ supported lower f = true
  /\ Forall (fun d =>
               let e := extra (metadata d) in
               let caller := dict_or_empty extra_metadata in
               source (metadata d) = file_name f
               /\ e !! py "filename"
                  = Some (default (VStr (file_name f)) (caller !! py "filename"))
               /\ e !! py "extension"
                  = Some (default
                            (VStr (if bool_decide (lower (file_suffix f) = py ".pdf")
                                   then py ".pdf" else file_suffix f))
                            (caller !! py "extension"))
               /\ e !! py "file_size_bytes"
                  = Some (default (VInt (file_size f)) (caller !! py "file_size_bytes"))
               /\ forall k v, caller !! k = Some v -> e !! k = Some v)
            documents.
Proof.
  intros H. apply ingest_file_fields in H as (Hexists & Hsupported & Hall).
  split; [exact Hexists|]. split; [exact Hsupported|].
  eapply Forall_impl; [exact Hall|].
  intros d (Hsource & fixed & Hextra & Hname & Hext & Hsize). cbv zeta.
  rewrite Hextra. split; [exact Hsource|].
  split; [apply dict_update_lookup_default; exact Hname|].
  split; [apply dict_update_lookup_default; exact Hext|].
  split; [apply dict_update_lookup_default; exact Hsize|].
  intros k v Hk. rewrite dict_update_lookup, Hk. reflexivity.
Qed.

Lemma ingest_file_metadata_witness :
  exists documents w',
    ingest_file small_pipeline 10 ascii_lower scan_pdf
      (Some {[ py "filename" := VStr (py "report") ]}) world_a
    = Done documents w'
    /\ map (fun d => (source (metadata d),
                      extra (metadata d) !! py "filename",
                      extra (metadata d) !! py "extension")) documents
       = [(py "SCAN.PDF", Some (VStr (py "report")), Some (VStr (py ".pdf")));
          (py "SCAN.PDF", Some (VStr (py "report")), Some (VStr (py ".pdf")));
          (py "SCAN.PDF", Some (VStr (py "report")), Some (VStr (py ".pdf")))]
    /\ Forall (fun d =>
                 source (metadata d) = py "SCAN.PDF"
                 /\ extra (metadata d) !! py "filename" = Some (VStr (py "report")))
              documents.
Proof.
  eexists _, _.
  match goal with
  | |- ?call = Done ?documents ?w' /\ _ =>
      assert (Hcall : call = Done documents w') by (vm_compute; reflexivity)
  end.
  split; [exact Hcall|]. split; [vm_compute; reflexivity|].
  destruct (ingest_file_metadata small_pipeline 10 ascii_lower scan_pdf
              (Some {[ py "filename" := VStr (py "report") ]}) world_a _ _ Hcall)
    as (_ & _ & Hall).
  eapply Forall_impl; [exact Hall|]. cbv zeta.
  intros d (Hsource & Hname & _). split; [exact Hsource | exact Hname].
Defined.

(** *** The files of a directory *)







Lemma directory_yields_fields (self : IngestionPipeline) (fuel : nat)
    (lower : str -> str) (dir : Directory) (extra_metadata : option (gmap str value)) :
  forall files w yields w',
    directory_yields self fuel lower dir extra_metadata files w = Done yields w' ->
    Forall (fun y : str * list Document =>
              Forall (fun d =>
                        source (metadata d) = y.1
                        /\ exists fixed,
                             extra (metadata d)
                             = dict_update fixed
                                 (dict_or_empty (directory_metadata dir extra_metadata)))
                     y.2)
           yields.
Proof.
  induction files as [|f rest IH]; intros w yields w'; simpl.
  - intros [= <- _]. constructor.
  - destruct (file_is_file f && supported lower f); [|apply IH].
    change (Some (dict_update {[py "directory" := VStr (dir_str dir)]}
                    (dict_or_empty extra_metadata)))
      with (directory_metadata dir extra_metadata).
    destruct (ingest_file self fuel lower f (directory_metadata dir extra_metadata) w)
      as [documents w1|e w1|] eqn:Hfile; [| apply IH | discriminate].
    destruct (directory_yields self fuel lower dir extra_metadata rest w1)
      as [yields1 w2|e w2|] eqn:Hrest; simpl; try discriminate.
    intros [= <- _]. constructor; [|eapply IH; exact Hrest].
    apply ingest_file_fields in Hfile as (_ & _ & Hall). simpl.
    eapply Forall_impl; [exact Hall|].
    intros d (Hsource & fixed & Hextra & _). eauto.
Qed.

(** X25.  Every document that [ingest_directory] yields has the name of
    its file, the first component of the pair yielded, as source; its
    [extra] maps ["directory"] to the directory as given, unless the
    caller's [extra_metadata] has that key, and holds every entry of the
    caller. *)
Theorem ingest_directory_metadata (self : IngestionPipeline) (fuel : nat)
    (lower : str -> str) (dir : Directory) (pattern : str) (recursive : bool)
    (extra_metadata : option (gmap str value)) (w : World)
    (yields : list (str * list Document)) (w' : World) :
  ingest_directory self fuel lower dir pattern recursive extra_metadata w
    = Done yields w' ->
  Forall (fun y : str * list Document =>
            Forall (fun d =>
                      let e := extra (metadata d) in
                      let caller := dict_or_empty extra_metadata in
                      source (metadata d) = y.1
                      /\ e !! py "directory"
                         = Some (default (VStr (dir_str dir)) (caller !! py "directory"))
                      /\ forall k v, caller !! k = Some v -> e !! k = Some v)
                   y.2)
         yields.
Proof.
  unfold ingest_directory.
  destruct (negb (dir_exists dir)); [discriminate|].
  destruct (negb (dir_is_dir dir)); [discriminate|].
  destruct ((if recursive then dir_rglob dir else dir_glob dir) pattern)
    as [e|files]; [discriminate|].
  intros H. apply directory_yields_fields in H.
  eapply Forall_impl; [exact H|]. intros y Hy.
  eapply Forall_impl; [exact Hy|]. cbv zeta.
  intros d (Hsource & fixed & Hextra). simpl in Hextra.
  split; [exact Hsource|]. rewrite Hextra. split.
  - rewrite dict_update_lookup.
    rewrite (dict_update_lookup_default _ _ _ (VStr (dir_str dir)))
      by apply lookup_insert_eq.
    reflexivity.
  - intros k v Hk. rewrite dict_update_lookup.
    assert (Hin : dict_update {[py "directory" := VStr (dir_str dir)]}
                    (dict_or_empty extra_metadata) !! k = Some v).
    { rewrite dict_update_lookup, Hk. reflexivity. }
    rewrite Hin. reflexivity.
Qed.

Lemma ingest_directory_metadata_witness :
  exists yields w',
    ingest_directory small_pipeline 30 ascii_lower docs_dir (py "*") false
      (Some {[ py "owner" := VStr (py "ops") ]}) world_c
    = Done yields w'
    /\ Forall (fun y : str * list Document =>
                 Forall (fun d =>
                           source (metadata d) = y.1
                           /\ extra (metadata d) !! py "directory"
                              = Some (VStr (py "docs"))
                           /\ extra (metadata d) !! py "owner"
                              = Some (VStr (py "ops")))
                        y.2)
              yields.
Proof.
  eexists _, _.
  match goal with
  | |- ?call = Done ?yields ?w' /\ _ =>
      assert (Hcall : call = Done yields w') by (vm_compute; reflexivity)
  end.
  split; [exact Hcall|].
  pose proof (ingest_directory_metadata small_pipeline 30 ascii_lower docs_dir (py "*")
                false (Some {[ py "owner" := VStr (py "ops") ]}) world_c _ _ Hcall)
    as H.
  eapply Forall_impl; [exact H|]. intros y Hy.
  eapply Forall_impl; [exact Hy|]. cbv zeta.
  intros d (Hsource & Hdir & Hkeep).
  split; [exact Hsource|]. split; [exact Hdir|].
  apply Hkeep. reflexivity.
Defined.

(** ** Search results *)

Lemma ltb_leb (a b : float) : PrimFloat.ltb a b = true -> PrimFloat.leb a b = true.
Proof.
  rewrite ltb_spec, leb_spec. unfold SFltb, SFleb.
  destruct (SFcompare (Prim2SF a) (Prim2SF b)) as [[]|]; congruence.
Qed.

(** The clamped score passes the validation of [SearchResult]. *)
Lemma clamped_score_valid (v : float) :
  PrimFloat.leb 0 (py_max 0 (py_min 1 v)) && PrimFloat.leb (py_max 0 (py_min 1 v)) 1
  = true.
Proof.
  unfold py_min. destruct (PrimFloat.ltb v 1) eqn:H1.
  - unfold py_max. destruct (PrimFloat.ltb 0 v) eqn:H0.
    + rewrite (ltb_leb _ _ H0), (ltb_leb _ _ H1). reflexivity.
    + reflexivity.
  - reflexivity.
Qed.

(** X26.  [from_chroma_result] never fails on the score: for every
    distance, negative, huge, infinite or NaN, the score it computes lies
    between 0 and 1.  It returns a result that holds the document and the
    metadata unchanged, with the ["source"] entry of the metadata as
    source, or ["unknown"] when there is none; it raises only when that
    entry is not a string. *)
Theorem from_chroma_result_score_valid (document : str) (distance : float)
    (metadata : gmap str value) :
  exists score,
    PrimFloat.leb 0 score = true /\ PrimFloat.leb score 1 = true
    /\ from_chroma_result document distance metadata
       = match default (VStr (py "unknown")) (metadata !! py "source") with
         | VStr s => Returns {| Search.content := document; Search.score := score;
                                Search.source := s; Search.metadata := metadata |}
         | _ => Raises ValidationError
         end.
Proof.
  unfold from_chroma_result, new_SearchResult.
  set (v := PrimFloat.sub 1 (PrimFloat.div distance 2)).
  pose proof (clamped_score_valid v) as Hvalid.
  exists (py_max 0 (py_min 1 v)).
  rewrite Hvalid. apply andb_prop in Hvalid as [H0 H1]. auto.
Qed.

Lemma nan_spec (x : float) : PrimFloat.is_nan x = true -> Prim2SF x = S754_nan.
Proof. intros H. unfold Prim2SF. rewrite H. reflexivity. Qed.

(** X27.  A distance that is NaN gives the score 1.0, the score of an
    exact match: neither [min] nor [max] ever takes a NaN, so [min(1.0,
    nan)] is 1.0. *)
Theorem from_chroma_result_nan_distance (document : str) (distance : float)
    (metadata : gmap str value) (result : Search.SearchResult) :
  PrimFloat.is_nan distance = true ->
  from_chroma_result document distance metadata = Returns result ->
  Search.score result = 1%float.
Proof.
  intros Hnan. unfold from_chroma_result.
  set (v := PrimFloat.sub 1 (PrimFloat.div distance 2)).
  assert (Hv : PrimFloat.ltb v 1 = false).
  { rewrite ltb_spec. unfold v. rewrite sub_spec, div_spec, (nan_spec _ Hnan).
    reflexivity. }
  unfold py_min. rewrite Hv.
  change (py_max 0 1) with 1%float.
  unfold new_SearchResult. simpl.
  destruct (default (VStr (py "unknown")) (metadata !! py "source"));
    try discriminate.
  intros [= <-]. reflexivity.
Qed.

Lemma from_chroma_result_nan_distance_witness :
  PrimFloat.is_nan PrimFloat.nan = true
  /\ from_chroma_result (py "text") PrimFloat.nan ∅
     = Returns {| Search.content := py "text"; Search.score := 1;
                  Search.source := py "unknown"; Search.metadata := ∅ |}
  /\ Search.score {| Search.content := py "text"; Search.score := 1;
                     Search.source := py "unknown"; Search.metadata := ∅ |}
     = 1%float.
Proof.
  split; [reflexivity|]. split; [reflexivity|].
  apply (from_chroma_result_nan_distance (py "text") PrimFloat.nan ∅);
    reflexivity.
Defined.

(** X28.  Reading back what [to_chroma_format] wrote: for a document
    whose [extra] has no ["source"] entry, [from_chroma_result] on the
    serialized document and metadata returns, for every distance, a result
    with the content and the source of the document and with the
    serialized metadata unchanged. *)
Theorem chroma_round_trip (isoformat : datetime -> str) (doc : Document)
    (distance : float) :
  extra (metadata doc) !! py "source" = None ->
  exists result,
    from_chroma_result (chroma_document (to_chroma_format isoformat doc)) distance
      (chroma_metadata (to_chroma_format isoformat doc))
    = Returns result
    /\ Search.content result = content doc
    /\ Search.source result = source (metadata doc)
    /\ Search.metadata result = chroma_metadata (to_chroma_format isoformat doc).
Proof.
  intros Hextra.
  destruct (from_chroma_result_score_valid
              (chroma_document (to_chroma_format isoformat doc)) distance
              (chroma_metadata (to_chroma_format isoformat doc)))
    as (score & _ & _ & Hresult).
  assert (Hsource : chroma_metadata (to_chroma_format isoformat doc) !! py "source"
                    = Some (VStr (source (metadata doc)))).
  { unfold to_chroma_format. simpl chroma_metadata.
    rewrite dict_update_lookup, Hextra. apply lookup_insert_eq. }
  rewrite Hsource in Hresult. simpl in Hresult.
  eexists. split; [exact Hresult|]. simpl. auto.
Qed.

Lemma chroma_round_trip_witness :
  extra (metadata sample_document) !! py "source" = None
  /\ exists result,
       from_chroma_result (py "text") 0.5
         (chroma_metadata
            (to_chroma_format (fun _ => py "2026-01-01T00:00:00") sample_document))
       = Returns result
       /\ Search.content result = py "text"
       /\ Search.source result = py "notes.txt"
       /\ Search.score result = 0.75%float.
Proof.
  assert (Hextra : extra (metadata sample_document) !! py "source" = None)
    by reflexivity.
  split; [exact Hextra|].
  destruct (chroma_round_trip (fun _ => py "2026-01-01T00:00:00") sample_document
              0.5 Hextra) as (result & Hresult & Hcontent & Hsource & _).
  exists result. split; [exact Hresult|]. split; [exact Hcontent|].
  split; [exact Hsource|].
  vm_compute in Hresult. injection Hresult as <-. reflexivity.
Defined.
